(** * QCustomPlot: colour gradient and stacked / grouped bars

    A shallow embedding of [src/colorgradient.cpp] and
    [src/plottables/plottable-bars.cpp].

    - [Gradient]: [QCPColorGradient].  A C++ [double] is a binary64 float
      ([PrimFloat.float]), an [int] is a [Z] inside the 32-bit range, a
      [QRgb] is the 32-bit value [0xAARRGGBB] as a [Z].  The object is a
      record and every member function passes the record explicitly.
    - [Bars]: [QCPBars] and [QCPBarsGroup].  The objects live in a store
      indexed by their addresses; the stacking links and the group
      membership are addresses into that store, so aliasing is the
      store's.  Coordinates, widths and pixel values are binary64 floats
      as well, with the comparisons and the rounding of the C++
      operators. *)

From Stdlib Require Import ZArith Floats Lia String.
From stdpp Require Import gmap list.

Set Warnings "-inexact-float".
Set Warnings "-clear-no-such-hyp".

(* ===================================================================== *)
(** * Part I: definitions                                                 *)
(* ===================================================================== *)

Module Gradient.

Open Scope Z_scope.

(** ** Machine numbers *)

Definition INT_MIN : Z := -2147483648.
Definition INT_MAX : Z := 2147483647.

(** The integer part of a double (rounding toward zero); infinities and
    NaN have none. *)
Definition truncate (f : float) : option Z :=
  match Prim2SF f with
  | S754_zero _ => Some 0
  | S754_finite s m e =>
      let a := if 0 <=? e then Z.shiftl (Zpos m) e else Z.shiftr (Zpos m) (- e) in
      Some (if s then - a else a)
  | S754_infinity _ | S754_nan => None
  end.

(** Conversion [double -> int] as in [int index = <double expression>].
    C++ truncates toward zero and leaves the conversion undefined when the
    integer part does not fit an [int]; that case yields [INT_MIN] here,
    the value the SSE2 conversion instruction delivers. *)
Definition int_of_double (f : float) : Z :=
  match truncate f with
  | Some z => if (INT_MIN <=? z) && (z <=? INT_MAX) then z else INT_MIN
  | None => INT_MIN
  end.

(** Conversion [int -> double] (exact for every 32-bit value). *)
Definition double_of_int (z : Z) : float :=
  if z <? 0 then PrimFloat.opp (PrimFloat.of_uint63 (Uint63.of_Z (- z)))
  else PrimFloat.of_uint63 (Uint63.of_Z z).

(** ** Qt colours *)

Definition QRgb : Type := Z.

(** Qt's [qRgb(int r, int g, int b)]:
    [(0xffu << 24) | ((r & 0xff) << 16) | ((g & 0xff) << 8) | (b & 0xff)]. *)
Definition qRgb (r g b : Z) : QRgb :=
  Z.lor (Z.shiftl 255 24)
    (Z.lor (Z.shiftl (Z.land r 255) 16)
       (Z.lor (Z.shiftl (Z.land g 255) 8) (Z.land b 255))).

(** An opaque RGB [QColor], by its three 8-bit channels. *)
Record QColor : Type := mkColor { red : Z; green : Z; blue : Z }.

Definition rgb (c : QColor) : QRgb := qRgb (red c) (green c) (blue c).

Definition QColor_eqb (c d : QColor) : bool :=
  (red c =? red d) && (green c =? green d) && (blue c =? blue d).

Definition Qt_black : QColor := mkColor 0 0 0.
Definition Qt_white : QColor := mkColor 255 255 255.

(** What the gradient calls of Qt and of the C library beyond the above:
    the natural logarithm and the HSV view of a colour
    ([c.toHsv().hueF()], ..., [QColor::fromHsvF(h, s, v)]). *)
Class QtMath : Type := {
  qLn : float -> float;
  hsvHueF : QColor -> float;
  hsvSaturationF : QColor -> float;
  hsvValueF : QColor -> float;
  fromHsvF : float -> float -> float -> QColor
}.

(** ** [QMap<double, QColor>]: the entries in ascending key order *)

Definition QMap : Type := list (float * QColor).

(** [QMap::insert]: a key equal to the new one (neither is less than the
    other) keeps its place and takes the new value. *)
Fixpoint qmap_insert (k : float) (v : QColor) (m : QMap) : QMap :=
  match m with
  | [] => [(k, v)]
  | (k', v') :: m' =>
      if (k' <? k)%float then (k', v') :: qmap_insert k v m'
      else if (k <? k')%float then (k, v) :: (k', v') :: m'
      else (k', v) :: m'
  end.

(** [QMap::lowerBound]: the position of the first entry whose key is not
    less than [k]; [length m] stands for [constEnd()]. *)
Fixpoint lowerBound (k : float) (m : QMap) : nat :=
  match m with
  | [] => 0%nat
  | (k', _) :: m' => if (k' <? k)%float then S (lowerBound k m') else 0%nat
  end.

(** The entry an iterator at position [n] points to (only read in range). *)
Definition entryAt (m : QMap) (n : nat) : float * QColor :=
  nth n m (0%float, Qt_black).

(** [QMap::operator==]: same size, and entry by entry equal keys and equal
    values. *)
Fixpoint qmap_eqb (m1 m2 : QMap) : bool :=
  match m1, m2 with
  | [], [] => true
  | (k1, v1) :: m1', (k2, v2) :: m2' =>
      negb (k1 <? k2)%float && negb (k2 <? k1)%float && QColor_eqb v1 v2
      && qmap_eqb m1' m2'
  | _, _ => false
  end.

(** ** [QCPRange] *)

Record QCPRange : Type := mkRange { lower : float; upper : float }.

(** Modelled from the spec: [QCPRange::size()] is declared outside the
    files at hand; the index formula of the spec divides by the size of the
    range, the distance from its lower to its upper bound. *)
Definition size (r : QCPRange) : float := (upper r - lower r)%float.

(** ** [QCPColorGradient] *)

Inductive ColorInterpolation : Type := ciRGB | ciHSV.

Definition ColorInterpolation_eqb (a b : ColorInterpolation) : bool :=
  match a, b with
  | ciRGB, ciRGB | ciHSV, ciHSV => true
  | _, _ => false
  end.

Inductive GradientPreset : Type :=
| gpGrayscale | gpHot | gpCold | gpNight | gpCandy | gpGeography
| gpIon | gpThermal | gpPolar | gpSpectrum | gpJet | gpHues.

Record QCPColorGradient : Type := mkGradient {
  mLevelCount : Z;
  mColorStops : QMap;
  mColorInterpolation : ColorInterpolation;
  mPeriodic : bool;
  mColorBuffer : list QRgb;
  mColorBufferInvalidated : bool
}.

(** [for (int i = from; i < from + n; ++i) body], on a state [S]. *)
Fixpoint forLoop {S : Type} (n : nat) (i : Z) (body : Z -> S -> S) (s : S) : S :=
  match n with
  | O => s
  | Datatypes.S n' => forLoop n' (i + 1) body (body i s)
  end.

(** [QVector::resize]: cut, or extend with zero-initialised entries. *)
Definition resize (n : nat) (v : list QRgb) : list QRgb :=
  take n v ++ replicate (n - length v) 0.

(** [QVector::fill(value)]: every present entry becomes [value]. *)
Definition fill (c : QRgb) (v : list QRgb) : list QRgb :=
  replicate (length v) c.

(** [operator==] *)
Definition operator_eq (this other : QCPColorGradient) : bool :=
  (mLevelCount other =? mLevelCount this)
  && ColorInterpolation_eqb (mColorInterpolation other) (mColorInterpolation this)
  && Bool.eqb (mPeriodic other) (mPeriodic this)
  && qmap_eqb (mColorStops other) (mColorStops this).

(** [setLevelCount]; the second component is the [qDebug] output. *)
Definition setLevelCount (n : Z) (g : QCPColorGradient)
  : QCPColorGradient * list string :=
  let '(n, dbg) :=
    if n <? 2 then (2, ["n must be greater or equal 2"%string]) else (n, []) in
  (if negb (n =? mLevelCount g)
   then mkGradient n (mColorStops g) (mColorInterpolation g) (mPeriodic g)
          (mColorBuffer g) true
   else g, dbg).

Definition setColorStops (colorStops : QMap) (g : QCPColorGradient) : QCPColorGradient :=
  mkGradient (mLevelCount g) colorStops (mColorInterpolation g) (mPeriodic g)
    (mColorBuffer g) true.

Definition setColorStopAt (position : float) (color : QColor) (g : QCPColorGradient)
  : QCPColorGradient :=
  mkGradient (mLevelCount g) (qmap_insert position color (mColorStops g))
    (mColorInterpolation g) (mPeriodic g) (mColorBuffer g) true.

Definition setColorInterpolation (interpolation : ColorInterpolation)
  (g : QCPColorGradient) : QCPColorGradient :=
  if negb (ColorInterpolation_eqb interpolation (mColorInterpolation g))
  then mkGradient (mLevelCount g) (mColorStops g) interpolation (mPeriodic g)
         (mColorBuffer g) true
  else g.

Definition setPeriodic (enabled : bool) (g : QCPColorGradient) : QCPColorGradient :=
  mkGradient (mLevelCount g) (mColorStops g) (mColorInterpolation g) enabled
    (mColorBuffer g) (mColorBufferInvalidated g).

Definition clearColorStops (g : QCPColorGradient) : QCPColorGradient :=
  mkGradient (mLevelCount g) [] (mColorInterpolation g) (mPeriodic g)
    (mColorBuffer g) true.

(** The stops of a preset, in the order [loadPreset] sets them. *)
Definition presetStops (preset : GradientPreset)
  : ColorInterpolation * list (float * QColor) :=
  match preset with
  | gpGrayscale => (ciRGB, [(0, Qt_black); (1, Qt_white)])
  | gpHot => (ciRGB,
      [(0, mkColor 50 0 0); (0.2, mkColor 180 10 0); (0.4, mkColor 245 50 0);
       (0.6, mkColor 255 150 10); (0.8, mkColor 255 255 50);
       (1, mkColor 255 255 255)])
  | gpCold => (ciRGB,
      [(0, mkColor 0 0 50); (0.2, mkColor 0 10 180); (0.4, mkColor 0 50 245);
       (0.6, mkColor 10 150 255); (0.8, mkColor 50 255 255);
       (1, mkColor 255 255 255)])
  | gpNight => (ciHSV, [(0, mkColor 10 20 30); (1, mkColor 250 255 250)])
  | gpCandy => (ciHSV, [(0, mkColor 0 0 255); (1, mkColor 255 250 250)])
  | gpGeography => (ciRGB,
      [(0, mkColor 70 170 210); (0.20, mkColor 90 160 180);
       (0.25, mkColor 45 130 175); (0.30, mkColor 100 140 125);
       (0.5, mkColor 100 140 100); (0.6, mkColor 130 145 120);
       (0.7, mkColor 140 130 120); (0.9, mkColor 180 190 190);
       (1, mkColor 210 210 230)])
  | gpIon => (ciHSV,
      [(0, mkColor 50 10 10); (0.45, mkColor 0 0 255); (0.8, mkColor 0 255 255);
       (1, mkColor 0 255 0)])
  | gpThermal => (ciRGB,
      [(0, mkColor 0 0 50); (0.15, mkColor 20 0 120); (0.33, mkColor 200 30 140);
       (0.6, mkColor 255 100 0); (0.85, mkColor 255 255 40);
       (1, mkColor 255 255 255)])
  | gpPolar => (ciRGB,
      [(0, mkColor 50 255 255); (0.18, mkColor 10 70 255);
       (0.28, mkColor 10 10 190); (0.5, mkColor 0 0 0);
       (0.72, mkColor 190 10 10); (0.82, mkColor 255 70 10);
       (1, mkColor 255 255 50)])
  | gpSpectrum => (ciHSV,
      [(0, mkColor 50 0 50); (0.15, mkColor 0 0 255); (0.35, mkColor 0 255 255);
       (0.6, mkColor 255 255 0); (0.75, mkColor 255 30 0); (1, mkColor 50 0 0)])
  | gpJet => (ciRGB,
      [(0, mkColor 0 0 100); (0.15, mkColor 0 50 255); (0.35, mkColor 0 255 255);
       (0.65, mkColor 255 255 0); (0.85, mkColor 255 30 0); (1, mkColor 100 0 0)])
  | gpHues => (ciHSV,
      [(0, mkColor 255 0 0); (1.0 / 3.0, mkColor 0 0 255);
       (2.0 / 3.0, mkColor 0 255 0); (1, mkColor 255 0 0)])
  end%float.

Definition loadPreset (preset : GradientPreset) (g : QCPColorGradient)
  : QCPColorGradient :=
  let '(interpolation, stops) := presetStops preset in
  foldl (fun g '(position, color) => setColorStopAt position color g)
    (setColorInterpolation interpolation (clearColorStops g)) stops.

(** The constructor [QCPColorGradient(GradientPreset preset)]. *)
Definition construct (preset : GradientPreset) : QCPColorGradient :=
  loadPreset preset (mkGradient 350 [] ciRGB false (replicate 350 (qRgb 0 0 0)) true).

Definition inverted (g : QCPColorGradient) : QCPColorGradient :=
  foldl (fun result '(key, value) => setColorStopAt (1.0 - key)%float value result)
    (clearColorStops g) (mColorStops g).

Section WithQt.
Context `{QtMath}.

(** The colour between two adjacent stops, at interpolation factor [t]
    (the [switch (mColorInterpolation)] of [updateColorBuffer]). *)
Definition interpolate (mode : ColorInterpolation) (low high : QColor) (t : float)
  : QRgb :=
  match mode with
  | ciRGB =>
      qRgb (int_of_double ((1 - t) * double_of_int (red low) + t * double_of_int (red high))%float)
           (int_of_double ((1 - t) * double_of_int (green low) + t * double_of_int (green high))%float)
           (int_of_double ((1 - t) * double_of_int (blue low) + t * double_of_int (blue high))%float)
  | ciHSV =>
      let hueDiff := (hsvHueF high - hsvHueF low)%float in
      let hue :=
        if (0.5 <? hueDiff)%float then (hsvHueF low - t * (1.0 - hueDiff))%float
        else if (hueDiff <? -0.5)%float then (hsvHueF low + t * (1.0 + hueDiff))%float
        else (hsvHueF low + t * hueDiff)%float in
      let hue :=
        if (hue <? 0)%float then (hue + 1.0)%float
        else if (1.0 <=? hue)%float then (hue - 1.0)%float
        else hue in
      rgb (fromHsvF hue
             ((1 - t) * hsvSaturationF low + t * hsvSaturationF high)%float
             ((1 - t) * hsvValueF low + t * hsvValueF high)%float)
  end.

(** One pass of the loop body of [updateColorBuffer], without the store:
    the colour of buffer slot [i]. *)
Definition levelColor (g : QCPColorGradient) (i : Z) : QRgb :=
  let indexToPosFactor := (1.0 / double_of_int (mLevelCount g - 1))%float in
  let position := (double_of_int i * indexToPosFactor)%float in
  let it := lowerBound position (mColorStops g) in
  if (it =? length (mColorStops g))%nat then
    rgb (snd (entryAt (mColorStops g) (it - 1)))
  else if (it =? 0)%nat then
    rgb (snd (entryAt (mColorStops g) it))
  else
    let high := entryAt (mColorStops g) it in
    let low := entryAt (mColorStops g) (it - 1) in
    let t := ((position - fst low) / (fst high - fst low))%float in
    interpolate (mColorInterpolation g) (snd low) (snd high) t.

Definition updateColorBuffer (g : QCPColorGradient) : QCPColorGradient :=
  let buffer :=
    if negb (Z.of_nat (length (mColorBuffer g)) =? mLevelCount g)
    then resize (Z.to_nat (mLevelCount g)) (mColorBuffer g)
    else mColorBuffer g in
  let buffer :=
    if (1 <? length (mColorStops g))%nat then
      forLoop (Z.to_nat (mLevelCount g)) 0
        (fun i buffer => <[Z.to_nat i := levelColor g i]> buffer) buffer
    else if (length (mColorStops g) =? 1)%nat then
      fill (rgb (snd (entryAt (mColorStops g) 0))) buffer
    else
      fill (qRgb 0 0 0) buffer in
  mkGradient (mLevelCount g) (mColorStops g) (mColorInterpolation g) (mPeriodic g)
    buffer false.

(** [QVector::at]: the entry, when the index is in bounds. *)
Definition at_ (v : list QRgb) (index : Z) : option QRgb :=
  if index <? 0 then None else v !! Z.to_nat index.

(** [color]: the colour read (nothing when the read is out of bounds) and
    the gradient afterwards. *)
Definition color (g : QCPColorGradient) (position : float) (range : QCPRange)
  (logarithmic : bool) : option QRgb * QCPColorGradient :=
  let g := if mColorBufferInvalidated g then updateColorBuffer g else g in
  let index :=
    if negb logarithmic then
      int_of_double
        ((position - lower range) * double_of_int (mLevelCount g - 1) / size range)%float
    else
      int_of_double
        (qLn (position / lower range) / qLn (upper range / lower range)
         * double_of_int (mLevelCount g - 1))%float in
  let index :=
    if mPeriodic g then
      let index := Z.rem index (mLevelCount g) in
      if index <? 0 then index + mLevelCount g else index
    else
      if index <? 0 then 0
      else if mLevelCount g <=? index then mLevelCount g - 1
      else index in
  (at_ (mColorBuffer g) index, g).

(** [scanLine[i] = mColorBuffer.at(index)]; a read out of bounds stores
    nothing. *)
Definition storeColor (buffer : list QRgb) (line : Z -> QRgb) (i index : Z)
  : Z -> QRgb :=
  match at_ buffer index with
  | Some c => fun j => if j =? i then c else line j
  | None => line
  end.

(** [colorize].  A pointer is null ([None]) or the memory it addresses, read
    and written by offset.  The result is the scan line, the gradient and the
    [qDebug] output. *)
Definition colorize (g : QCPColorGradient) (data : option (Z -> float))
  (range : QCPRange) (scanLine : option (Z -> QRgb)) (n dataIndexFactor : Z)
  (logarithmic : bool)
  : option (Z -> QRgb) * QCPColorGradient * list string :=
  match data, scanLine with
  | None, _ => (scanLine, g, ["null pointer given as data"%string])
  | Some _, None => (scanLine, g, ["null pointer given as scanLine"%string])
  | Some data, Some line =>
      let g := if mColorBufferInvalidated g then updateColorBuffer g else g in
      (Some
         (if negb logarithmic then
            let posToIndexFactor :=
              (double_of_int (mLevelCount g - 1) / size range)%float in
            if mPeriodic g then
              forLoop (Z.to_nat n) 0
                (fun i line =>
                   let index :=
                     Z.rem
                       (int_of_double
                          ((data (dataIndexFactor * i)%Z - lower range)
                           * posToIndexFactor)%float)
                       (mLevelCount g) in
                   let index := if index <? 0 then index + mLevelCount g else index in
                   storeColor (mColorBuffer g) line i index) line
            else
              forLoop (Z.to_nat n) 0
                (fun i line =>
                   let index :=
                     int_of_double
                       ((data (dataIndexFactor * i)%Z - lower range)
                        * posToIndexFactor)%float in
                   let index :=
                     if index <? 0 then 0
                     else if mLevelCount g <=? index then mLevelCount g - 1
                     else index in
                   storeColor (mColorBuffer g) line i index) line
          else
            if mPeriodic g then
              forLoop (Z.to_nat n) 0
                (fun i line =>
                   let index :=
                     Z.rem
                       (int_of_double
                          (qLn (data (dataIndexFactor * i)%Z / lower range)
                           / qLn (upper range / lower range)
                           * double_of_int (mLevelCount g - 1))%float)
                       (mLevelCount g) in
                   let index := if index <? 0 then index + mLevelCount g else index in
                   storeColor (mColorBuffer g) line i index) line
            else
              forLoop (Z.to_nat n) 0
                (fun i line =>
                   let index :=
                     int_of_double
                       (qLn (data (dataIndexFactor * i)%Z / lower range)
                        / qLn (upper range / lower range)
                        * double_of_int (mLevelCount g - 1))%float in
                   let index :=
                     if index <? 0 then 0
                     else if mLevelCount g <=? index then mLevelCount g - 1
                     else index in
                   storeColor (mColorBuffer g) line i index) line),
       g, [])
  end.

(** ** The indices, by name

    The index [color] computes before the wrap-around or the clamp, the two
    adjustments, the index it reads the buffer at, and the index the loops
    of [colorize] read the buffer at for a data value [d]. *)

Definition rawIndex (g : QCPColorGradient) (position : float) (range : QCPRange)
  (logarithmic : bool) : Z :=
  if negb logarithmic then
    int_of_double
      ((position - lower range) * double_of_int (mLevelCount g - 1) / size range)%float
  else
    int_of_double
      (qLn (position / lower range) / qLn (upper range / lower range)
       * double_of_int (mLevelCount g - 1))%float.

Definition wrapIndex (levelCount index : Z) : Z :=
  let index := Z.rem index levelCount in
  if index <? 0 then index + levelCount else index.

Definition clampIndex (levelCount index : Z) : Z :=
  if index <? 0 then 0
  else if levelCount <=? index then levelCount - 1
  else index.

Definition colorIndex (g : QCPColorGradient) (position : float) (range : QCPRange)
  (logarithmic : bool) : Z :=
  if mPeriodic g then wrapIndex (mLevelCount g) (rawIndex g position range logarithmic)
  else clampIndex (mLevelCount g) (rawIndex g position range logarithmic).

Definition colorizeIndex (g : QCPColorGradient) (d : float) (range : QCPRange)
  (logarithmic : bool) : Z :=
  let raw :=
    if negb logarithmic then
      int_of_double
        ((d - lower range) * (double_of_int (mLevelCount g - 1) / size range))%float
    else
      int_of_double
        (qLn (d / lower range) / qLn (upper range / lower range)
         * double_of_int (mLevelCount g - 1))%float in
  if mPeriodic g then wrapIndex (mLevelCount g) raw else clampIndex (mLevelCount g) raw.

(** ** The buffer as the specification words it

    The position of slot [i] is [i / (levelCount - 1)].  The lower-bound
    search is a walk over the stops in ascending order that remembers the
    stop before: past the last stop it gives the colour of the last stop,
    at or before the first stop the colour of the first stop, and between
    two stops the linear blend [(1 - t) * low + t * high] of each channel
    with [t = (position - low.position) / (high.position - low.position)].
    The channels are given before they are rounded to integers. *)

Definition specPosition (levelCount i : Z) : float :=
  (double_of_int i / double_of_int (levelCount - 1))%float.

Definition blend (t : float) (low high : Z) : float :=
  ((1 - t) * double_of_int low + t * double_of_int high)%float.

Definition channels (c : QColor) : float * float * float :=
  (double_of_int (red c), double_of_int (green c), double_of_int (blue c)).

Fixpoint specRgb (before : option (float * QColor)) (stops : QMap) (position : float)
  : float * float * float :=
  match stops with
  | [] => from_option (fun low => channels (snd low)) (channels Qt_black) before
  | high :: stops' =>
      if (fst high <? position)%float
      then specRgb (Some high) stops' position
      else match before with
           | None => channels (snd high)
           | Some low =>
               let t := ((position - fst low) / (fst high - fst low))%float in
               (blend t (red (snd low)) (red (snd high)),
                blend t (green (snd low)) (green (snd high)),
                blend t (blue (snd low)) (blue (snd high)))
           end
  end.

(** The invariant of the lazily rebuilt buffer: a buffer that is not marked
    invalid has [mLevelCount] entries. *)
Definition bufferSized (g : QCPColorGradient) : Prop :=
  mColorBufferInvalidated g = false ->
  length (mColorBuffer g) = Z.to_nat (mLevelCount g).

End WithQt.

(** *** Example gradients *)

(** The examples are in RGB mode with the linear mapping and reach neither
    the logarithm nor the HSV conversions; this environment closes their
    terms and nothing is read from it. *)
Definition unusedQt : QtMath :=
  {| qLn := fun x => x;
     hsvHueF := fun _ => 0%float;
     hsvSaturationF := fun _ => 0%float;
     hsvValueF := fun _ => 0%float;
     fromHsvF := fun _ _ _ => Qt_black |}.

(** Stops [{0 -> black, 1 -> white}], RGB mode, [n] levels. *)
Definition grayscale (n : Z) : QCPColorGradient :=
  fst (setLevelCount n (construct gpGrayscale)).

(** Black up to the stop at the double next below 1, white at 1: the
    grayscale stops and one more black stop, [n] levels. *)
Definition lateWhite (n : Z) : QCPColorGradient :=
  setColorStopAt 0x1.fffffffffffffp-1 Qt_black (grayscale n).

(** ** The public interface, call by call

    One call of a public member function on a gradient.  [color] and
    [colorize] are members that are not [const]: they rebuild the buffer. *)
Inductive GradientOp : Type :=
| opSetLevelCount (n : Z)
| opSetColorStops (colorStops : QMap)
| opSetColorStopAt (position : float) (color : QColor)
| opSetColorInterpolation (interpolation : ColorInterpolation)
| opSetPeriodic (enabled : bool)
| opClearColorStops
| opLoadPreset (preset : GradientPreset)
| opInverted
| opColor (position : float) (range : QCPRange) (logarithmic : bool)
| opColorize (data : option (Z -> float)) (range : QCPRange)
    (scanLine : option (Z -> QRgb)) (n dataIndexFactor : Z) (logarithmic : bool).

(** The gradient after the call ([inverted] returns it, the others leave
    it in the object). *)
Definition runGradientOp `{QtMath} (op : GradientOp) (g : QCPColorGradient)
  : QCPColorGradient :=
  match op with
  | opSetLevelCount n => fst (setLevelCount n g)
  | opSetColorStops colorStops => setColorStops colorStops g
  | opSetColorStopAt position c => setColorStopAt position c g
  | opSetColorInterpolation interpolation => setColorInterpolation interpolation g
  | opSetPeriodic enabled => setPeriodic enabled g
  | opClearColorStops => clearColorStops g
  | opLoadPreset preset => loadPreset preset g
  | opInverted => inverted g
  | opColor position range logarithmic => snd (color g position range logarithmic)
  | opColorize data range scanLine n dataIndexFactor logarithmic =>
      snd (fst (colorize g data range scanLine n dataIndexFactor logarithmic))
  end.

(** The stops mirrored: the stop at key [k] becomes the stop at key
    [1.0 - k], the last stop first. *)
Definition mirroredStops (stops : QMap) : QMap :=
  rev (map (fun '(key, value) => ((1.0 - key)%float, value)) stops).

(** The mirrored keys stay apart: each is below the mirrored key of the
    stop before. *)
Fixpoint mirrorsApart (stops : QMap) : bool :=
  match stops with
  | (key1, _) :: rest =>
      match rest with
      | (key2, _) :: _ => (1.0 - key2 <? 1.0 - key1)%float && mirrorsApart rest
      | [] => true
      end
  | [] => true
  end.

(** What every call keeps: at least two levels, and a buffer that is either
    marked invalid or has one entry per level. *)
Definition wellSized (g : QCPColorGradient) : Prop :=
  2 <= mLevelCount g /\ bufferSized g.

End Gradient.

Module Bars.

Open Scope float_scope.

(** ** Numbers

    A C++ [double] is a binary64 float.  [a < b] is [a <? b], [a > b] is
    [b <? a], [a >= b] is [b <=? a] and [a == b] is [a =? b]; each is
    false when an operand is NaN. *)

(** Qt's [qAbs]: [t >= 0 ? t : -t]. *)
Definition qAbs (t : float) : float := if 0 <=? t then t else - t.

(** ** Objects and pointers

    An object pointer ([QCPBars*], [QPointer<QCPBars>], [QCPBarsGroup*],
    [QPointer<QCPAxis>]) is [None] when null and [Some a] for the object at
    address [a]. *)

Definition addr : Type := nat.

Inductive WidthType : Type := wtAbsolute | wtAxisRectRatio | wtPlotCoords.
Inductive SpacingType : Type := stAbsolute | stAxisRectRatio | stPlotCoords.
Inductive Orientation : Type := Horizontal | Vertical.
Inductive SignDomain : Type := sdNegative | sdBoth | sdPositive.

Definition isVertical (o : Orientation) : bool :=
  match o with Vertical => true | Horizontal => false end.

(** The axis a bar chart is drawn against: what the code asks of a
    [QCPAxis] and of its axis rect (none when [axisRect()] is null).  The
    width and the height of an axis rect are of type [int]. *)
Record QCPAxisRect : Type := mkRect { width : Z; height : Z }.

Record QCPAxis : Type := mkAxis {
  orientation : Orientation;
  rangeReversed : bool;
  coordToPixel : float -> float;
  pixelToCoord : float -> float;
  axisRect : option QCPAxisRect
}.

Record QCPBarsData : Type := mkData { key : float; value : float }.

Record QCPBars : Type := mkBars {
  mKeyAxis : option addr;
  mValueAxis : option addr;
  mDataContainer : list QCPBarsData;
  mWidth : float;
  mWidthType : WidthType;
  mBarsGroup : option addr;
  mBaseValue : float;
  mBarBelow : option addr;
  mBarAbove : option addr
}.

Record QCPBarsGroup : Type := mkGroup {
  mSpacingType : SpacingType;
  mSpacing : float;
  mBars : list addr
}.

(** The plot: the live bars, groups and axes by address, and what has been
    written to [qDebug] so far. *)
Record Plot : Type := mkPlot {
  plotBars : gmap addr QCPBars;
  plotGroups : gmap addr QCPBarsGroup;
  plotAxes : gmap addr QCPAxis;
  debugOutput : list string
}.

Definition withBars (f : gmap addr QCPBars -> gmap addr QCPBars) (s : Plot) : Plot :=
  mkPlot (f (plotBars s)) (plotGroups s) (plotAxes s) (debugOutput s).

Definition withGroups (f : gmap addr QCPBarsGroup -> gmap addr QCPBarsGroup)
  (s : Plot) : Plot :=
  mkPlot (plotBars s) (f (plotGroups s)) (plotAxes s) (debugOutput s).

Definition qDebug (message : string) (s : Plot) : Plot :=
  mkPlot (plotBars s) (plotGroups s) (plotAxes s) (debugOutput s ++ [message]).

(** Field assignments. *)
Definition assignBarBelow (v : option addr) (b : QCPBars) : QCPBars :=
  mkBars (mKeyAxis b) (mValueAxis b) (mDataContainer b) (mWidth b) (mWidthType b)
    (mBarsGroup b) (mBaseValue b) v (mBarAbove b).

Definition assignBarAbove (v : option addr) (b : QCPBars) : QCPBars :=
  mkBars (mKeyAxis b) (mValueAxis b) (mDataContainer b) (mWidth b) (mWidthType b)
    (mBarsGroup b) (mBaseValue b) (mBarBelow b) v.

Definition assignBarsGroup (v : option addr) (b : QCPBars) : QCPBars :=
  mkBars (mKeyAxis b) (mValueAxis b) (mDataContainer b) (mWidth b) (mWidthType b)
    v (mBaseValue b) (mBarBelow b) (mBarAbove b).

Definition assignBars (l : list addr) (g : QCPBarsGroup) : QCPBarsGroup :=
  mkGroup (mSpacingType g) (mSpacing g) l.

(** Field reads through a pointer. *)
Definition barBelow (s : Plot) (a : addr) : option addr :=
  plotBars s !! a ≫= mBarBelow.
Definition barAbove (s : Plot) (a : addr) : option addr :=
  plotBars s !! a ≫= mBarAbove.
Definition barsGroup (s : Plot) (a : addr) : option addr :=
  plotBars s !! a ≫= mBarsGroup.
Definition keyAxis (s : Plot) (a : addr) : option addr :=
  plotBars s !! a ≫= mKeyAxis.
Definition valueAxis (s : Plot) (a : addr) : option addr :=
  plotBars s !! a ≫= mValueAxis.
Definition bars (s : Plot) (g : addr) : list addr :=
  from_option mBars [] (plotGroups s !! g).

(** ** [QList<QCPBars*>] *)

(** [QList::indexOf]; no index stands for the result [-1]. *)
Fixpoint indexOf (x : addr) (l : list addr) : option nat :=
  match l with
  | [] => None
  | y :: l' => if decide (y = x) then Some O else S <$> indexOf x l'
  end.

Definition contains (l : list addr) (x : addr) : bool :=
  bool_decide (is_Some (indexOf x l)).

(** [QList::removeOne]: the first occurrence goes. *)
Fixpoint removeOne (x : addr) (l : list addr) : list addr :=
  match l with
  | [] => []
  | y :: l' => if decide (y = x) then l' else y :: removeOne x l'
  end.

(** [QList::insert(i, x)], for [i] up to the length. *)
Definition insertAt (i : nat) (x : addr) (l : list addr) : list addr :=
  take i l ++ x :: drop i l.

(** [QList::move(from, to)]: the entry at [from] is taken out and put back
    at index [to]. *)
Definition move (from to : nat) (l : list addr) : list addr :=
  match l !! from with
  | Some x => insertAt to x (delete from l)
  | None => l
  end.

(** [qBound(min, val, max)] on [int]. *)
Definition qBound (min val max : Z) : Z := Z.max min (Z.min max val).

(** ** [QCPBarsGroup]: membership *)

Definition registerBars (this bars : addr) (s : Plot) : Plot :=
  withGroups
    (alter (fun g => if contains (mBars g) bars then g
                     else assignBars (mBars g ++ [bars]) g) this) s.

Definition unregisterBars (this bars : addr) (s : Plot) : Plot :=
  withGroups (alter (fun g => assignBars (removeOne bars (mBars g)) g) this) s.

(** [QCPBars::setBarsGroup] *)
Definition setBarsGroup (this : addr) (barsGroup : option addr) (s : Plot) : Plot :=
  let s := match Bars.barsGroup s this with
           | Some old => unregisterBars old this s
           | None => s
           end in
  let s := withBars (alter (assignBarsGroup barsGroup) this) s in
  match barsGroup with
  | Some new => registerBars new this s
  | None => s
  end.

(** [QCPBarsGroup::clear]: the loop runs over a copy of the member list. *)
Definition clear (this : addr) (s : Plot) : Plot :=
  foldl (fun s b => setBarsGroup b None s) s (bars s this).

Definition append (this : addr) (bars : option addr) (s : Plot) : Plot :=
  match bars with
  | None => qDebug "bars is 0" s
  | Some b =>
      if negb (contains (Bars.bars s this) b) then setBarsGroup b (Some this) s
      else qDebug "bars plottable is already in this bars group" s
  end.

Definition insert (this : addr) (i : Z) (bars : option addr) (s : Plot) : Plot :=
  match bars with
  | None => qDebug "bars is 0" s
  | Some b =>
      let s := if negb (contains (Bars.bars s this) b)
               then setBarsGroup b (Some this) s else s in
      match indexOf b (Bars.bars s this) with
      | Some from =>
          let to := qBound 0 i (Z.of_nat (length (Bars.bars s this)) - 1) in
          withGroups
            (alter (fun g => assignBars (move from (Z.to_nat to) (mBars g)) g) this) s
      | None => s
      end
  end.

Definition remove (this : addr) (bars : option addr) (s : Plot) : Plot :=
  match bars with
  | None => qDebug "bars is 0" s
  | Some b =>
      if contains (Bars.bars s this) b then setBarsGroup b None s
      else qDebug "bars plottable is not in this bars group" s
  end.

(** [~QCPBarsGroup]: [clear()], then the group object is gone. *)
Definition destroyGroup (this : addr) (s : Plot) : Plot :=
  withGroups (delete this) (clear this s).

(** ** [QCPBars]: stacking *)

Definition setBelow (a : addr) (v : option addr) (s : Plot) : Plot :=
  withBars (alter (assignBarBelow v) a) s.
Definition setAbove (a : addr) (v : option addr) (s : Plot) : Plot :=
  withBars (alter (assignBarAbove v) a) s.

(** "disconnect old bar above lower" *)
Definition disconnectAbove (lower : addr) (s : Plot) : Plot :=
  match barAbove s lower with
  | Some la => if decide (barBelow s la = Some lower) then setBelow la None s else s
  | None => s
  end.

(** "disconnect old bar below upper" *)
Definition disconnectBelow (upper : addr) (s : Plot) : Plot :=
  match barBelow s upper with
  | Some ub => if decide (barAbove s ub = Some upper) then setAbove ub None s else s
  | None => s
  end.

Definition connectBars (lower upper : option addr) (s : Plot) : Plot :=
  match lower, upper with
  | None, None => s
  | None, Some u => setBelow u None (disconnectBelow u s)
  | Some l, None => setAbove l None (disconnectAbove l s)
  | Some l, Some u =>
      let s := disconnectAbove l s in
      let s := disconnectBelow u s in
      let s := setAbove l (Some u) s in
      setBelow u (Some l) s
  end.

Definition axisMismatch : string :=
  "passed QCPBars* doesn't have same key and value axis as this QCPBars".

Definition sameAxes (s : Plot) (this b : addr) : bool :=
  bool_decide (keyAxis s b = keyAxis s this)
  && bool_decide (valueAxis s b = valueAxis s this).

Definition moveBelow (this : addr) (bars : option addr) (s : Plot) : Plot :=
  if decide (bars = Some this) then s
  else if from_option (fun b => negb (sameAxes s this b)) false bars
  then qDebug axisMismatch s
  else
    let s := connectBars (barBelow s this) (barAbove s this) s in
    match bars with
    | Some b =>
        let s := match barBelow s b with
                 | Some bb => connectBars (Some bb) (Some this) s
                 | None => s
                 end in
        connectBars (Some this) (Some b) s
    | None => s
    end.

Definition moveAbove (this : addr) (bars : option addr) (s : Plot) : Plot :=
  if decide (bars = Some this) then s
  else if from_option (fun b => negb (sameAxes s this b)) false bars
  then qDebug axisMismatch s
  else
    let s := connectBars (barBelow s this) (barAbove s this) s in
    match bars with
    | Some b =>
        let s := match barAbove s b with
                 | Some ba => connectBars (Some this) (Some ba) s
                 | None => s
                 end in
        connectBars (Some b) (Some this) s
    | None => s
    end.

(** A [QPointer] to a destroyed object reads as null. *)
Definition forget (a : addr) (p : option addr) : option addr :=
  if decide (p = Some a) then None else p.

(** [~QCPBars]: leave the group, leave the stack; then the object is gone
    and the [QPointer]s that tracked it are null. *)
Definition destroyBars (this : addr) (s : Plot) : Plot :=
  let s := setBarsGroup this None s in
  let s := if bool_decide (is_Some (barBelow s this))
              || bool_decide (is_Some (barAbove s this))
           then connectBars (barBelow s this) (barAbove s this) s
           else s in
  withBars
    (fun m =>
       (fun b => assignBarAbove (forget this (mBarAbove b))
                   (assignBarBelow (forget this (mBarBelow b)) b))
         <$> delete this m) s.

(** ** [QCPBars]: layout queries

    The queries are [const]; the lines they write to [qDebug] are left out.
    A query answers [None] when the C++ code would dereference a null
    pointer, index a list out of range, or when the fuel of a walk along
    the stack runs out (the C++ loop would not end). *)

(** [getPixelWidth(key, lower, upper)]: [lower] and [upper] are passed by
    reference and keep their values on the paths that do not assign them. *)
Definition getPixelWidth (s : Plot) (this : QCPBars) (key : float)
  (lu : float * float) : float * float :=
  let axis := mKeyAxis this ≫= (fun a => plotAxes s !! a) in
  let swapped (ax : QCPAxis) := xorb (rangeReversed ax) (isVertical (orientation ax)) in
  match mWidthType this with
  | wtAbsolute =>
      let upper := mWidth this * 0.5 in
      let lower := - upper in
      if from_option swapped false axis then (upper, lower) else (lower, upper)
  | wtAxisRectRatio =>
      match axis with
      | Some ax =>
          match axisRect ax with
          | Some rect =>
              let upper :=
                if isVertical (orientation ax)
                then Gradient.double_of_int (height rect) * mWidth this * 0.5
                else Gradient.double_of_int (width rect) * mWidth this * 0.5 in
              let lower := - upper in
              if swapped ax then (upper, lower) else (lower, upper)
          | None => lu
          end
      | None => lu
      end
  | wtPlotCoords =>
      match axis with
      | Some ax =>
          let keyPixel := coordToPixel ax key in
          let upper := coordToPixel ax (key + mWidth this * 0.5) - keyPixel in
          let lower := coordToPixel ax (key - mWidth this * 0.5) - keyPixel in
          (lower, upper)
      | None => lu
      end
  end.

(** [QCPBarsGroup::getPixelSpacing] *)
Definition getPixelSpacing (s : Plot) (this : QCPBarsGroup) (bars : QCPBars)
  (keyCoord : float) : option float :=
  match mSpacingType this with
  | stAbsolute => Some (mSpacing this)
  | stAxisRectRatio =>
      a ← mKeyAxis bars; ax ← plotAxes s !! a; rect ← axisRect ax;
      Some (if isVertical (orientation ax)
            then Gradient.double_of_int (height rect) * mSpacing this
            else Gradient.double_of_int (width rect) * mSpacing this)
  | stPlotCoords =>
      a ← mKeyAxis bars; ax ← plotAxes s !! a;
      let keyPixel := coordToPixel ax keyCoord in
      Some (coordToPixel ax (keyCoord + mSpacing this) - keyPixel)
  end.

(** [while (b->barBelow()) b = b->barBelow();] *)
Fixpoint stackRoot (fuel : nat) (s : Plot) (b : addr) : option addr :=
  match fuel with
  | O => None
  | S fuel' =>
      match barBelow s b with
      | Some below => stackRoot fuel' s below
      | None => Some b
      end
  end.

(** The first loop of [keyPixelOffset]: the base bars of the members, each
    once, in member order. *)
Fixpoint collectBaseBars (fuel : nat) (s : Plot) (members baseBars : list addr)
  : option (list addr) :=
  match members with
  | [] => Some baseBars
  | b :: members' =>
      root ← stackRoot fuel s b;
      collectBaseBars fuel s members'
        (if contains baseBars root then baseBars else baseBars ++ [root])
  end.

(** The walk from the centre to the left, on the triple (result,
    lowerPixelWidth, upperPixelWidth):
    [for (int i = startIndex; i > index; --i)], [count] passes. *)
Fixpoint betweenDown (s : Plot) (this : QCPBarsGroup) (baseBars : list addr)
  (keyCoord : float) (count i : nat) (st : float * (float * float))
  : option (float * (float * float)) :=
  match count with
  | O => Some st
  | S count' =>
      a ← baseBars !! i; bar ← plotBars s !! a;
      let lu := getPixelWidth s bar keyCoord (snd st) in
      let result := fst st - qAbs (snd lu - fst lu) in
      spacing ← getPixelSpacing s this bar keyCoord;
      let result := result - spacing in
      betweenDown s this baseBars keyCoord count' (i - 1) (result, lu)
  end.

(** The walk to the right: [for (int i = startIndex; i < index; ++i)]. *)
Fixpoint betweenUp (s : Plot) (this : QCPBarsGroup) (baseBars : list addr)
  (keyCoord : float) (count i : nat) (st : float * (float * float))
  : option (float * (float * float)) :=
  match count with
  | O => Some st
  | S count' =>
      a ← baseBars !! i; bar ← plotBars s !! a;
      let lu := getPixelWidth s bar keyCoord (snd st) in
      let result := fst st + qAbs (snd lu - fst lu) in
      spacing ← getPixelSpacing s this bar keyCoord;
      let result := result + spacing in
      betweenUp s this baseBars keyCoord count' (i + 1) (result, lu)
  end.

(** The branch "bar is to the left of center" of [keyPixelOffset]. *)
Definition leftOffset (s : Plot) (this : QCPBarsGroup) (baseBars : list addr)
  (keyCoord : float) (index : nat) : option float :=
  let n := length baseBars in
  let result := 0 in
  start ←
    (if (n mod 2 =? 0)%nat then
       let startIndex := (n / 2 - 1)%nat in
       a ← baseBars !! startIndex; bar ← plotBars s !! a;
       spacing ← getPixelSpacing s this bar keyCoord;
       Some (startIndex, (result - spacing * 0.5, (0, 0)))
     else
       let startIndex := ((n - 1) / 2 - 1)%nat in
       a ← baseBars !! ((n - 1) / 2)%nat; bar ← plotBars s !! a;
       let lu := getPixelWidth s bar keyCoord (0, 0) in
       let result := result - qAbs (snd lu - fst lu) * 0.5 in
       spacing ← getPixelSpacing s this bar keyCoord;
       Some (startIndex, (result - spacing, lu)));
  st ← betweenDown s this baseBars keyCoord (fst start - index) (fst start) (snd start);
  a ← baseBars !! index; bar ← plotBars s !! a;
  let lu := getPixelWidth s bar keyCoord (snd st) in
  Some (fst st - qAbs (snd lu - fst lu) * 0.5).

(** The branch "bar is to the right of center". *)
Definition rightOffset (s : Plot) (this : QCPBarsGroup) (baseBars : list addr)
  (keyCoord : float) (index : nat) : option float :=
  let n := length baseBars in
  let result := 0 in
  start ←
    (if (n mod 2 =? 0)%nat then
       let startIndex := (n / 2)%nat in
       a ← baseBars !! startIndex; bar ← plotBars s !! a;
       spacing ← getPixelSpacing s this bar keyCoord;
       Some (startIndex, (result + spacing * 0.5, (0, 0)))
     else
       let startIndex := ((n - 1) / 2 + 1)%nat in
       a ← baseBars !! ((n - 1) / 2)%nat; bar ← plotBars s !! a;
       let lu := getPixelWidth s bar keyCoord (0, 0) in
       let result := result + qAbs (snd lu - fst lu) * 0.5 in
       spacing ← getPixelSpacing s this bar keyCoord;
       Some (startIndex, (result + spacing, lu)));
  st ← betweenUp s this baseBars keyCoord (index - fst start) (fst start) (snd start);
  a ← baseBars !! index; bar ← plotBars s !! a;
  let lu := getPixelWidth s bar keyCoord (snd st) in
  Some (fst st + qAbs (snd lu - fst lu) * 0.5).

(** [QCPBarsGroup::keyPixelOffset] *)
Definition keyPixelOffset (fuel : nat) (s : Plot) (this bars : addr) (keyCoord : float)
  : option float :=
  group ← plotGroups s !! this;
  baseBars ← collectBaseBars fuel s (mBars group) [];
  thisBase ← stackRoot fuel s bars;
  match indexOf thisBase baseBars with
  | Some index =>
      let n := length baseBars in
      if (n mod 2 =? 1)%nat && (index =? (n - 1) / 2)%nat then Some 0
      else if Gradient.double_of_int (Z.of_nat index)
              <? Gradient.double_of_int (Z.of_nat n - 1) / 2.0
      then leftOffset s group baseBars keyCoord index
      else rightOffset s group baseBars keyCoord index
  | None => Some 0
  end.

(** ** The data container

    Modelled from the spec: [QCPBarsDataContainer] is declared outside the
    files at hand.  It keeps the points sorted by key, and its two range
    queries bound a run of the points that holds every point whose key lies
    between the two query keys: the run begins one point before the first
    point whose key is not below the lower query key and ends one point
    after the first point whose key is above the upper query key. *)

Fixpoint firstNotBelow (k : float) (d : list QCPBarsData) : nat :=
  match d with
  | [] => O
  | p :: d' => if key p <? k then S (firstNotBelow k d') else O
  end.

Fixpoint firstAbove (k : float) (d : list QCPBarsData) : nat :=
  match d with
  | [] => O
  | p :: d' => if k <? key p then O else S (firstAbove k d')
  end.

Definition findBeginBelowKey (d : list QCPBarsData) (sortKey : float) : nat :=
  (firstNotBelow sortKey d - 1)%nat.

Definition findEndAboveKey (d : list QCPBarsData) (sortKey : float) : nat :=
  Nat.min (S (firstAbove sortKey d)) (length d).

(** ** [QCPBars]: stacked values *)

(** The body of the loop of [getStackedBaseValue] over the points of the
    bar below: the running [max]. *)
Definition stackStep (key epsilon : float) (positive : bool) (max : float)
  (it : QCPBarsData) : float :=
  if (key - epsilon <? Bars.key it) && (Bars.key it <? key + epsilon)
  then
    if (positive && (max <? value it)) || (negb positive && (value it <? max))
    then value it else max
  else max.

(** [double epsilon = qAbs(key)*1e-6; if (key == 0) epsilon = 1e-6;] *)
Definition stackEpsilon (key : float) : float :=
  let epsilon := qAbs key * 1e-6 in
  if key =? 0 then 1e-6 else epsilon.

(** The loop [while (it != itEnd)] between the two range queries. *)
Definition stackMax (below : list QCPBarsData) (key : float) (positive : bool) : float :=
  let epsilon := stackEpsilon key in
  let it := findBeginBelowKey below (key - epsilon) in
  let itEnd := findEndAboveKey below (key + epsilon) in
  foldl (stackStep key epsilon positive) 0 (take (itEnd - it) (drop it below)).

(** [getStackedBaseValue]; [fuel] bounds the depth of the recursion. *)
Fixpoint getStackedBaseValue (fuel : nat) (s : Plot) (this : addr) (key : float)
  (positive : bool) : option float :=
  match fuel with
  | O => None
  | S fuel' =>
      bar ← plotBars s !! this;
      match mBarBelow bar with
      | Some b =>
          below ← plotBars s !! b;
          let max := stackMax (mDataContainer below) key positive in
          rest ← getStackedBaseValue fuel' s b key positive;
          Some (max + rest)
      | None => Some (mBaseValue bar)
      end
  end.

Record QCPRange : Type := mkRange { lower : float; upper : float }.

(** The test of the sign domain in the loop of [getValueRange]:
    [inSignDomain == sdBoth || (inSignDomain == sdNegative && current < 0)
    || (inSignDomain == sdPositive && current > 0)]. *)
Definition inDomain (inSignDomain : SignDomain) (current : float) : bool :=
  match inSignDomain with
  | sdBoth => true
  | sdNegative => current <? 0
  | sdPositive => 0 <? current
  end.

(** The body of the loop of [getValueRange], on (range, haveLower,
    haveUpper). *)
Definition valueRangeStep (inSignDomain : SignDomain) (current : float)
  (st : QCPRange * bool * bool) : QCPRange * bool * bool :=
  let '(range, haveLower, haveUpper) := st in
  if inDomain inSignDomain current
  then
    let '(range, haveLower) :=
      if (current <? lower range) || negb haveLower
      then (mkRange current (upper range), true) else (range, haveLower) in
    let '(range, haveUpper) :=
      if (upper range <? current) || negb haveUpper
      then (mkRange (lower range) current, true) else (range, haveUpper) in
    (range, haveLower, haveUpper)
  else st.

Fixpoint valueRangeLoop (fuel : nat) (s : Plot) (this : addr)
  (inSignDomain : SignDomain) (data : list QCPBarsData)
  (st : QCPRange * bool * bool) : option (QCPRange * bool * bool) :=
  match data with
  | [] => Some st
  | it :: data' =>
      base ← getStackedBaseValue fuel s this (key it) (0 <=? value it);
      valueRangeLoop fuel s this inSignDomain data'
        (valueRangeStep inSignDomain (value it + base) st)
  end.

(** [getValueRange]: the range and the flag [foundRange]. *)
Definition getValueRange (fuel : nat) (s : Plot) (this : addr)
  (inSignDomain : SignDomain) : option (QCPRange * bool) :=
  bar ← plotBars s !! this;
  st ← valueRangeLoop fuel s this inSignDomain (mDataContainer bar)
         (mkRange (mBaseValue bar) (mBaseValue bar), true, true);
  Some (fst (fst st), true).

(** ** The specification's side of the stacked base value *)

(** The tolerance of the key match: [|key| * 1e-6], or [1e-6] at key 0. *)
Definition keyTolerance (key : float) : float :=
  if key =? 0 then 1e-6 else abs key * 1e-6.

(** A point whose key lies strictly within the tolerance around [key]:
    above [key] less the tolerance and below [key] plus the tolerance. *)
Definition nearKey (key : float) (p : QCPBarsData) : bool :=
  (key - keyTolerance key <? Bars.key p) && (Bars.key p <? key + keyTolerance key).

(** A point whose value is on the requested side of zero. *)
Definition onSide (positive : bool) (p : QCPBarsData) : bool :=
  if positive then 0 <? value p else value p <? 0.

(** A running maximum is 0 or above 0, a running minimum is 0 or below. *)
Definition onOrAbove (x : float) : Prop := x = 0 \/ (0 <? x) = true.
Definition onOrBelow (x : float) : Prop := x = 0 \/ (x <? 0) = true.

(** The larger and the smaller of two doubles. *)
Definition larger (x y : float) : float := if x <? y then y else x.
Definition smaller (x y : float) : float := if y <? x then y else x.

(** What a series with the points [data] adds to the base of the series
    above it, where [near] tells the points at the key: among these points
    on the requested side, the largest value ([positive]) or the smallest
    (otherwise); 0 without such a point. *)
Definition contributionOf (near : QCPBarsData -> bool) (data : list QCPBarsData)
  (positive : bool) : float :=
  foldr (fun p acc => if positive then larger (value p) acc else smaller (value p) acc) 0
    (List.filter (onSide positive) (List.filter near data)).

Definition stackContribution (data : list QCPBarsData) (key : float) (positive : bool)
  : float :=
  contributionOf (nearKey key) data positive.

(** The tolerance read as a distance: the key of the point is away from
    [key] by less than the tolerance. *)
Definition withinTolerance (key : float) (p : QCPBarsData) : bool :=
  abs (Bars.key p - key) <? keyTolerance key.

(** ** Well-formed plots *)

Definition live (s : Plot) (a : addr) : Prop := is_Some (plotBars s !! a).
Definition liveGroup (s : Plot) (g : addr) : Prop := is_Some (plotGroups s !! g).

(** The two directions of the stacking links agree. *)
Definition linked (s : Plot) : Prop :=
  forall x y, barAbove s x = Some y <-> barBelow s y = Some x.

(** No chain of [barBelow] links comes back to where it started: the bars
    can be ranked so that every bar ranks above the bar below it. *)
Definition acyclic (s : Plot) : Prop :=
  exists rank : addr -> nat, forall x y, barBelow s x = Some y -> (rank y < rank x)%nat.

(** [splicedOut s a s']: from [s] to [s'] the bar [a] has left its stack.
    The bars that were below and above [a] are linked to each other (or end
    their stack where [a] was), [a] has no links left, and every other link
    is as it was. *)
Definition splicedOut (s : Plot) (a : addr) (s' : Plot) : Prop :=
  (forall x y, barBelow s a = Some x -> barAbove s a = Some y ->
     barAbove s' x = Some y /\ barBelow s' y = Some x)
  /\ (forall x, barBelow s a = Some x -> barAbove s a = None -> barAbove s' x = None)
  /\ (forall y, barAbove s a = Some y -> barBelow s a = None -> barBelow s' y = None)
  /\ (forall z, z <> a -> barBelow s z <> Some a -> barBelow s' z = barBelow s z)
  /\ (forall z, z <> a -> barAbove s z <> Some a -> barAbove s' z = barAbove s z)
  /\ barBelow s' a = None /\ barAbove s' a = None.

(** [stackHeight s a n]: the chain of [barBelow] links from [a] reaches a
    bar without a bar below after [n] links. *)
Inductive stackHeight (s : Plot) : addr -> nat -> Prop :=
| stackHeight_base a bar :
    plotBars s !! a = Some bar -> mBarBelow bar = None -> stackHeight s a O
| stackHeight_step a bar b n :
    plotBars s !! a = Some bar -> mBarBelow bar = Some b ->
    stackHeight s b n -> stackHeight s a (S n).

(** The data container keeps its points in ascending key order: no point
    has a key below the key of a point before it. *)
Fixpoint sortedByKey (d : list QCPBarsData) : Prop :=
  match d with
  | [] => True
  | p :: d' => Forall (fun q => (key q <? key p) = false) d' /\ sortedByKey d'
  end.

Definition sortedData (s : Plot) : Prop :=
  map_Forall (fun _ bar => sortedByKey (mDataContainer bar)) (plotBars s).

(** Membership is kept on both sides: a bar refers to a group exactly when
    the member list of that group holds the bar, no bar is in two groups,
    and no member list holds a bar twice. *)
Definition grouped (s : Plot) : Prop :=
  (forall b g, barsGroup s b = Some g <-> b ∈ bars s g)
  /\ (forall b g1 g2, b ∈ bars s g1 -> b ∈ bars s g2 -> g1 = g2)
  /\ (forall g, NoDup (bars s g)).

(** The public operations on group membership. *)
Inductive GroupOp : Type :=
| opAppend (group : addr) (bars : option addr)
| opInsert (group : addr) (i : Z) (bars : option addr)
| opRemove (group : addr) (bars : option addr)
| opClear (group : addr)
| opSetBarsGroup (bars : addr) (group : option addr)
| opDestroyGroup (group : addr).

Definition runGroupOp (op : GroupOp) (s : Plot) : Plot :=
  match op with
  | opAppend g b => append g b s
  | opInsert g i b => insert g i b s
  | opRemove g b => remove g b s
  | opClear g => clear g s
  | opSetBarsGroup b g => setBarsGroup b g s
  | opDestroyGroup g => destroyGroup g s
  end.

(** An operation is called on an object of the plot, and a pointer it is
    given is null or the address of an object of the plot. *)
Definition validGroupOp (s : Plot) (op : GroupOp) : Prop :=
  match op with
  | opAppend g b | opInsert g _ b | opRemove g b =>
      liveGroup s g /\ from_option (live s) True b
  | opClear g | opDestroyGroup g => liveGroup s g
  | opSetBarsGroup b g => live s b /\ from_option (liveGroup s) True g
  end.

(** The width in pixels that [keyPixelOffset] takes for the bars:
    [qAbs(upperPixelWidth-lowerPixelWidth)] after the call of
    [getPixelWidth], where [lu] is what the two output parameters hold
    before the call. *)
Definition pixelWidth (s : Plot) (bar : QCPBars) (keyCoord : float) (lu : float * float)
  : float :=
  let lu := getPixelWidth s bar keyCoord lu in
  qAbs (snd lu - fst lu).

(** Bar charts of equal width: the same width in the same width mode, and
    the same number of pixels wide at [keyCoord]. *)
Definition equalWidth (s : Plot) (keyCoord : float) (bar bar' : QCPBars) : Prop :=
  mWidth bar = mWidth bar' /\ mWidthType bar = mWidthType bar'
  /\ forall lu, pixelWidth s bar keyCoord lu = pixelWidth s bar' keyCoord lu.

(** The pointers that [getPixelSpacing] follows from the bars are not
    null. *)
Definition spacingAxis (s : Plot) (this : QCPBarsGroup) (bars : QCPBars) : Prop :=
  match mSpacingType this with
  | stAbsolute => True
  | stAxisRectRatio =>
      exists a ax rect,
        mKeyAxis bars = Some a /\ plotAxes s !! a = Some ax /\ axisRect ax = Some rect
  | stPlotCoords => exists a ax, mKeyAxis bars = Some a /\ plotAxes s !! a = Some ax
  end.

(** Two offsets of equal magnitude and opposite sign. *)
Definition opposite (x y : float) : bool := (abs x =? abs y) && (y =? - x).

(** [mirrored a b], on the binary64 specification of two doubles: [b] is
    the negative of [a], or both are a zero, of whatever sign. *)
Definition mirrored (a b : spec_float) : Prop :=
  b = SFopp a \/ (exists sa sb, a = S754_zero sa /\ b = S754_zero sb).

Definition mirror (x y : float) : Prop := mirrored (Prim2SF x) (Prim2SF y).

(** ** Further member functions *)

(** [QCPBarsGroup::bars(int index)]: the member at [index]; out of bounds
    the null pointer and a line on [qDebug]. *)
Definition barsAt (this : addr) (index : Z) (s : Plot) : option addr * Plot :=
  if (0 <=? index)%Z && (index <? Z.of_nat (length (bars s this)))%Z
  then (bars s this !! Z.to_nat index, s)
  else (None, qDebug "index out of bounds" s).

(** The constructors [QCPBarsGroup(parentPlot)] and
    [QCPBars(keyAxis, valueAxis)]: the new object, and the plot with the
    object at the address [this] the allocation gave. *)
Definition newGroup : QCPBarsGroup := mkGroup stAbsolute 4 [].

Definition newBars (keyAxis valueAxis : option addr) : QCPBars :=
  mkBars keyAxis valueAxis [] 0.75 wtPlotCoords None 0 None None.

Definition constructGroup (this : addr) (s : Plot) : Plot :=
  withGroups <[this := newGroup]> s.

Definition constructBars (this : addr) (keyAxis valueAxis : option addr) (s : Plot)
  : Plot :=
  withBars <[this := newBars keyAxis valueAxis]> s.

Definition setSpacingType (this : addr) (spacingType : SpacingType) (s : Plot) : Plot :=
  withGroups (alter (fun g => mkGroup spacingType (mSpacing g) (mBars g)) this) s.

Definition setSpacing (this : addr) (spacing : float) (s : Plot) : Plot :=
  withGroups (alter (fun g => mkGroup (mSpacingType g) spacing (mBars g)) this) s.

Definition setWidth (this : addr) (width : float) (s : Plot) : Plot :=
  withBars
    (alter (fun b =>
              mkBars (mKeyAxis b) (mValueAxis b) (mDataContainer b) width (mWidthType b)
                (mBarsGroup b) (mBaseValue b) (mBarBelow b) (mBarAbove b)) this) s.

Definition setWidthType (this : addr) (widthType : WidthType) (s : Plot) : Plot :=
  withBars
    (alter (fun b =>
              mkBars (mKeyAxis b) (mValueAxis b) (mDataContainer b) (mWidth b) widthType
                (mBarsGroup b) (mBaseValue b) (mBarBelow b) (mBarAbove b)) this) s.

Definition setBaseValue (this : addr) (baseValue : float) (s : Plot) : Plot :=
  withBars
    (alter (fun b =>
              mkBars (mKeyAxis b) (mValueAxis b) (mDataContainer b) (mWidth b)
                (mWidthType b) (mBarsGroup b) baseValue (mBarBelow b) (mBarAbove b))
       this) s.

(** [setData(QSharedPointer<QCPBarsDataContainer> data)]: the bars take the
    container given. *)
Definition setData (this : addr) (data : list QCPBarsData) (s : Plot) : Plot :=
  withBars
    (alter (fun b =>
              mkBars (mKeyAxis b) (mValueAxis b) data (mWidth b) (mWidthType b)
                (mBarsGroup b) (mBaseValue b) (mBarBelow b) (mBarAbove b)) this) s.




(** The coordinate of a point of a bar polygon along the key axis. *)
Definition keyPixelOf (keyOrientation : Orientation) (point : float * float) : float :=
  match keyOrientation with
  | Horizontal => fst point
  | Vertical => snd point
  end.

(** ** Plots that differ in stacking links only *)

(** The bars [b] with the two links given. *)
Definition relink (below above : option addr) (b : QCPBars) : QCPBars :=
  assignBarAbove above (assignBarBelow below b).

(** [sameButLinks s s']: from [s] to [s'] nothing but stacking links has
    changed.  The groups, the axes and the debug output are the same, the
    same bars are there, and each is what it was apart from its two
    links. *)
Definition sameButLinks (s s' : Plot) : Prop :=
  plotGroups s' = plotGroups s
  /\ plotAxes s' = plotAxes s
  /\ debugOutput s' = debugOutput s
  /\ forall z, plotBars s' !! z
               = relink (barBelow s' z) (barAbove s' z) <$> plotBars s !! z.

(** ** The plot through its public interface *)

(** One call of a constructor, a destructor or a public member function
    of [QCPBars] and [QCPBarsGroup]. *)
Inductive PlotOp : Type :=
| opConstructBars (this : addr) (keyAxis valueAxis : option addr)
| opDestroyBars (this : addr)
| opMoveAbove (this : addr) (bars : option addr)
| opMoveBelow (this : addr) (bars : option addr)
| opSetData (this : addr) (data : list QCPBarsData)
| opSetWidth (this : addr) (width : float)
| opSetWidthType (this : addr) (widthType : WidthType)
| opSetBaseValue (this : addr) (baseValue : float)
| opConstructGroup (this : addr)
| opSetSpacingType (this : addr) (spacingType : SpacingType)
| opSetSpacing (this : addr) (spacing : float)
| opGroup (op : GroupOp).

Definition runPlotOp (op : PlotOp) (s : Plot) : Plot :=
  match op with
  | opConstructBars this keyAxis valueAxis => constructBars this keyAxis valueAxis s
  | opDestroyBars this => destroyBars this s
  | opMoveAbove this bars => moveAbove this bars s
  | opMoveBelow this bars => moveBelow this bars s
  | opSetData this data => setData this data s
  | opSetWidth this width => setWidth this width s
  | opSetWidthType this widthType => setWidthType this widthType s
  | opSetBaseValue this baseValue => setBaseValue this baseValue s
  | opConstructGroup this => constructGroup this s
  | opSetSpacingType this spacingType => setSpacingType this spacingType s
  | opSetSpacing this spacing => setSpacing this spacing s
  | opGroup op => runGroupOp op s
  end.

(** A constructor runs at an address that holds no object; every other
    call is made on an object of the plot, and a pointer it is given is null
    or the address of an object of the plot. *)
Definition validPlotOp (s : Plot) (op : PlotOp) : Prop :=
  match op with
  | opConstructBars this _ _ => plotBars s !! this = None
  | opConstructGroup this => plotGroups s !! this = None
  | opDestroyBars this | opSetData this _ | opSetWidth this _
  | opSetWidthType this _ | opSetBaseValue this _ => live s this
  | opMoveAbove this bars | opMoveBelow this bars =>
      live s this /\ from_option (live s) True bars
  | opSetSpacingType this _ | opSetSpacing this _ => liveGroup s this
  | opGroup op => validGroupOp s op
  end.

(** The plots that calls of the interface build, starting without bars
    and groups. *)
Inductive reachable : Plot -> Prop :=
| reachable_empty axes : reachable (mkPlot ∅ ∅ axes [])
| reachable_step s op :
    reachable s -> validPlotOp s op -> reachable (runPlotOp op s).

(** ** Well-formedness, object by object

    The conditions above, stated for one object of the plot at a time; on a
    given plot they are decided by computation. *)

Definition linkedAt (s : Plot) (x : addr) (bar : QCPBars) : Prop :=
  (mBarAbove bar = None \/ mBarAbove bar ≫= barBelow s = Some x)
  /\ (mBarBelow bar = None \/ mBarBelow bar ≫= barAbove s = Some x).

Definition rankedAt (rank : addr -> nat) (x : addr) (bar : QCPBars) : Prop :=
  (default O (S ∘ rank <$> mBarBelow bar) <= rank x)%nat.

Definition groupedAt (s : Plot) (b : addr) (bar : QCPBars) : Prop :=
  b ∈ default [b] (bars s <$> mBarsGroup bar).

Definition membersAt (s : Plot) (g : addr) (group : QCPBarsGroup) : Prop :=
  Forall (fun b => barsGroup s b = Some g) (mBars group) /\ NoDup (mBars group).

#[global] Instance sortedByKey_dec (d : list QCPBarsData) : Decision (sortedByKey d).
Proof. induction d as [|p d IH]; simpl; apply _. Defined.

#[global] Instance sortedData_dec (s : Plot) : Decision (sortedData s).
Proof. unfold sortedData. apply _. Defined.

#[global] Instance linkedAt_dec (s : Plot) (x : addr) (bar : QCPBars) :
  Decision (linkedAt s x bar).
Proof. unfold linkedAt. apply _. Defined.

#[global] Instance rankedAt_dec (rank : addr -> nat) (x : addr) (bar : QCPBars) :
  Decision (rankedAt rank x bar).
Proof. unfold rankedAt. apply _. Defined.

#[global] Instance groupedAt_dec (s : Plot) (b : addr) (bar : QCPBars) :
  Decision (groupedAt s b bar).
Proof. unfold groupedAt. apply _. Defined.

#[global] Instance membersAt_dec (s : Plot) (g : addr) (group : QCPBarsGroup) :
  Decision (membersAt s g group).
Proof. unfold membersAt. apply _. Defined.

(** *** Example plots *)

(** A horizontal key axis, ten pixels to the unit, in an axis rect of the
    given size; a vertical value axis. *)
Definition keyAxisOf (w h : Z) : QCPAxis :=
  mkAxis Horizontal false (fun c => c * 10) (fun p => p / 10) (Some (mkRect w h)).

Definition valueAxisOf (w h : Z) : QCPAxis :=
  mkAxis Vertical false (fun c => - (c * 10)) (fun p => - (p / 10)) (Some (mkRect w h)).

Definition exampleAxes : gmap addr QCPAxis :=
  {[ 100%nat := keyAxisOf 100 50; 101%nat := valueAxisOf 100 50;
     102%nat := keyAxisOf 200 50 ]}.

(** A bar chart on value axis 101 with base value 0. *)
Definition barsOn (keyAxis : addr) (data : list QCPBarsData) (widthType : WidthType)
  (group below above : option addr) : QCPBars :=
  mkBars (Some keyAxis) (Some 101%nat) data 0.5 widthType group 0 below above.

(** Bars 2 stacked on bars 1; bars 3 and 5 on their own on the same axes;
    bars 4 on another key axis; an empty group 10. *)
Definition stackedPlot : Plot :=
  mkPlot
    {[ 1%nat := barsOn 100%nat [mkData 1 3] wtPlotCoords None None (Some 2%nat);
       2%nat := barsOn 100%nat [mkData 1 2] wtPlotCoords None (Some 1%nat) None;
       3%nat := barsOn 100%nat [] wtPlotCoords None None None;
       4%nat := barsOn 102%nat [] wtPlotCoords None None None;
       5%nat := barsOn 100%nat [mkData 1 5] wtPlotCoords None None None ]}
    {[ 10%nat := mkGroup stAbsolute 4 [] ]}
    exampleAxes [].

(** Three bar charts of equal width (half of the axis rect) in group 10,
    the third on key axis [axis3]. *)
Definition groupPlot (axis3 : addr) : Plot :=
  mkPlot
    {[ 1%nat := barsOn 100%nat [mkData 1 3] wtAxisRectRatio (Some 10%nat) None None;
       2%nat := barsOn 100%nat [mkData 1 2] wtAxisRectRatio (Some 10%nat) None None;
       3%nat := barsOn axis3 [mkData 1 5] wtAxisRectRatio (Some 10%nat) None None ]}
    {[ 10%nat := mkGroup stAbsolute 4 [1%nat; 2%nat; 3%nat] ]}
    exampleAxes [].

(** Bars 2 stacked on bars 1, and bars 1 in group 10, built call by
    call. *)
Definition builtPlot : Plot :=
  foldl (fun s op => runPlotOp op s) (mkPlot ∅ ∅ exampleAxes [])
    [opConstructBars 1%nat (Some 100%nat) (Some 101%nat);
     opConstructBars 2%nat (Some 100%nat) (Some 101%nat);
     opSetData 1%nat [mkData 1 3];
     opSetData 2%nat [mkData 1 2];
     opMoveAbove 2%nat (Some 1%nat);
     opConstructGroup 10%nat;
     opGroup (opAppend 10%nat (Some 1%nat))].

(** The three bar charts of [groupPlot] on key axis 100 and bars 4, put on
    bars 1 and into group 10 by calls. *)
Definition stackInGroupPlot : Plot :=
  foldl (fun s op => runPlotOp op s) (groupPlot 100%nat)
    [opConstructBars 4%nat (Some 100%nat) (Some 101%nat);
     opSetData 4%nat [mkData 1 4];
     opMoveAbove 4%nat (Some 1%nat);
     opGroup (opAppend 10%nat (Some 4%nat))].

End Bars.

(* ===================================================================== *)
(** * Part II: the order of the doubles                                  *)
(* ===================================================================== *)

Section DoubleOrder.
Open Scope float_scope.
Implicit Types (x y z : float).

(** The comparisons of C++ on [double], read off the comparison of the
    binary64 specification: every comparison with NaN is false, the two
    zeros compare equal, and the numbers are in one line from minus
    infinity to infinity. *)

Lemma compare_cont_Eq (m m' : positive) : Pos.compare_cont Eq m m' = (m ?= m')%positive.
Proof. reflexivity. Qed.

(** Splits the comparisons of the specification into their cases. *)
Ltac spec_order :=
  rewrite ?ltb_spec, ?leb_spec, ?FloatAxioms.eqb_spec in *;
  change (Prim2SF 0) with (S754_zero false) in *;
  unfold SFltb, SFleb, SFeqb, SFcompare in *;
  repeat match goal with
         | |- context [Prim2SF ?x] => destruct (Prim2SF x) as [[]|[]| |[] ? ?]
         | H : context [Prim2SF ?x] |- _ => destruct (Prim2SF x) as [[]|[]| |[] ? ?]
         end;
  try done;
  rewrite ?compare_cont_Eq in *;
  repeat match goal with
         | |- context [(?a ?= ?b)%Z] => destruct (Z.compare_spec a b)
         | H : context [(?a ?= ?b)%Z] |- _ => destruct (Z.compare_spec a b)
         | |- context [(?a ?= ?b)%positive] => destruct (Pos.compare_spec a b)
         | H : context [(?a ?= ?b)%positive] |- _ => destruct (Pos.compare_spec a b)
         end;
  simpl in *; try done; try lia.

Lemma ltb_irrefl x : (x <? x) = false.
Proof. spec_order. Qed.

Lemma ltb_asym x y : (x <? y) = true -> (y <? x) = false.
Proof. intros H. spec_order. Qed.

Lemma ltb_trans x y z : (x <? y) = true -> (y <? z) = true -> (x <? z) = true.
Proof. intros H1 H2. spec_order. Qed.

Lemma leb_trans x y z : (x <=? y) = true -> (y <=? z) = true -> (x <=? z) = true.
Proof. intros H1 H2. spec_order. Qed.

Lemma ltb_leb_trans x y z : (x <? y) = true -> (y <=? z) = true -> (x <? z) = true.
Proof. intros H1 H2. spec_order. Qed.

Lemma leb_ltb_trans x y z : (x <=? y) = true -> (y <? z) = true -> (x <? z) = true.
Proof. intros H1 H2. spec_order. Qed.

Lemma ltb_leb x y : (x <? y) = true -> (x <=? y) = true.
Proof. intros H. spec_order. Qed.

Lemma leb_not_ltb x y : (x <=? y) = true -> (y <? x) = false.
Proof. intros H. spec_order. Qed.

Lemma leb_refl x : (x =? x) = true -> (x <=? x) = true.
Proof. intros H. spec_order. Qed.

(** Two numbers are in order one way or the other. *)
Lemma leb_total x y :
  (x =? x) = true -> (y =? y) = true -> (x <? y) = false -> (y <=? x) = true.
Proof. intros H1 H2 H3. spec_order. Qed.

Lemma ltb_number x y : (x <? y) = true -> (x =? x) = true /\ (y =? y) = true.
Proof. intros H. split; spec_order. Qed.

Lemma leb_number x y : (x <=? y) = true -> (x =? x) = true /\ (y =? y) = true.
Proof. intros H. split; spec_order. Qed.

(** Numbers on one side of zero that are not in order are the same
    double. *)
Lemma ltb_positive_eq x y :
  (0 <? x) = true -> (0 <? y) = true -> (x <? y) = false -> (y <? x) = false -> x = y.
Proof.
  intros H1 H2 H3 H4. apply Prim2SF_inj. spec_order; subst; done.
Qed.

Lemma ltb_negative_eq x y :
  (x <? 0) = true -> (y <? 0) = true -> (x <? y) = false -> (y <? x) = false -> x = y.
Proof.
  intros H1 H2 H3 H4. apply Prim2SF_inj. spec_order; subst; done.
Qed.

(** [qAbs] is the absolute value, but for the sign it leaves to a
    negative zero. *)
Lemma qAbs_abs x : (x =? 0) = false -> Bars.qAbs x = abs x.
Proof.
  intros H. unfold Bars.qAbs. destruct (0 <=? x) eqn:E; apply Prim2SF_inj;
    rewrite ?abs_spec, ?opp_spec; spec_order.
Qed.

End DoubleOrder.

(** ** Sums that are the negatives of each other *)

Section Mirror.
Import Bars.

Lemma binary_round_opp prec emax s m e :
  binary_round prec emax (negb s) m e = SFopp (binary_round prec emax s m e).
Proof.
  unfold binary_round, binary_round_aux.
  destruct (shl_align _ _ _) as [mz ez].
  destruct (shr_fexp _ _ _ _ _) as [mrs' e'].
  destruct (shr_fexp _ _ _ _ _) as [mrs'' e''].
  destruct (shr_m mrs'') as [|m''|m'']; [done| |done].
  by destruct (_ <=? _)%Z.
Qed.

Lemma binary_normalize_opp prec emax z e :
  mirrored (binary_normalize prec emax z e false)
    (binary_normalize prec emax (- z) e false).
Proof.
  destruct z as [|m|m]; simpl.
  - right. eauto.
  - left. apply (binary_round_opp prec emax false).
  - left. change false with (negb true) at 1.
    rewrite binary_round_opp. by destruct (binary_round prec emax true m e) as [[]|[]| |[] ? ?].
Qed.

Lemma cond_Zopp_negb s z : cond_Zopp (negb s) z = (- cond_Zopp s z)%Z.
Proof. destruct s; simpl; lia. Qed.

(** From two values that are negatives of each other, taking a number
    from the one and adding it to the other gives negatives of each other
    again. *)
Lemma mirrored_sub_add prec emax a b c :
  mirrored a b -> mirrored (SFsub prec emax a c) (SFadd prec emax b c).
Proof.
  intros [->|(sa & sb & -> & ->)].
  - destruct a as [sa|sa| |sa ma ea], c as [sc|sc| |sc mc ec]; simpl;
      try (left; reflexivity); try (by destruct sa, sc; (left; reflexivity) || (right; eauto)).
    rewrite cond_Zopp_negb.
    replace (- cond_Zopp sa (Z.pos (fst (shl_align ma ea (Z.min ea ec))))
             + cond_Zopp sc (Z.pos (fst (shl_align mc ec (Z.min ea ec)))))%Z
      with (- (cond_Zopp sa (Z.pos (fst (shl_align ma ea (Z.min ea ec))))
               - cond_Zopp sc (Z.pos (fst (shl_align mc ec (Z.min ea ec))))))%Z by lia.
    apply binary_normalize_opp.
  - destruct c as [sc|sc| |sc mc ec]; simpl.
    + destruct sa, sb, sc; (left; reflexivity) || (right; eauto).
    + left. by destruct sc.
    + by left.
    + left. simpl. by rewrite negb_involutive.
Qed.

Lemma mirrored_zero prec emax a :
  mirrored (SFsub prec emax (S754_zero false) a) (SFadd prec emax (S754_zero false) a).
Proof.
  destruct a as [[]|[]| |[] ? ?]; simpl; (left; reflexivity) || (right; eauto).
Qed.

End Mirror.

Section Opposite.
Import Bars.
Open Scope float_scope.

Lemma mirror_zero a : mirror (0 - a) (0 + a).
Proof.
  unfold mirror. rewrite sub_spec, add_spec.
  change (Prim2SF 0) with (S754_zero false). apply mirrored_zero.
Qed.

Lemma mirror_sub_add x y z : mirror x y -> mirror (x - z) (y + z).
Proof.
  unfold mirror. rewrite sub_spec, add_spec. apply mirrored_sub_add.
Qed.

(** Negatives of each other that are numbers have equal magnitude and
    compare equal once the sign of one is turned. *)
Lemma mirror_opposite x y :
  mirror x y -> is_nan x = false \/ is_nan y = false ->
  opposite x y = true.
Proof.
  unfold mirror, opposite, is_nan. intros Hm Hn.
  rewrite !FloatAxioms.eqb_spec, !abs_spec, opp_spec.
  rewrite !FloatAxioms.eqb_spec in Hn.
  destruct Hm as [Hm|(sa & sb & -> & ->)]; [|done].
  rewrite Hm in *. clear Hm. unfold SFeqb, SFcompare in *.
  destruct (Prim2SF x) as [[]|[]| |[] m e]; simpl in *;
    rewrite ?Z.compare_refl, ?Pos.compare_cont_refl; try done.
  all: by destruct Hn.
Qed.

End Opposite.

(** ** Sums in either order *)

Lemma SFadd_comm prec emax a b : SFadd prec emax a b = SFadd prec emax b a.
Proof.
  destruct a as [[]|[]| |sa ma ea], b as [[]|[]| |sb mb eb]; try reflexivity.
  simpl. by rewrite (Z.min_comm eb ea), Z.add_comm.
Qed.

Lemma add_comm (x y : float) : (x + y = y + x)%float.
Proof. apply Prim2SF_inj. rewrite !add_spec. apply SFadd_comm. Qed.

(* ===================================================================== *)
(** * Part III: rounding keeps the order                                 *)
(* ===================================================================== *)

Section Rounding.
Open Scope Z_scope.
Variables prec emax : Z.
Hypothesis Hprec : 0 < prec.

(** ** Digits and shifts *)

Lemma digits2_pos_bounds (m : positive) :
  2 ^ (Z.pos (digits2_pos m) - 1) <= Z.pos m < 2 ^ Z.pos (digits2_pos m).
Proof.
  induction m as [m IH|m IH|]; cbn [digits2_pos]; [| |by vm_compute].
  all: rewrite Pos2Z.inj_succ;
    replace (Z.succ (Z.pos (digits2_pos m)) - 1) with (Z.succ (Z.pos (digits2_pos m) - 1))
      by lia;
    rewrite !Z.pow_succ_r by lia; lia.
Qed.

(** The number of digits is the one exponent that bounds the number. *)
Lemma digits_unique (m : positive) (d : Z) :
  2 ^ (d - 1) <= Z.pos m < 2 ^ d -> 0 < d -> Z.pos (digits2_pos m) = d.
Proof.
  intros [Hlo Hhi] Hd. destruct (digits2_pos_bounds m) as [Hlo' Hhi'].
  destruct (Z.lt_trichotomy (Z.pos (digits2_pos m)) d) as [Hlt|[Heq|Hgt]]; [|done|].
  - pose proof (Z.pow_le_mono_r 2 (Z.pos (digits2_pos m)) (d - 1) ltac:(lia) ltac:(lia)).
    lia.
  - pose proof (Z.pow_le_mono_r 2 d (Z.pos (digits2_pos m) - 1) ltac:(lia) ltac:(lia)).
    lia.
Qed.

Lemma iter_xO (m : positive) (k : positive) :
  Z.pos (Pos.iter xO m k) = Z.pos m * 2 ^ Z.pos k.
Proof.
  assert (forall n, Z.pos (Nat.iter n xO m) = Z.pos m * 2 ^ Z.of_nat n) as Hn.
  { induction n as [|n IH]; [simpl; lia|].
    rewrite Nat2Z.inj_succ, Z.pow_succ_r by lia. cbn [Nat.iter nat_rect].
    rewrite Pos2Z.inj_xO. unfold Nat.iter in IH. lia. }
  rewrite Pos2Nat.inj_iter, <- (positive_nat_Z k). apply Hn.
Qed.

(** [shl_align] brings a number to the lower of two exponents. *)
Lemma shl_align_spec (m : positive) (e e' : Z) :
  snd (shl_align m e e') = Z.min e e'
  /\ Z.pos (fst (shl_align m e e')) = Z.pos m * 2 ^ (e - Z.min e e').
Proof.
  unfold shl_align. destruct (e' - e) as [|d|d] eqn:Hd; simpl.
  - replace (Z.min e e') with e by lia. rewrite Z.sub_diag. lia.
  - replace (Z.min e e') with e by lia. rewrite Z.sub_diag. lia.
  - replace (Z.min e e') with e' by lia. split; [done|].
    rewrite iter_xO. f_equal. f_equal. lia.
Qed.

(** [iter_pos] runs its step as many times as its count says. *)
Lemma iter_pos_count {A} (f : A -> A) (P : Z -> A -> Prop) :
  (forall k x, 0 <= k -> P k x -> P (k + 1) (f x)) ->
  forall p k x, 0 <= k -> P k x -> P (k + Z.pos p) (SpecFloat.iter_pos f p x).
Proof.
  intros Hstep. induction p as [p IH|p IH|]; intros k x Hk Hx; cbn [SpecFloat.iter_pos].
  - replace (k + Z.pos p~1) with (k + 1 + Z.pos p + Z.pos p) by lia.
    apply IH; [lia|]. apply IH; [lia|]. by apply Hstep.
  - replace (k + Z.pos p~0) with (k + Z.pos p + Z.pos p) by lia.
    apply IH; [lia|]. by apply IH.
  - by apply Hstep.
Qed.

(** Shifting to the right divides, and reports nothing lost when nothing
    is lost. *)
Lemma shr_1_spec (mrs : shr_record) :
  0 <= shr_m mrs ->
  shr_m (shr_1 mrs) = shr_m mrs / 2
  /\ shr_r (shr_1 mrs) = Z.odd (shr_m mrs)
  /\ shr_s (shr_1 mrs) = shr_r mrs || shr_s mrs.
Proof.
  destruct mrs as [[|[m|m|]|m] r s]; simpl; intros Hm; try lia; split_and!; try done.
  - rewrite Pos2Z.inj_xI. apply (Z.div_unique _ _ _ 1); lia.
  - rewrite Pos2Z.inj_xO. apply (Z.div_unique _ _ _ 0); lia.
Qed.

Lemma shr_spec (m : Z) (p : positive) :
  0 <= m ->
  let mrs := SpecFloat.iter_pos shr_1 p (Build_shr_record m false false) in
  shr_m mrs = m / 2 ^ Z.pos p
  /\ (m mod 2 ^ Z.pos p = 0 -> shr_r mrs = false /\ shr_s mrs = false).
Proof.
  intros Hm.
  pose proof (iter_pos_count shr_1
                (fun k mrs => shr_m mrs = m / 2 ^ k
                              /\ (m mod 2 ^ k = 0 -> shr_r mrs = false /\ shr_s mrs = false)))
    as Hcount.
  cbv beta in Hcount. apply (Hcount) with (k := 0) (p := p) (x := Build_shr_record m false false); [|lia|].
  - intros k mrs Hk [Hdiv Hexact].
    assert (0 <= shr_m mrs) as Hnn by (rewrite Hdiv; apply Z.div_pos; lia).
    destruct (shr_1_spec mrs Hnn) as (Hm' & Hr' & Hs').
    assert (0 < 2 ^ k) as Hpow by (apply Z.pow_pos_nonneg; lia).
    rewrite Hm', Hr', Hs', Hdiv, Z.pow_add_r, Z.pow_1_r by lia.
    split; [by rewrite Z.div_div by lia|].
    intros Hmod.
    assert (m mod 2 ^ k = 0) as Hmodk.
    { apply Z.mod_divide in Hmod; [|lia]. apply Z.mod_divide; [lia|].
      destruct Hmod as [c Hc]. exists (c * 2). lia. }
    destruct (Hexact Hmodk) as [-> ->]. split; [|done].
    apply Z.mod_divide in Hmod; [|lia]. destruct Hmod as [c Hc].
    rewrite Hc. replace (c * (2 ^ k * 2)) with (c * 2 * 2 ^ k) by lia.
    rewrite Z.div_mul by lia. rewrite Z.odd_mul. simpl. by rewrite andb_false_r.
  - simpl. rewrite Z.div_1_r. done.
Qed.

Lemma pow2_pos (k : Z) : 0 <= k -> 0 < 2 ^ k.
Proof. intros. apply Z.pow_pos_nonneg; lia. Qed.

Lemma pow2_split (a b : Z) : 0 <= a -> 0 <= b -> 2 ^ (a + b) = 2 ^ a * 2 ^ b.
Proof. intros. by apply Z.pow_add_r. Qed.

(** ** One shift to the exponent of the format *)

Lemma shr_fexp_spec (m : positive) (e : Z) :
  let E := SpecFloat.fexp prec emax (Z.pos (digits2_pos m) + e) in
  e <= E ->
  exists mrs,
    shr_fexp prec emax (Z.pos m) e loc_Exact = (mrs, E)
    /\ shr_m mrs = Z.pos m / 2 ^ (E - e)
    /\ (Z.pos m mod 2 ^ (E - e) = 0 -> loc_of_shr_record mrs = loc_Exact).
Proof.
  intros E HE. unfold shr_fexp, shr. cbn [Zdigits2 shr_record_of_loc]. fold E.
  destruct (E - e) as [|n|n] eqn:Hn; [| |lia].
  - eexists. split_and!; [f_equal; lia|simpl; by rewrite Z.div_1_r|done].
  - destruct (shr_spec (Z.pos m) n ltac:(lia)) as [Hdiv Hexact].
    eexists. split_and!; [f_equal; lia|exact Hdiv|].
    intros Hmod. destruct (Hexact Hmod) as [Hr Hs].
    destruct (SpecFloat.iter_pos _ _ _) as [? r s]. simpl in Hr, Hs. by subst.
Qed.

Lemma shr_fexp_keeps (m : positive) (e : Z) :
  SpecFloat.fexp prec emax (Z.pos (digits2_pos m) + e) <= e ->
  shr_fexp prec emax (Z.pos m) e loc_Exact = (Build_shr_record (Z.pos m) false false, e).
Proof.
  intros HE. unfold shr_fexp, shr. cbn [Zdigits2 shr_record_of_loc].
  destruct (_ - e) as [|n|n] eqn:Hn; [done|lia|done].
Qed.

Lemma round_nearest_even_bounds (m : Z) (l : location) :
  m <= round_nearest_even m l <= m + 1
  /\ (l = loc_Exact -> round_nearest_even m l = m).
Proof.
  split; [|by intros ->].
  destruct l as [|[]]; simpl; try lia. destruct (Z.even m); lia.
Qed.

(** ** What [binary_round] returns

    [binary_round] of the number [S * 2^ez] returns a number on the grid of
    step [G = 2^E], where [E] is the exponent of the format for numbers of
    this size: the multiple of [G] below [S * 2^ez] or the next one, and
    [S * 2^ez] itself when it is on the grid.  The numbers are counted in
    units of [2^emin]. *)
Lemma binary_round_spec (s : bool) (S : positive) (ez : Z) :
  SpecFloat.emin prec emax <= ez ->
  let d := Z.pos (digits2_pos S) + ez in
  let E := SpecFloat.fexp prec emax d in
  let V := Z.pos S * 2 ^ (ez - SpecFloat.emin prec emax) in
  let G := 2 ^ (E - SpecFloat.emin prec emax) in
  2 ^ (d - 1 - SpecFloat.emin prec emax) <= V < 2 ^ (d - SpecFloat.emin prec emax)
  /\ exists (m1 : Z) (m2 : positive) (e2 : Z),
       V / G <= m1 <= V / G + 1
       /\ (V mod G = 0 -> m1 = V / G)
       /\ Z.pos m2 * 2 ^ (e2 - SpecFloat.emin prec emax) = m1 * G
       /\ (e2 = E
           \/ (e2 = E + 1 /\ m1 * G = 2 ^ (d - SpecFloat.emin prec emax) /\ E = d - prec))
       /\ binary_round prec emax s S ez
          = if e2 <=? emax - prec then S754_finite s m2 e2 else S754_infinity s.
Proof.
  intros Hez d E V G.
  set (em := SpecFloat.emin prec emax) in *.
  destruct (digits2_pos_bounds S) as [HSlo HShi].
  set (dS := Z.pos (digits2_pos S)) in *.
  assert (0 < dS) as HdS by (subst dS; lia).
  assert (em <= E) as HEmin by (subst E; unfold SpecFloat.fexp; fold em; lia).
  assert (E <= d - 1) as HEd by (subst E d; unfold SpecFloat.fexp; fold em; lia).
  assert (d - prec <= E) as HEprec by (subst E; unfold SpecFloat.fexp; lia).
  (* the bounds of V *)
  assert (2 ^ (d - 1 - em) <= V < 2 ^ (d - em)) as HV.
  { subst V d.
    replace (dS + ez - 1 - em) with ((dS - 1) + (ez - em)) by lia.
    replace (dS + ez - em) with (dS + (ez - em)) by lia.
    rewrite !pow2_split by lia.
    pose proof (pow2_pos (ez - em) ltac:(lia)). nia. }
  split; [exact HV|].
  (* the alignment *)
  unfold binary_round.
  destruct (shl_align_spec S ez (SpecFloat.fexp prec emax (Z.pos (digits2_pos S) + ez)))
    as [Halign_e Halign_m].
  fold dS d E in Halign_e, Halign_m. fold dS d E.
  destruct (shl_align S ez E) as [mz ez']. cbn [fst snd] in Halign_e, Halign_m.
  assert (ez' <= E /\ ez' <= ez /\ em <= ez') as (HezE & Hezez & Hezmin) by lia.
  rewrite <- Halign_e in Halign_m.
  assert (Z.pos (digits2_pos mz) + ez' = d) as Hdmz.
  { assert (Z.pos (digits2_pos mz) = dS + (ez - ez')) as ->; [|subst d; lia].
    apply digits_unique; [|lia]. rewrite Halign_m.
    replace (dS + (ez - ez') - 1) with ((dS - 1) + (ez - ez')) by lia.
    rewrite !pow2_split by lia.
    pose proof (pow2_pos (ez - ez') ltac:(lia)). nia. }
  assert (V = Z.pos mz * 2 ^ (ez' - em)) as HVmz.
  { subst V. rewrite Halign_m, <- Z.mul_assoc, <- pow2_split by lia.
    f_equal. f_equal. lia. }
  assert (G = 2 ^ (E - ez') * 2 ^ (ez' - em)) as HG.
  { subst G. rewrite <- pow2_split by lia. f_equal. lia. }
  pose proof (pow2_pos (ez' - em) ltac:(lia)) as Hunit.
  pose proof (pow2_pos (E - ez') ltac:(lia)) as Hstep.
  assert (V / G = Z.pos mz / 2 ^ (E - ez')) as Hquot.
  { rewrite HVmz, HG. apply Z.div_mul_cancel_r; lia. }
  assert (V mod G = 0 -> Z.pos mz mod 2 ^ (E - ez') = 0) as Hexact.
  { rewrite HVmz, HG, Z.mul_mod_distr_r by lia. nia. }
  (* the first shift *)
  unfold binary_round_aux.
  destruct (shr_fexp_spec mz ez') as (mrs1 & -> & Hm1 & Hloc1);
    [rewrite Hdmz; exact HezE|].
  rewrite Hdmz in Hm1, Hloc1 |- *. fold E in Hm1, Hloc1 |- *.
  set (q := V / G) in *. rewrite <- Hquot in Hm1.
  destruct (round_nearest_even_bounds (shr_m mrs1) (loc_of_shr_record mrs1))
    as [Hround Hround_exact].
  set (m1 := round_nearest_even (shr_m mrs1) (loc_of_shr_record mrs1)) in *.
  rewrite Hm1 in Hround, Hround_exact.
  (* the size of the quotient *)
  assert (2 ^ (d - E - 1) <= q < 2 ^ (d - E)) as Hq.
  { subst q. split.
    - apply Z.div_le_lower_bound; [subst G; apply pow2_pos; lia|].
      subst G. rewrite <- pow2_split by lia.
      replace (E - em + (d - E - 1)) with (d - 1 - em) by lia. lia.
    - apply Z.div_lt_upper_bound; [subst G; apply pow2_pos; lia|].
      subst G. rewrite <- pow2_split by lia.
      replace (E - em + (d - E)) with (d - em) by lia. lia. }
  pose proof (pow2_pos (d - E - 1) ltac:(lia)) as Hqpos.
  destruct m1 as [|pm1|pm1] eqn:Hpm1; [lia| |lia].
  destruct (digits2_pos_bounds pm1) as [Hm1lo Hm1hi].
  assert (pow2_succ : 2 ^ (d - E) = 2 * 2 ^ (d - E - 1)).
  { replace (d - E) with (Z.succ (d - E - 1)) at 1 by lia. apply Z.pow_succ_r. lia. }
  exists (Z.pos pm1).
  destruct (Z.eq_dec (Z.pos pm1) (2 ^ (d - E))) as [Htop|Hbelow].
  - (* the quotient has been rounded up to the next power of two *)
    assert (Z.pos (digits2_pos pm1) = d - E + 1) as Hdm1.
    { apply digits_unique; [|lia]. rewrite Htop.
      replace (d - E + 1 - 1) with (d - E) by lia.
      replace (d - E + 1) with (Z.succ (d - E)) by lia.
      rewrite Z.pow_succ_r by lia. lia. }
    destruct (Z_le_gt_dec em (d - prec)) as [Hnormal|Hsub].
    + (* one more shift *)
      assert (E = d - prec) as HEeq by (subst E; unfold SpecFloat.fexp; fold em; lia).
      assert (SpecFloat.fexp prec emax (Z.pos (digits2_pos pm1) + E) = E + 1) as Hfexp2
        by (rewrite Hdm1; unfold SpecFloat.fexp; fold em; lia).
      destruct (shr_fexp_spec pm1 E) as (mrs2 & -> & Hm2 & _);
        [rewrite Hfexp2; lia|].
      rewrite Hfexp2 in Hm2 |- *.
      replace (E + 1 - E) with 1 in Hm2 by lia. rewrite Z.pow_1_r in Hm2.
      assert (shr_m mrs2 = 2 ^ (d - E - 1)) as Hm2'.
      { rewrite Hm2, Htop, pow2_succ, Z.mul_comm. apply Z.div_mul. lia. }
      rewrite Hm2'. destruct (2 ^ (d - E - 1)) as [|m2|m2] eqn:Hpow; [lia| |lia].
      exists m2, (E + 1). refine (conj _ (conj _ (conj _ (conj _ _)))); [lia|auto| |right|done].
      * rewrite <- Hpow, Htop. subst G. rewrite <- !pow2_split by lia.
        f_equal. lia.
      * split_and!; [done| |done]. rewrite Htop. subst G. rewrite <- pow2_split by lia.
        f_equal. lia.
    + assert (E = em) as HEeq by (subst E; unfold SpecFloat.fexp; fold em; lia).
      rewrite shr_fexp_keeps by (rewrite Hdm1; unfold SpecFloat.fexp; fold em; lia).
      cbn [shr_m]. exists pm1, E.
      refine (conj _ (conj _ (conj _ (conj _ _)))); [lia|auto|done|by left|done].
  - (* no further shift *)
    assert (Z.pos (digits2_pos pm1) <= d - E) as Hdm1.
    { destruct (Z_le_gt_dec (Z.pos (digits2_pos pm1)) (d - E)) as [|Hgt]; [done|].
      pose proof (Z.pow_le_mono_r 2 (d - E) (Z.pos (digits2_pos pm1) - 1)
                    ltac:(lia) ltac:(lia)). lia. }
    rewrite shr_fexp_keeps by (unfold SpecFloat.fexp; fold em; lia).
    cbn [shr_m]. exists pm1, E.
    refine (conj _ (conj _ (conj _ (conj _ _)))); [lia|auto|done|by left|done].
Qed.

Lemma fexp_cases (d : Z) :
  (SpecFloat.fexp prec emax d = d - prec /\ SpecFloat.emin prec emax <= d - prec)
  \/ (SpecFloat.fexp prec emax d = SpecFloat.emin prec emax
      /\ d - prec < SpecFloat.emin prec emax).
Proof. unfold SpecFloat.fexp. lia. Qed.

(** ** The order of the numbers of the format *)

(** A number of the format, in units of [2^emin]. *)
Lemma bounded_canonical (m : positive) (e : Z) :
  bounded prec emax m e = true ->
  SpecFloat.emin prec emax <= e <= emax - prec
  /\ Z.pos (digits2_pos m) <= prec
  /\ (SpecFloat.emin prec emax < e -> Z.pos (digits2_pos m) = prec)
  /\ SpecFloat.fexp prec emax (Z.pos (digits2_pos m) + e) = e.
Proof.
  unfold bounded, canonical_mantissa, SpecFloat.fexp.
  intros [Hc Hb]%andb_prop. apply Z.eqb_eq in Hc. apply Z.leb_le in Hb. lia.
Qed.

Lemma scaled_bounds (m : positive) (e : Z) :
  SpecFloat.emin prec emax <= e ->
  2 ^ (Z.pos (digits2_pos m) + e - 1 - SpecFloat.emin prec emax)
  <= Z.pos m * 2 ^ (e - SpecFloat.emin prec emax)
  < 2 ^ (Z.pos (digits2_pos m) + e - SpecFloat.emin prec emax).
Proof.
  intros He. destruct (digits2_pos_bounds m) as [Hlo Hhi].
  set (em := SpecFloat.emin prec emax) in *. set (dm := Z.pos (digits2_pos m)) in *.
  assert (0 < dm) by (subst dm; lia).
  replace (dm + e - 1 - em) with ((dm - 1) + (e - em)) by lia.
  replace (dm + e - em) with (dm + (e - em)) by lia.
  rewrite !pow2_split by lia.
  pose proof (pow2_pos (e - em) ltac:(lia)). nia.
Qed.

(** Numbers of the format compare as their exponents and mantissas do. *)
Lemma compare_canonical (m1 m2 : positive) (e1 e2 : Z) :
  bounded prec emax m1 e1 = true -> bounded prec emax m2 e2 = true ->
  match e1 ?= e2 with
  | Lt => Lt
  | Gt => Gt
  | Eq => Pos.compare_cont Eq m1 m2
  end
  = (Z.pos m1 * 2 ^ (e1 - SpecFloat.emin prec emax)
     ?= Z.pos m2 * 2 ^ (e2 - SpecFloat.emin prec emax)).
Proof.
  intros (He1 & Hd1 & Hn1 & _)%bounded_canonical (He2 & Hd2 & Hn2 & _)%bounded_canonical.
  set (em := SpecFloat.emin prec emax) in *.
  destruct (digits2_pos_bounds m1) as [Hlo1 Hhi1].
  destruct (digits2_pos_bounds m2) as [Hlo2 Hhi2].
  assert (forall (a b : positive) (ea eb : Z),
             em <= ea -> ea < eb -> Z.pos (digits2_pos a) <= prec ->
             Z.pos (digits2_pos b) = prec ->
             Z.pos a * 2 ^ (ea - em) < Z.pos b * 2 ^ (eb - em)) as Hless.
  { intros a b ea eb Hea Hlt Hda Hdb.
    destruct (digits2_pos_bounds a) as [_ Hhia]. destruct (digits2_pos_bounds b) as [Hlob _].
    rewrite Hdb in Hlob.
    pose proof (Z.pow_le_mono_r 2 (Z.pos (digits2_pos a)) prec ltac:(lia) ltac:(lia)).
    replace (eb - em) with ((eb - ea - 1) + (1 + (ea - em))) by lia.
    rewrite (pow2_split (eb - ea - 1)), (pow2_split 1) by lia.
    replace prec with (Z.succ (prec - 1)) in H by lia. rewrite Z.pow_succ_r in H by lia.
    pose proof (pow2_pos (eb - ea - 1) ltac:(lia)) as Hw.
    pose proof (pow2_pos (ea - em) ltac:(lia)) as Hu.
    change (2 ^ 1) with 2.
    set (u := 2 ^ (ea - em)) in *. set (w := 2 ^ (eb - ea - 1)) in *.
    assert (Z.pos a * u < Z.pos b * (2 * u)) as Hstep by nia.
    assert (Z.pos b * (2 * u) <= Z.pos b * (w * (2 * u))) as Hgrow
      by (apply Z.mul_le_mono_nonneg_l; [lia|nia]).
    lia. }
  destruct (Z.compare_spec e1 e2) as [->|Hlt|Hgt].
  - pose proof (pow2_pos (e2 - em) ltac:(lia)) as Hu.
    change (Pos.compare_cont Eq m1 m2) with (m1 ?= m2)%positive.
    destruct (Pos.compare_spec m1 m2) as [->|Hlt|Hgt]; symmetry;
      [apply Z.compare_eq_iff|apply Z.compare_lt_iff|apply Z.compare_gt_iff]; nia.
  - symmetry. apply Z.compare_lt_iff. apply Hless; [lia|done|done|apply Hn2; lia].
  - symmetry. apply Z.compare_gt_iff. apply Hless; [lia|done|done|apply Hn1; lia].
Qed.

(** ** Rounding from above and from below a number of the format *)

Lemma round_above (s : bool) (S my : positive) (ez ey : Z) :
  SpecFloat.emin prec emax <= ez ->
  bounded prec emax my ey = true ->
  Z.pos my * 2 ^ (ey - SpecFloat.emin prec emax)
  <= Z.pos S * 2 ^ (ez - SpecFloat.emin prec emax) ->
  binary_round prec emax s S ez = S754_infinity s
  \/ exists m2 e2,
       binary_round prec emax s S ez = S754_finite s m2 e2
       /\ SpecFloat.emin prec emax <= e2
       /\ Z.pos my * 2 ^ (ey - SpecFloat.emin prec emax)
          <= Z.pos m2 * 2 ^ (e2 - SpecFloat.emin prec emax).
Proof.
  intros Hez Hy HYV.
  destruct (binary_round_spec s S ez Hez) as (HV & m1 & m2 & e2 & Hm1 & _ & Hval & He2 & ->).
  destruct (e2 <=? emax - prec); [right|by left].
  exists m2, e2. split; [done|].
  apply bounded_canonical in Hy as (Hey & Hdy & Hny & Hfy).
  pose proof (scaled_bounds my ey ltac:(lia)) as HY.
  set (em := SpecFloat.emin prec emax) in *.
  set (d := Z.pos (digits2_pos S) + ez) in *.
  set (dy := Z.pos (digits2_pos my) + ey) in *.
  set (E := SpecFloat.fexp prec emax d) in *.
  set (V := Z.pos S * 2 ^ (ez - em)) in *.
  set (Y := Z.pos my * 2 ^ (ey - em)) in *.
  assert (0 < Z.pos (digits2_pos S)) as HdS by lia.
  pose proof (fexp_cases d) as Hfd. pose proof (fexp_cases dy) as Hfdy.
  fold em E in Hfd, Hfdy. rewrite Hfy in Hfdy.
  assert (em <= E /\ d - prec <= E /\ E <= d - 1) as (HEmin & HEprec & HEd)
    by (subst d; lia).
  split; [destruct He2 as [->|(-> & _)]; lia|].
  rewrite Hval.
  assert (dy <= d) as Hdyd.
  { destruct (Z_le_gt_dec dy d) as [|Hgt]; [done|].
    pose proof (Z.pow_le_mono_r 2 (d - em) (dy - 1 - em) ltac:(lia) ltac:(lia)). lia. }
  assert (ey <= E) as HeyE by lia.
  pose proof (pow2_pos (E - em) ltac:(lia)) as HG.
  destruct (Z.eq_dec ey E) as [Heq|Hne].
  - assert (Z.pos my <= V / 2 ^ (E - em)) as Hq
      by (apply Z.div_le_lower_bound; [done|subst Y; rewrite Heq in HYV; lia]).
    subst Y. rewrite Heq. nia.
  - assert (E = d - prec) as HEeq by lia.
    assert (dy <= d - 1) as Hdy' by lia.
    assert (2 ^ (d - E - 1) <= V / 2 ^ (E - em)) as Hq.
    { apply Z.div_le_lower_bound; [done|].
      rewrite <- pow2_split by lia.
      replace (E - em + (d - E - 1)) with (d - 1 - em) by lia. lia. }
    pose proof (Z.pow_le_mono_r 2 (dy - em) (d - 1 - em) ltac:(lia) ltac:(lia)) as Hmono.
    pose proof (pow2_pos (d - E - 1) ltac:(lia)).
    assert (2 ^ (d - 1 - em) = 2 ^ (d - E - 1) * 2 ^ (E - em)) as Hsplit.
    { rewrite <- pow2_split by lia. f_equal. lia. }
    nia.
Qed.

Lemma round_below (s : bool) (S my : positive) (ez ey : Z) :
  SpecFloat.emin prec emax <= ez ->
  bounded prec emax my ey = true ->
  Z.pos S * 2 ^ (ez - SpecFloat.emin prec emax)
  <= Z.pos my * 2 ^ (ey - SpecFloat.emin prec emax) ->
  exists m2 e2,
    binary_round prec emax s S ez = S754_finite s m2 e2
    /\ SpecFloat.emin prec emax <= e2
    /\ Z.pos m2 * 2 ^ (e2 - SpecFloat.emin prec emax)
       <= Z.pos my * 2 ^ (ey - SpecFloat.emin prec emax).
Proof.
  intros Hez Hy HVY.
  destruct (binary_round_spec s S ez Hez)
    as (HV & m1 & m2 & e2 & Hm1 & Hexact & Hval & He2 & ->).
  apply bounded_canonical in Hy as (Hey & Hdy & Hny & Hfy).
  pose proof (scaled_bounds my ey ltac:(lia)) as HY.
  set (em := SpecFloat.emin prec emax) in *.
  set (d := Z.pos (digits2_pos S) + ez) in *.
  set (dy := Z.pos (digits2_pos my) + ey) in *.
  set (E := SpecFloat.fexp prec emax d) in *.
  set (V := Z.pos S * 2 ^ (ez - em)) in *.
  set (Y := Z.pos my * 2 ^ (ey - em)) in *.
  assert (0 < Z.pos (digits2_pos S)) as HdS by lia.
  pose proof (fexp_cases d) as Hfd. pose proof (fexp_cases dy) as Hfdy.
  fold em E in Hfd, Hfdy. rewrite Hfy in Hfdy.
  assert (em <= E /\ d - prec <= E /\ E <= d - 1) as (HEmin & HEprec & HEd)
    by (subst d; lia).
  assert (d <= dy) as Hddy.
  { destruct (Z_le_gt_dec d dy) as [|Hgt]; [done|].
    pose proof (Z.pow_le_mono_r 2 (dy - em) (d - 1 - em) ltac:(lia) ltac:(lia)). lia. }
  assert (E <= ey) as HEey by lia.
  pose proof (pow2_pos (E - em) ltac:(lia)) as HG.
  assert (m1 * 2 ^ (E - em) <= Y) as Hbelow.
  { destruct (Z.eq_dec ey E) as [Heq|Hne].
    - subst Y. rewrite Heq in HVY |- *.
      destruct (Z.eq_dec (V mod 2 ^ (E - em)) 0) as [Hmod|Hmod].
      + rewrite (Hexact Hmod).
        pose proof (Z.div_le_upper_bound V (2 ^ (E - em)) (Z.pos my) HG ltac:(lia)). nia.
      + assert (V < Z.pos my * 2 ^ (E - em)) as Hlt.
        { destruct (Z.eq_dec V (Z.pos my * 2 ^ (E - em))) as [Heq'|]; [|lia].
          rewrite Heq', Z.mod_mul in Hmod by lia. done. }
        pose proof (Z.div_lt_upper_bound V (2 ^ (E - em)) (Z.pos my) HG ltac:(lia)). nia.
    - assert (d <= dy - 1) as Hd' by lia.
      assert (V / 2 ^ (E - em) < 2 ^ (d - E)) as Hq.
      { apply Z.div_lt_upper_bound; [done|].
        rewrite <- pow2_split by lia.
        replace (E - em + (d - E)) with (d - em) by lia. lia. }
      pose proof (Z.pow_le_mono_r 2 (d - em) (dy - 1 - em) ltac:(lia) ltac:(lia)) as Hmono.
      assert (2 ^ (d - em) = 2 ^ (d - E) * 2 ^ (E - em)) as Hsplit.
      { rewrite <- pow2_split by lia. f_equal. lia. }
      nia. }
  assert (e2 <= emax - prec) as Hfits.
  { destruct He2 as [->|(-> & Htop & HEeq)]; [lia|].
    assert (d <= dy - 1) as Hd'.
    { destruct (Z_le_gt_dec d (dy - 1)) as [|Hgt]; [done|].
      pose proof (Z.pow_le_mono_r 2 (dy - em) (d - em) ltac:(lia) ltac:(lia)). lia. }
    lia. }
  apply Z.leb_le in Hfits. rewrite Hfits.
  exists m2, e2. split_and!; [done| |lia].
  destruct He2 as [->|(-> & _)]; lia.
Qed.

(** ** Sums against their terms *)

Lemma compare_negative (m1 m2 : positive) (e1 e2 : Z) :
  match e1 ?= e2 with
  | Lt => Gt
  | Gt => Lt
  | Eq => CompOpp (Pos.compare_cont Eq m1 m2)
  end
  = CompOpp match e1 ?= e2 with
            | Lt => Lt
            | Gt => Gt
            | Eq => Pos.compare_cont Eq m1 m2
            end.
Proof. by destruct (e1 ?= e2). Qed.

(** The two terms of a sum on their common exponent. *)
Lemma aligned (m : positive) (e e' : Z) :
  SpecFloat.emin prec emax <= Z.min e e' ->
  Z.pos (fst (shl_align m e (Z.min e e'))) * 2 ^ (Z.min e e' - SpecFloat.emin prec emax)
  = Z.pos m * 2 ^ (e - SpecFloat.emin prec emax).
Proof.
  intros Hmin. destruct (shl_align_spec m e (Z.min e e')) as [_ ->].
  replace (Z.min e (Z.min e e')) with (Z.min e e') by lia.
  rewrite <- Z.mul_assoc, <- pow2_split by lia. f_equal. f_equal. lia.
Qed.

Lemma SFcompare_antisym (x y : spec_float) :
  SFcompare y x = option_map CompOpp (SFcompare x y).
Proof.
  destruct x as [[]|[]| |[] mx ex], y as [[]|[]| |[] my ey]; cbn; try done.
  all: rewrite (Z.compare_antisym ex ey); destruct (ex ?= ey); cbn; try done.
  all: by rewrite ?CompOpp_involutive, Pos.compare_cont_antisym.
Qed.

(** Adding a positive number gives no less, adding a negative number no
    more: the sum rounds to a number of the format on the same side of the
    other term as the exact sum. *)
Lemma SFadd_finite_compare (sx sy : bool) (mx my : positive) (ex ey : Z) :
  bounded prec emax mx ex = true -> bounded prec emax my ey = true ->
  let y := S754_finite sy my ey in
  let z := SFadd prec emax (S754_finite sx mx ex) y in
  SpecFloat.valid_binary prec emax z = true ->
  exists c, SFcompare z y = Some c /\ c <> (if sx then Gt else Lt).
Proof.
  intros Hx Hy y z Hz.
  pose proof (bounded_canonical mx ex Hx) as (Hex & _).
  pose proof (bounded_canonical my ey Hy) as (Hey & _).
  set (em := SpecFloat.emin prec emax) in *.
  set (ez := Z.min ex ey) in *.
  assert (em <= ez) as Hez by (subst ez; lia).
  pose proof (aligned mx ex ey Hez) as HX.
  pose proof (aligned my ey ex) as HY. rewrite (Z.min_comm ey ex) in HY.
  specialize (HY Hez). fold ez em in HX, HY.
  subst z y. cbn [SFadd] in Hz |- *.
  change (IntDef.Z.min ex ey) with ez in Hz |- *.
  set (ax := fst (shl_align mx ex ez)) in *.
  set (ay := fst (shl_align my ey ez)) in *.
  pose proof (pow2_pos (ez - em) ltac:(lia)) as Hunit.
  (* the sum rounded up to or beyond the term, with the sign of the term *)
  assert (forall s S, Z.pos my * 2 ^ (ey - em) <= Z.pos S * 2 ^ (ez - em) ->
            SpecFloat.valid_binary prec emax (binary_round prec emax s S ez) = true ->
            exists c, SFcompare (binary_round prec emax s S ez) (S754_finite s my ey)
                      = Some (if s then CompOpp c else c)
                      /\ c <> Lt) as Habove.
  { intros s S HS Hvalid.
    destruct (round_above s S my ez ey Hez Hy HS) as [Hinf|(m2 & e2 & Hfin & He2 & Hle)].
    - rewrite Hinf. exists Gt. by destruct s.
    - rewrite Hfin in Hvalid |- *. cbn [SpecFloat.valid_binary] in Hvalid.
      pose proof (compare_canonical m2 my e2 ey Hvalid Hy) as Hcmp. fold em in Hcmp, Hle.
      exists (Z.pos m2 * 2 ^ (e2 - em) ?= Z.pos my * 2 ^ (ey - em)). split.
      + rewrite <- Hcmp.
        destruct s; cbn [SFcompare]; [by rewrite compare_negative|done].
      + intros Hlt. apply (proj1 (Z.compare_lt_iff _ _)) in Hlt. lia. }
  (* the sum rounded down to or below the term *)
  assert (forall s S, Z.pos S * 2 ^ (ez - em) <= Z.pos my * 2 ^ (ey - em) ->
            SpecFloat.valid_binary prec emax (binary_round prec emax s S ez) = true ->
            exists c, SFcompare (binary_round prec emax s S ez) (S754_finite s my ey)
                      = Some (if s then CompOpp c else c)
                      /\ c <> Gt) as Hbelow.
  { intros s S HS Hvalid.
    destruct (round_below s S my ez ey Hez Hy HS) as (m2 & e2 & Hfin & He2 & Hle).
    rewrite Hfin in Hvalid |- *. cbn [SpecFloat.valid_binary] in Hvalid.
    pose proof (compare_canonical m2 my e2 ey Hvalid Hy) as Hcmp. fold em in Hcmp, Hle.
    exists (Z.pos m2 * 2 ^ (e2 - em) ?= Z.pos my * 2 ^ (ey - em)). split.
    - rewrite <- Hcmp.
      destruct s; cbn [SFcompare]; [by rewrite compare_negative|done].
    - intros Hgt. apply (proj1 (Z.compare_gt_iff _ _)) in Hgt. lia. }
  (* a sum of the other sign than the term *)
  assert (forall s S,
            SFcompare (binary_round prec emax (negb s) S ez) (S754_finite s my ey)
            = Some (if s then Gt else Lt)) as Hother.
  { intros s S.
    destruct (binary_round_spec (negb s) S ez Hez) as (_ & _ & m2 & e2 & _ & _ & _ & _ & ->).
    by destruct (e2 <=? emax - prec), s. }
  destruct sx, sy; cbn [cond_Zopp] in Hz |- *.
  - (* both negative *)
    change (- Z.pos ax + - Z.pos ay) with (Z.neg (ax + ay)) in Hz |- *.
    cbn [binary_normalize] in Hz |- *.
    destruct (Habove true (ax + ay)%positive) as (c & Hc & Hne);
      [rewrite Pos2Z.inj_add; nia|done|].
    exists (CompOpp c). split; [done|]. by destruct c.
  - (* a negative number added to a positive one *)
    destruct (- Z.pos ax + Z.pos ay) as [|S|S] eqn:Hsum; cbn [binary_normalize] in Hz |- *.
    + by exists Lt.
    + destruct (Hbelow false S) as (c & Hc & Hne); [nia|done|]. by exists c.
    + exists Lt. split; [apply (Hother false S)|done].
  - (* a positive number added to a negative one *)
    destruct (Z.pos ax + - Z.pos ay) as [|S|S] eqn:Hsum; cbn [binary_normalize] in Hz |- *.
    + by exists Gt.
    + exists Gt. split; [apply (Hother true S)|done].
    + destruct (Hbelow true S) as (c & Hc & Hne); [nia|done|].
      exists (CompOpp c). split; [done|]. by destruct c.
  - (* both positive *)
    change (Z.pos ax + Z.pos ay) with (Z.pos (ax + ay)) in Hz |- *.
    cbn [binary_normalize] in Hz |- *.
    destruct (Habove false (ax + ay)%positive) as (c & Hc & Hne);
      [rewrite Pos2Z.inj_add; nia|done|].
    by exists c.
Qed.

(** The same for all numbers of the format, the infinities and NaN
    included: no sum with a positive number compares below the other term,
    none with a negative number above it. *)
Lemma SFadd_side (x y : spec_float) :
  SpecFloat.valid_binary prec emax x = true ->
  SpecFloat.valid_binary prec emax y = true ->
  SpecFloat.valid_binary prec emax (SFadd prec emax x y) = true ->
  (SFltb (S754_zero false) x = true -> SFltb (SFadd prec emax x y) y = false)
  /\ (SFltb x (S754_zero false) = true -> SFltb y (SFadd prec emax x y) = false).
Proof.
  intros Hx Hy Hz.
  destruct x as [[]|[]| |sx mx ex]; try by (split; intros; try done; destruct y as [[]|[]| |[] ? ?]).
  destruct y as [[]|[]| |sy my ey]; try by (split; intros; try done; destruct sx).
  destruct (SFadd_finite_compare sx sy mx my ex ey Hx Hy Hz) as (c & Hc & Hne).
  split; intros Hsign; destruct sx; try done.
  - unfold SFltb. by rewrite Hc; destruct c.
  - unfold SFltb. rewrite SFcompare_antisym, Hc. by destruct c.
Qed.

End Rounding.

(** ** Sums of doubles against their terms *)

Section SumOrder.
Open Scope float_scope.
Implicit Types (m r : float).

(** A sum of doubles with a positive term is never below the other term,
    one with a negative term never above it. *)
Lemma add_side m r :
  ((0 <? m) = true -> (m + r <? r) = false)
  /\ ((m <? 0) = true -> (r <? m + r) = false).
Proof.
  rewrite !ltb_spec, add_spec.
  change (Prim2SF 0) with (S754_zero false).
  apply (SFadd_side FloatOps.prec FloatOps.emax); [done| | |].
  - apply Prim2SF_valid.
  - apply Prim2SF_valid.
  - change (SFadd FloatOps.prec FloatOps.emax (Prim2SF m) (Prim2SF r))
      with (SF64add (Prim2SF m) (Prim2SF r)).
    rewrite <- add_spec. apply Prim2SF_valid.
Qed.

(** Zero added to a double compares as the double. *)
Lemma add_zero_ltb r x :
  (0 + r <? x) = (r <? x) /\ (x <? 0 + r) = (x <? r).
Proof.
  rewrite !ltb_spec, add_spec.
  change (Prim2SF 0) with (S754_zero false).
  by destruct (Prim2SF r) as [[]|[]| |[] ? ?].
Qed.

(** A sum that is a number has terms that are numbers. *)
Lemma add_number m r : (m + r =? m + r) = true -> (r =? r) = true.
Proof.
  rewrite !FloatAxioms.eqb_spec, add_spec.
  destruct (Prim2SF r) as [[]|[]| |[] mr er]; try done.
  - by destruct (Prim2SF m) as [[]|[]| |[] ? ?].
  - intros _. unfold SFeqb, SFcompare.
    by rewrite Z.compare_refl, Pos.compare_cont_refl.
  - intros _. unfold SFeqb, SFcompare.
    by rewrite Z.compare_refl, Pos.compare_cont_refl.
Qed.

End SumOrder.

(* ===================================================================== *)
(** * Part IV: the colour gradient                                       *)
(* ===================================================================== *)

Section GradientFacts.
Import Gradient.
Context `{QtMath}.
Open Scope Z_scope.

(** ** Loops that store by index *)

Lemma forLoop_store_length {A} (f : Z -> A) n i (v : list A) :
  length (forLoop n i (fun i v => <[Z.to_nat i := f i]> v) v) = length v.
Proof.
  revert i v; induction n as [|n IH]; intros i v; simpl; [done|].
  by rewrite IH, length_insert.
Qed.

Lemma forLoop_store_lookup {A} (f : Z -> A) n i (v : list A) (j : nat) :
  0 <= i ->
  forLoop n i (fun i v => <[Z.to_nat i := f i]> v) v !! j =
    if bool_decide (Z.to_nat i <= j < Z.to_nat i + n)%nat
    then (fun _ => f (Z.of_nat j)) <$> v !! j
    else v !! j.
Proof.
  revert i v; induction n as [|n IH]; intros i v Hi; simpl.
  - rewrite bool_decide_eq_false_2 by lia. done.
  - rewrite IH by lia.
    replace (Z.to_nat (i + 1)) with (S (Z.to_nat i)) by lia.
    destruct (decide (j = Z.to_nat i)) as [->|Hne].
    + rewrite bool_decide_eq_false_2 by lia.
      rewrite bool_decide_eq_true_2 by lia.
      rewrite Z2Nat.id by lia.
      destruct (decide (Z.to_nat i < length v)%nat) as [Hlt|Hge].
      * rewrite list_lookup_insert_eq by done.
        destruct (lookup_lt_is_Some_2 v _ Hlt) as [x ->]. done.
      * rewrite list_insert_ge by lia.
        rewrite (lookup_ge_None_2 v) by lia. done.
    + rewrite list_lookup_insert_ne by done.
      case_bool_decide; case_bool_decide; try done; lia.
Qed.

Lemma forLoop_store_map {A} (f : Z -> A) n (v : list A) :
  length v = n ->
  forLoop n 0 (fun i v => <[Z.to_nat i := f i]> v) v
  = map (fun j => f (Z.of_nat j)) (seq 0 n).
Proof.
  intros Hlen. apply list_eq; intros j.
  rewrite forLoop_store_lookup by lia.
  rewrite list_lookup_fmap.
  destruct (decide (j < n)%nat) as [Hlt|Hge].
  - rewrite bool_decide_eq_true_2 by lia.
    rewrite lookup_seq_lt by done.
    destruct (lookup_lt_is_Some_2 v j) as [x ->]; [lia|done].
  - rewrite bool_decide_eq_false_2 by lia.
    rewrite lookup_seq_ge by lia.
    by rewrite lookup_ge_None_2 by lia.
Qed.

(** ** The buffer after [updateColorBuffer] *)

Lemma resize_length n v : length (resize n v) = n.
Proof.
  unfold resize. rewrite length_app, length_take, length_replicate. lia.
Qed.

Lemma fill_length c v : length (fill c v) = length v.
Proof. unfold fill. by rewrite length_replicate. Qed.

Lemma updateColorBuffer_length g :
  length (mColorBuffer (updateColorBuffer g)) = Z.to_nat (mLevelCount g).
Proof.
  unfold updateColorBuffer; simpl.
  set (buffer := if negb _ then _ else _).
  assert (length buffer = Z.to_nat (mLevelCount g)) as Hb.
  { subst buffer. destruct (Z.eqb_spec (Z.of_nat (length (mColorBuffer g))) (mLevelCount g));
      simpl; [lia | apply resize_length]. }
  repeat case_match; rewrite ?forLoop_store_length, ?fill_length; done.
Qed.

(** ** The index into the buffer *)

Lemma wrapIndex_mod levelCount index :
  0 < levelCount -> wrapIndex levelCount index = Z.modulo index levelCount.
Proof.
  intros Hpos. unfold wrapIndex.
  pose proof (Z.quot_rem' index levelCount) as Hqr.
  destruct (Z.ltb_spec (Z.rem index levelCount) 0) as [Hneg|Hnn].
  - apply (Z.mod_unique_pos _ _ (Z.quot index levelCount - 1)); [|lia].
    destruct (Z.le_gt_cases 0 index) as [Hi|Hi].
    + pose proof (Z.rem_bound_pos_pos index levelCount Hpos Hi). lia.
    + pose proof (Z.rem_bound_pos_neg index levelCount Hpos ltac:(lia)). lia.
  - apply (Z.mod_unique_pos _ _ (Z.quot index levelCount)); [|lia].
    destruct (Z.le_gt_cases 0 index) as [Hi|Hi].
    + pose proof (Z.rem_bound_pos_pos index levelCount Hpos Hi). lia.
    + pose proof (Z.rem_bound_pos_neg index levelCount Hpos ltac:(lia)). lia.
Qed.

Lemma clampIndex_max_min levelCount index :
  0 < levelCount ->
  clampIndex levelCount index = Z.max 0 (Z.min index (levelCount - 1)).
Proof.
  intros Hpos. unfold clampIndex.
  destruct (Z.ltb_spec index 0), (Z.leb_spec levelCount index); lia.
Qed.

Lemma colorIndex_range g position range logarithmic :
  0 < mLevelCount g ->
  0 <= colorIndex g position range logarithmic <= mLevelCount g - 1.
Proof.
  intros Hpos. unfold colorIndex. destruct (mPeriodic g).
  - rewrite wrapIndex_mod by done.
    pose proof (Z.mod_pos_bound (rawIndex g position range logarithmic) _ Hpos). lia.
  - rewrite clampIndex_max_min by done. lia.
Qed.

Lemma colorizeIndex_range g d range logarithmic :
  0 < mLevelCount g ->
  0 <= colorizeIndex g d range logarithmic <= mLevelCount g - 1.
Proof.
  intros Hpos. unfold colorizeIndex. cbv zeta.
  set (raw := if negb logarithmic then _ else _). destruct (mPeriodic g).
  - rewrite wrapIndex_mod by done.
    pose proof (Z.mod_pos_bound raw _ Hpos). lia.
  - rewrite clampIndex_max_min by done. lia.
Qed.

(** [color] reads the buffer, rebuilt when it was invalid, at [colorIndex]. *)
Lemma color_reads g position range logarithmic :
  color g position range logarithmic
  = let g' := if mColorBufferInvalidated g then updateColorBuffer g else g in
    (at_ (mColorBuffer g') (colorIndex g position range logarithmic), g').
Proof.
  unfold color, colorIndex, rawIndex, wrapIndex, clampIndex.
  by destruct (mColorBufferInvalidated g).
Qed.

Lemma bufferSized_updateColorBuffer g : bufferSized (updateColorBuffer g).
Proof. intros _. exact (updateColorBuffer_length g). Qed.

Lemma bufferSized_color g position range logarithmic :
  bufferSized g ->
  length (mColorBuffer (snd (color g position range logarithmic)))
  = Z.to_nat (mLevelCount g).
Proof.
  intros Hsized. rewrite color_reads. simpl.
  destruct (mColorBufferInvalidated g) eqn:Hv.
  - apply updateColorBuffer_length.
  - by apply Hsized.
Qed.

(** The invariant holds from the constructor on and through every
    mutator. *)
Lemma bufferSized_mutators g preset n stops position c mode enabled :
  bufferSized (construct preset)
  /\ (bufferSized g ->
      bufferSized (fst (setLevelCount n g))
      /\ bufferSized (setColorStops stops g)
      /\ bufferSized (setColorStopAt position c g)
      /\ bufferSized (setColorInterpolation mode g)
      /\ bufferSized (setPeriodic enabled g)
      /\ bufferSized (clearColorStops g)
      /\ bufferSized (loadPreset preset g)
      /\ bufferSized (inverted g)).
Proof.
  assert (forall l g0, mColorBufferInvalidated g0 = true ->
            mColorBufferInvalidated
              (foldl (fun g '(p, c) => setColorStopAt p c g) g0 l) = true) as Hfold.
  { induction l as [|[p' c'] l IH]; intros g0 Hg0; simpl; [done|]. by apply IH. }
  assert (forall l g0,
            mColorBufferInvalidated
              (foldl (fun result '(key, value) =>
                        setColorStopAt (1.0 - key)%float value result)
                 (clearColorStops g0) l) = true) as Hinv.
  { intros l g0. generalize (clearColorStops g0), (eq_refl : mColorBufferInvalidated (clearColorStops g0) = true).
    induction l as [|[p' c'] l IH]; intros g1 Hg1; simpl; [done|]. by apply IH. }
  split.
  - intros Hv. exfalso. revert Hv. unfold construct, loadPreset.
    destruct (presetStops preset) as [i l].
    assert (mColorBufferInvalidated
              (setColorInterpolation i
                 (clearColorStops (mkGradient 350 [] ciRGB false (replicate 350 (qRgb 0 0 0)) true)))
            = true) as Hi by (by destruct i).
    rewrite (Hfold l _ Hi). done.
  - intros Hg. repeat split.
    + unfold setLevelCount. destruct (n <? 2); simpl; case_match; try done; intros Hv; done.
    + intros Hv; done.
    + intros Hv; done.
    + unfold setColorInterpolation. case_match; [intros Hv; done|done].
    + exact Hg.
    + intros Hv; done.
    + intros Hv. exfalso. revert Hv. unfold loadPreset.
      destruct (presetStops preset) as [i l].
      assert (mColorBufferInvalidated (setColorInterpolation i (clearColorStops g)) = true)
        as Hi by (unfold setColorInterpolation; by case_match).
      rewrite (Hfold l _ Hi). done.
    + intros Hv. exfalso. revert Hv. unfold inverted. by rewrite Hinv.
Qed.

Lemma at_in_bounds (v : list QRgb) index :
  0 <= index < Z.of_nat (length v) -> is_Some (at_ v index).
Proof.
  intros Hi. unfold at_. destruct (Z.ltb_spec index 0); [lia|].
  apply lookup_lt_is_Some_2. lia.
Qed.

(** C8: with at least two levels, the index [color] reads the buffer at
    lies in [0, levelCount - 1]: it is the raw index modulo the level count
    for a periodic gradient and the raw index clamped otherwise, and the
    read is in bounds; the index of every pass of the loops of [colorize]
    lies in the same interval. *)
Theorem color_index_in_bounds (g : QCPColorGradient) (position : float)
  (range : QCPRange) (logarithmic : bool) :
  2 <= mLevelCount g ->
  bufferSized g ->
  let index := colorIndex g position range logarithmic in
  let raw := rawIndex g position range logarithmic in
  0 <= index <= mLevelCount g - 1
  /\ index = (if mPeriodic g then Z.modulo raw (mLevelCount g)
              else Z.max 0 (Z.min raw (mLevelCount g - 1)))
  /\ fst (color g position range logarithmic)
     = mColorBuffer (snd (color g position range logarithmic)) !! Z.to_nat index
  /\ is_Some (fst (color g position range logarithmic))
  /\ (forall d, 0 <= colorizeIndex g d range logarithmic <= mLevelCount g - 1).
Proof.
  intros Hlevels Hsized index raw.
  assert (0 <= index <= mLevelCount g - 1) as Hrange
    by (apply colorIndex_range; lia).
  pose proof (bufferSized_color g position range logarithmic Hsized) as Hlen.
  assert (fst (color g position range logarithmic)
          = at_ (mColorBuffer (snd (color g position range logarithmic))) index) as Hread
    by (by rewrite color_reads).
  split_and!.
  - lia.
  - lia.
  - subst index raw. unfold colorIndex. destruct (mPeriodic g).
    + apply wrapIndex_mod; lia.
    + apply clampIndex_max_min; lia.
  - rewrite Hread. unfold at_. destruct (Z.ltb_spec index 0); [lia|done].
  - rewrite Hread. apply at_in_bounds. lia.
  - intros d. apply colorizeIndex_range. lia.
Qed.

(** ** Equality and the lazily rebuilt buffer *)



(** ** [colorize] against [color] *)

Lemma forLoop_storeColor buffer (index : Z -> Z) n i (line : Z -> QRgb) (j : Z) :
  forLoop n i (fun i line => storeColor buffer line i (index i)) line j
  = if bool_decide (i <= j < i + Z.of_nat n)
    then default (line j) (at_ buffer (index j))
    else line j.
Proof.
  revert i line; induction n as [|n IH]; intros i line; simpl.
  - rewrite bool_decide_eq_false_2 by lia. done.
  - rewrite IH. unfold storeColor at 1 2. destruct (decide (j = i)) as [->|Hne].
    + rewrite bool_decide_eq_false_2 by lia.
      rewrite bool_decide_eq_true_2 by lia.
      destruct (at_ buffer (index i)); simpl; [by rewrite Z.eqb_refl|done].
    + assert (forall A (x y : A), (if j =? i then x else y) = y) as Hother
        by (intros; destruct (Z.eqb_spec j i); [lia|done]).
      destruct (at_ buffer (index i)); rewrite ?Hother;
        case_bool_decide; case_bool_decide; try done; lia.
Qed.

(** Every entry [colorize] writes is the buffer entry at [colorizeIndex]. *)
Lemma colorize_scanLine g data range line n dataIndexFactor logarithmic i :
  0 <= i < n ->
  exists line',
    fst (fst (colorize g (Some data) range (Some line) n dataIndexFactor logarithmic))
      = Some line'
    /\ line' i =
         default (line i)
           (at_ (mColorBuffer (snd (color g (data (dataIndexFactor * i)) range logarithmic)))
              (colorizeIndex g (data (dataIndexFactor * i)) range logarithmic)).
Proof.
  intros Hi. eexists; split; [reflexivity|].
  rewrite color_reads. cbn [snd].
  set (g' := if mColorBufferInvalidated g then updateColorBuffer g else g).
  assert (forall d, colorizeIndex g d range logarithmic
                    = colorizeIndex g' d range logarithmic) as ->
    by (intros d; subst g'; by destruct (mColorBufferInvalidated g)).
  transitivity
    (forLoop (Z.to_nat n) 0
       (fun i line =>
          storeColor (mColorBuffer g') line i
            (colorizeIndex g' (data (dataIndexFactor * i)) range logarithmic)) line i).
  { unfold colorizeIndex, wrapIndex, clampIndex.
    by destruct logarithmic, (mPeriodic g'). }
  rewrite forLoop_storeColor. by rewrite bool_decide_eq_true_2 by lia.
Qed.

(** With the logarithmic mapping the two functions compute the index by
    the same expression. *)
Lemma colorizeIndex_logarithmic g d range :
  colorizeIndex g d range true = colorIndex g d range true.
Proof. done. Qed.

Lemma colorize_color_logarithmic g data range line n dataIndexFactor i :
  0 <= i < n -> 2 <= mLevelCount g -> bufferSized g ->
  exists line',
    fst (fst (colorize g (Some data) range (Some line) n dataIndexFactor true))
      = Some line'
    /\ Some (line' i) = fst (color g (data (dataIndexFactor * i)) range true).
Proof.
  intros Hi Hlevels Hsized.
  destruct (colorize_scanLine g data range line n dataIndexFactor true i Hi)
    as (line' & Hline & Hread).
  exists line'; split; [done|]. rewrite Hread, colorizeIndex_logarithmic.
  pose proof (bufferSized_color g (data (dataIndexFactor * i)) range true Hsized) as Hlen.
  pose proof (colorIndex_range g (data (dataIndexFactor * i)) range true ltac:(lia)).
  destruct (at_in_bounds
              (mColorBuffer (snd (color g (data (dataIndexFactor * i)) range true)))
              (colorIndex g (data (dataIndexFactor * i)) range true)) as [c Hc]; [lia|].
  rewrite Hc. rewrite color_reads in *. simpl in *. by rewrite Hc.
Qed.

(** C1 at a value on the upper bound of the range: 256 levels of gray over
    the range from 0 to 100, one data value 100.  [color] reads buffer entry
    255 (white); [colorize] reads buffer entry 254, since it multiplies by
    the quotient [(mLevelCount-1)/range.size()] rounded beforehand. *)
Theorem colorize_color_upper_bound :
  rawIndex (grayscale 256) 100 (mkRange 0 100) false = 255
  /\ fst (color (grayscale 256) 100 (mkRange 0 100) false) = Some (qRgb 255 255 255)
  /\ colorizeIndex (grayscale 256) 100 (mkRange 0 100) false = 254
  /\ (fst (fst (colorize (grayscale 256) (Some (fun _ => 100%float)) (mkRange 0 100)
                  (Some (fun _ => 0)) 1 1 false))
        ≫= fun line => Some (line 0)) = Some (qRgb 254 254 254).
Proof. repeat split; by vm_compute. Qed.

End GradientFacts.

Section GradientExamples.
Import Gradient.
Existing Instance unusedQt.
Open Scope Z_scope.

(** C8 on an instance: the grayscale preset with its buffer built. *)
Lemma color_index_in_bounds_grayscale :
  let g := updateColorBuffer (grayscale 350) in
  let index := colorIndex g 0.5 (mkRange 0 1) false in
  let raw := rawIndex g 0.5 (mkRange 0 1) false in
  0 <= index <= mLevelCount g - 1
  /\ index = (if mPeriodic g then Z.modulo raw (mLevelCount g)
              else Z.max 0 (Z.min raw (mLevelCount g - 1)))
  /\ fst (color g 0.5 (mkRange 0 1) false)
     = mColorBuffer (snd (color g 0.5 (mkRange 0 1) false)) !! Z.to_nat index
  /\ is_Some (fst (color g 0.5 (mkRange 0 1) false))
  /\ (forall d, 0 <= colorizeIndex g d (mkRange 0 1) false <= mLevelCount g - 1).
Proof.
  apply (color_index_in_bounds (updateColorBuffer (grayscale 350))).
  - vm_compute. discriminate.
  - intros _. vm_compute. reflexivity.
Defined.

(** C2 at the last of 50 levels.  The position of slot 49 is 49/49 = 1,
    the key of the last stop, and the linear blend there is the colour of
    that stop, white: 255 on every channel before any rounding.  The loop
    of [updateColorBuffer] multiplies by the reciprocal instead,
    [49 * (1.0/49)], which is the double next below 1.  For the stops
    [{0 -> black, 1 -> white}] it stores gray 254 in the slot; with one
    more black stop at that double it finds that stop and stores black. *)
Theorem updateColorBuffer_last_level :
  specPosition 50 49 = 1%float
  /\ specRgb None (mColorStops (grayscale 50)) (specPosition 50 49)
     = (255, 255, 255)%float
  /\ mColorBuffer (updateColorBuffer (grayscale 50)) !! 49%nat = Some (qRgb 254 254 254)
  /\ specRgb None (mColorStops (lateWhite 50)) (specPosition 50 49)
     = (255, 255, 255)%float
  /\ mColorBuffer (updateColorBuffer (lateWhite 50)) !! 49%nat = Some (qRgb 0 0 0).
Proof. repeat split; by vm_compute. Qed.

End GradientExamples.

(* ===================================================================== *)
(** * Part V: stacking                                                   *)
(* ===================================================================== *)

Section StackingFacts.
Import Bars.
Implicit Types (s : Plot) (a b l u x y z : addr) (v : option addr).

(** ** Reads after a field assignment *)

Lemma live_alter s (f : QCPBars -> QCPBars) a x :
  live (withBars (alter f a) s) x <-> live s x.
Proof.
  unfold live, withBars; simpl. rewrite lookup_alter.
  case_decide; subst; [|done]. by rewrite fmap_is_Some.
Qed.

Lemma barBelow_setBelow s a v x :
  live s a ->
  barBelow (setBelow a v s) x = if decide (x = a) then v else barBelow s x.
Proof.
  intros [bar Hbar]. unfold barBelow, setBelow, withBars; simpl.
  rewrite lookup_alter. repeat case_decide; subst; try done.
  by rewrite Hbar.
Qed.

Lemma barAbove_setBelow s a v x : barAbove (setBelow a v s) x = barAbove s x.
Proof.
  unfold barAbove, setBelow, withBars; simpl.
  rewrite lookup_alter. case_decide; subst; [|done].
  by destruct (plotBars s !! x).
Qed.

Lemma barAbove_setAbove s a v x :
  live s a ->
  barAbove (setAbove a v s) x = if decide (x = a) then v else barAbove s x.
Proof.
  intros [bar Hbar]. unfold barAbove, setAbove, withBars; simpl.
  rewrite lookup_alter. repeat case_decide; subst; try done.
  by rewrite Hbar.
Qed.

Lemma barBelow_setAbove s a v x : barBelow (setAbove a v s) x = barBelow s x.
Proof.
  unfold barBelow, setAbove, withBars; simpl.
  rewrite lookup_alter. case_decide; subst; [|done].
  by destruct (plotBars s !! x).
Qed.

Lemma barBelow_live s x y : barBelow s x = Some y -> live s x.
Proof. unfold barBelow, live. destruct (plotBars s !! x); [eauto|done]. Qed.

Lemma barAbove_live s x y : barAbove s x = Some y -> live s x.
Proof. unfold barAbove, live. destruct (plotBars s !! x); [eauto|done]. Qed.

(** ** [connectBars] *)

(** Adds the opposite direction of every known link, then closes the goal
    by congruence. *)
Ltac saturate_links Hlinked :=
  repeat match goal with
         | H : barBelow ?s ?p = Some ?q |- _ =>
             lazymatch goal with
             | _ : barAbove s q = Some p |- _ => fail
             | _ => pose proof (proj2 (Hlinked q p) H)
             end
         | H : barAbove ?s ?p = Some ?q |- _ =>
             lazymatch goal with
             | _ : barBelow s q = Some p |- _ => fail
             | _ => pose proof (proj1 (Hlinked p q) H)
             end
         end.

Ltac link_contra Hlinked :=
  intros; simplify_eq; saturate_links Hlinked;
  first [ done | congruence | apply Hlinked; congruence
        | symmetry; apply Hlinked; congruence | exfalso; congruence ].

Lemma disconnectAbove_links s l :
  (forall la, barAbove s l = Some la -> barBelow s la = Some l) ->
  (forall z, barBelow (disconnectAbove l s) z
             = if decide (barAbove s l = Some z) then None else barBelow s z)
  /\ (forall z, barAbove (disconnectAbove l s) z = barAbove s z)
  /\ (forall z, live (disconnectAbove l s) z <-> live s z).
Proof.
  intros Hl. unfold disconnectAbove.
  destruct (barAbove s l) as [la|] eqn:Hla.
  - rewrite decide_True by auto.
    split; [|split].
    + intros z. rewrite barBelow_setBelow by eauto using barBelow_live.
      repeat case_decide; simplify_eq; done.
    + intros z. apply barAbove_setBelow.
    + intros z. apply live_alter.
  - split; [|done]. intros z. by rewrite decide_False.
Qed.

Lemma disconnectBelow_links s u :
  (forall ub, barBelow s u = Some ub -> barAbove s ub = Some u) ->
  (forall z, barAbove (disconnectBelow u s) z
             = if decide (barBelow s u = Some z) then None else barAbove s z)
  /\ (forall z, barBelow (disconnectBelow u s) z = barBelow s z)
  /\ (forall z, live (disconnectBelow u s) z <-> live s z).
Proof.
  intros Hu. unfold disconnectBelow.
  destruct (barBelow s u) as [ub|] eqn:Hub.
  - rewrite decide_True by auto.
    split; [|split].
    + intros z. rewrite barAbove_setAbove by eauto using barAbove_live.
      repeat case_decide; simplify_eq; done.
    + intros z. apply barBelow_setAbove.
    + intros z. apply live_alter.
  - split; [|done]. intros z. by rewrite decide_False.
Qed.

(** The links after [connectBars lower upper]: [lower] and [upper] point
    to each other, the bar that was above [lower] and the bar that was
    below [upper] point to nothing on that side, and every other link is as
    it was. *)
Lemma connectBars_links s lower upper :
  linked s ->
  from_option (live s) True lower ->
  from_option (live s) True upper ->
  (forall z, barAbove (connectBars lower upper s) z
             = if decide (lower = Some z) then upper
               else if decide (upper ≫= barBelow s = Some z) then None
               else barAbove s z)
  /\ (forall z, barBelow (connectBars lower upper s) z
                = if decide (upper = Some z) then lower
                  else if decide (lower ≫= barAbove s = Some z) then None
                  else barBelow s z)
  /\ (forall z, live (connectBars lower upper s) z <-> live s z).
Proof.
  intros Hlinked Hlower Hupper.
  destruct lower as [l|], upper as [u|]; simpl in *.
  - (* connect lower and upper *)
    destruct (disconnectAbove_links s l) as (Hb1 & Ha1 & Hl1);
      [intros la; apply Hlinked|].
    destruct (disconnectBelow_links (disconnectAbove l s) u) as (Ha2 & Hb2 & Hl2).
    { intros ub. rewrite Hb1, Ha1. case_decide; [done|]. apply Hlinked. }
    assert (live (disconnectBelow u (disconnectAbove l s)) l) as Hll
      by (by apply Hl2, Hl1).
    assert (live (setAbove l (Some u) (disconnectBelow u (disconnectAbove l s))) u) as Hlu
      by (by apply live_alter, Hl2, Hl1).
    split; [|split].
    + intros z. rewrite barAbove_setBelow, barAbove_setAbove by done.
      rewrite Ha2, Hb1, Ha1.
      repeat case_decide; simplify_eq; try done; link_contra Hlinked.
    + intros z. rewrite barBelow_setBelow, barBelow_setAbove by done.
      rewrite Hb2, Hb1.
      repeat case_decide; simplify_eq; done.
    + intros z. unfold setBelow, setAbove. rewrite !live_alter, Hl2, Hl1. done.
  - (* disconnect lower at top *)
    destruct (disconnectAbove_links s l) as (Hb1 & Ha1 & Hl1);
      [intros la; apply Hlinked|].
    split; [|split].
    + intros z. rewrite barAbove_setAbove by (by apply Hl1). rewrite Ha1.
      repeat case_decide; simplify_eq; done.
    + intros z. rewrite barBelow_setAbove, Hb1.
      repeat case_decide; simplify_eq; done.
    + intros z. unfold setAbove. rewrite live_alter, Hl1. done.
  - (* disconnect upper at bottom *)
    destruct (disconnectBelow_links s u) as (Ha1 & Hb1 & Hl1);
      [intros ub; apply Hlinked|].
    split; [|split].
    + intros z. rewrite barAbove_setBelow, Ha1.
      repeat case_decide; simplify_eq; done.
    + intros z. rewrite barBelow_setBelow by (by apply Hl1). rewrite Hb1.
      repeat case_decide; simplify_eq; done.
    + intros z. unfold setBelow. rewrite live_alter, Hl1. done.
  - split; [|split]; intros z; repeat case_decide; simplify_eq; done.
Qed.

Lemma connectBars_linked s lower upper :
  linked s ->
  from_option (live s) True lower ->
  from_option (live s) True upper ->
  linked (connectBars lower upper s).
Proof.
  intros Hlinked Hlower Hupper.
  destruct (connectBars_links s lower upper) as (Ha & Hb & _); [done..|].
  intros x y. rewrite Ha, Hb.
  destruct lower as [l|], upper as [u|]; simpl;
    repeat case_decide; simplify_eq; try done;
    first [ apply Hlinked | split; link_contra Hlinked ].
Qed.

Lemma acyclic_irrefl s a : acyclic s -> barBelow s a <> Some a.
Proof. intros [rank Hrank] Ha. specialize (Hrank _ _ Ha). lia. Qed.

(** Taking [a] out of its stack: [connectBars(mBarBelow, mBarAbove)]. *)
Lemma spliceOut_links s a :
  linked s -> acyclic s -> live s a ->
  let s' := connectBars (barBelow s a) (barAbove s a) s in
  (forall z, barBelow s' z
             = if decide (z = a) then None
               else if decide (barBelow s z = Some a) then barBelow s a
               else barBelow s z)
  /\ (forall z, barAbove s' z
                = if decide (z = a) then None
                  else if decide (barAbove s z = Some a) then barAbove s a
                  else barAbove s z)
  /\ (forall z, live s' z <-> live s z)
  /\ linked s'
  /\ (forall rank : addr -> nat,
        (forall x y, barBelow s x = Some y -> (rank y < rank x)%nat) ->
        forall x y, barBelow s' x = Some y -> (rank y < rank x)%nat).
Proof.
  intros Hlinked Hacyclic Hlive s'.
  pose proof (acyclic_irrefl s a Hacyclic) as Hirr.
  assert (barAbove s a <> Some a) as Hirr' by (intros Ha; by apply Hlinked in Ha).
  assert (from_option (live s) True (barBelow s a)) as Hlb.
  { destruct (barBelow s a) as [x|] eqn:Hx; [|done]. simpl.
    apply Hlinked in Hx. by eapply barAbove_live. }
  assert (from_option (live s) True (barAbove s a)) as Hla.
  { destruct (barAbove s a) as [y|] eqn:Hy; [|done]. simpl.
    apply Hlinked in Hy. by eapply barBelow_live. }
  destruct (connectBars_links s (barBelow s a) (barAbove s a)) as (Ha & Hb & Hl);
    [done..|].
  assert (forall z, barBelow s' z
                    = if decide (z = a) then None
                      else if decide (barBelow s z = Some a) then barBelow s a
                      else barBelow s z) as Hbelow.
  { intros z. subst s'. rewrite Hb.
    destruct (barBelow s a) as [x|] eqn:Hx, (barAbove s a) as [y|] eqn:Hy; simpl;
      repeat case_decide; link_contra Hlinked. }
  split_and!; [done| |done|by apply connectBars_linked|].
  - intros z. subst s'. rewrite Ha.
    destruct (barBelow s a) as [x|] eqn:Hx, (barAbove s a) as [y|] eqn:Hy; simpl;
      repeat case_decide; link_contra Hlinked.
  - intros rank Hrank x y. rewrite Hbelow.
    repeat case_decide; [done| |by apply Hrank].
    intros Hy. apply Hrank in Hy. match goal with H : barBelow s x = Some a |- _ =>
      apply Hrank in H end. lia.
Qed.

(** ** [setBarsGroup] leaves the stacking alone *)

Lemma setBarsGroup_links s b g :
  (forall z, barBelow (setBarsGroup b g s) z = barBelow s z)
  /\ (forall z, barAbove (setBarsGroup b g s) z = barAbove s z)
  /\ (forall z, live (setBarsGroup b g s) z <-> live s z).
Proof.
  unfold setBarsGroup.
  set (s0 := match barsGroup s b with Some old => unregisterBars old b s | None => s end).
  assert (plotBars s0 = plotBars s) as Hs0 by (subst s0; by destruct (barsGroup s b)).
  set (s1 := withBars (alter (assignBarsGroup g) b) s0).
  assert (plotBars (match g with Some new => registerBars new b s1 | None => s1 end)
          = alter (assignBarsGroup g) b (plotBars s)) as Hs1
    by (subst s1; destruct g; simpl; by rewrite Hs0).
  unfold barBelow, barAbove, live. rewrite Hs1.
  split; [|split]; intros z; rewrite lookup_alter; case_decide; subst; try done;
    destruct (plotBars s !! z); simpl; try done.
Qed.

(** ** [moveAbove] and the ways out of a stack *)

Lemma moveAbove_splice s a b :
  linked s -> acyclic s -> live s a -> live s b -> a <> b ->
  sameAxes s a b = true ->
  let s' := moveAbove a (Some b) s in
  barBelow s' a = Some b
  /\ barAbove s' b = Some a
  /\ barAbove s' a
     = (if decide (barAbove s b = Some a) then barAbove s a else barAbove s b)
  /\ (forall c, barAbove s b = Some c -> c <> a -> barBelow s' c = Some a)
  /\ linked s'
  /\ acyclic s'
  /\ (forall z, live s' z <-> live s z).
Proof.
  intros Hlinked Hacyclic Hla Hlb Hab Haxes s'.
  destruct (spliceOut_links s a Hlinked Hacyclic Hla) as (Hb1 & Ha1 & Hl1 & Hlinked1 & Hrank1).
  set (s1 := connectBars (barBelow s a) (barAbove s a) s) in *.
  set (s2 := match barAbove s1 b with
             | Some ba => connectBars (Some a) (Some ba) s1
             | None => s1
             end).
  assert (s' = connectBars (Some b) (Some a) s2) as Hs'.
  { subst s' s2 s1. unfold moveAbove.
    rewrite decide_False by congruence. simpl. by rewrite Haxes. }
  assert (barBelow s1 a = None) as Hba1 by (by rewrite Hb1, decide_True).
  assert (barAbove s1 a = None) as Haa1 by (by rewrite Ha1, decide_True).
  assert (barAbove s1 b
          = if decide (barAbove s b = Some a) then barAbove s a else barAbove s b) as Hab1
    by (by rewrite Ha1, decide_False).
  assert (barAbove s2 a = barAbove s1 b
          /\ barAbove s2 b = None
          /\ barBelow s2 a = None
          /\ (forall z, barBelow s2 z
                        = if decide (barAbove s1 b = Some z) then Some a
                          else barBelow s1 z)
          /\ linked s2
          /\ (forall z, live s2 z <-> live s1 z)) as (Haa2 & Hab2 & Hba2 & Hc2 & Hlinked2 & Hl2).
  { subst s2. destruct (barAbove s1 b) as [c|] eqn:Hc.
    - assert (c <> a) as Hca by (intros ->; apply Hlinked1 in Hc; congruence).
      assert (live s1 c) as Hlc by (apply Hlinked1 in Hc; by eapply barBelow_live).
      assert (live s1 a) as Hla1 by (by apply Hl1).
      destruct (connectBars_links s1 (Some a) (Some c)) as (Ha & Hb & Hl); [done..|].
      split_and!.
      + rewrite Ha. by rewrite decide_True.
      + rewrite Ha. rewrite decide_False by congruence. simpl.
        apply Hlinked1 in Hc. by rewrite decide_True.
      + rewrite Hb. rewrite decide_False by congruence. simpl.
        rewrite Haa1. by rewrite decide_False.
      + intros z. rewrite Hb. simpl. rewrite Haa1.
        repeat case_decide; simplify_eq; done.
      + by apply connectBars_linked.
      + done.
    - split_and!; try done.
  }
  assert (live s2 a) as Hla2 by (by apply Hl2, Hl1).
  assert (live s2 b) as Hlb2 by (by apply Hl2, Hl1).
  destruct (connectBars_links s2 (Some b) (Some a)) as (Ha & Hb & Hl); [done..|].
  rewrite Hs'. split_and!.
  - rewrite Hb. by rewrite decide_True.
  - rewrite Ha. by rewrite decide_True.
  - rewrite Ha. rewrite decide_False by congruence. simpl.
    rewrite Hba2. rewrite decide_False by done. by rewrite Haa2.
  - intros c Hc Hca. rewrite Hb. rewrite decide_False by congruence. simpl.
    rewrite Hab2. rewrite decide_False by done. rewrite Hc2.
    rewrite decide_True; [done|]. rewrite Hab1. by rewrite decide_False by congruence.
  - by apply connectBars_linked.
  - destruct Hacyclic as [rank Hrank].
    exists (fun x => if decide (x = a) then (2 * rank b + 1)%nat else (2 * rank x)%nat).
    intros x y. rewrite Hb. simpl. rewrite Hab2, Hc2.
    pose proof (Hrank1 rank Hrank) as Hrank'.
    repeat case_decide; intros Hy; simplify_eq; saturate_links Hlinked1;
      try congruence;
      repeat match goal with
             | H : barBelow s1 _ = Some _ |- _ => apply Hrank' in H
             end;
      lia.
  - intros z. by rewrite Hl, Hl2, Hl1.
Qed.

Lemma moveBelow_splice s a b :
  linked s -> acyclic s -> live s a -> live s b -> a <> b ->
  sameAxes s a b = true ->
  let s' := moveBelow a (Some b) s in
  barAbove s' a = Some b
  /\ barBelow s' b = Some a
  /\ barBelow s' a
     = (if decide (barBelow s b = Some a) then barBelow s a else barBelow s b)
  /\ (forall c, barBelow s b = Some c -> c <> a -> barAbove s' c = Some a)
  /\ linked s'
  /\ acyclic s'
  /\ (forall z, live s' z <-> live s z).
Proof.
  intros Hlinked Hacyclic Hla Hlb Hab Haxes s'.
  destruct (spliceOut_links s a Hlinked Hacyclic Hla) as (Hb1 & Ha1 & Hl1 & Hlinked1 & Hrank1).
  set (s1 := connectBars (barBelow s a) (barAbove s a) s) in *.
  set (s2 := match barBelow s1 b with
             | Some bb => connectBars (Some bb) (Some a) s1
             | None => s1
             end).
  assert (s' = connectBars (Some a) (Some b) s2) as Hs'.
  { subst s' s2 s1. unfold moveBelow.
    rewrite decide_False by congruence. simpl. by rewrite Haxes. }
  assert (barBelow s1 a = None) as Hba1 by (by rewrite Hb1, decide_True).
  assert (barAbove s1 a = None) as Haa1 by (by rewrite Ha1, decide_True).
  assert (barBelow s1 b
          = if decide (barBelow s b = Some a) then barBelow s a else barBelow s b) as Hbb1
    by (by rewrite Hb1, decide_False).
  assert (barAbove s2 a = None
          /\ (forall z, barBelow s2 z
                        = if decide (z = a) then barBelow s1 b
                          else if decide (z = b) then None
                          else barBelow s1 z)
          /\ (forall c, barBelow s1 b = Some c -> barAbove s2 c = Some a)
          /\ linked s2
          /\ (forall z, live s2 z <-> live s1 z)) as (Haa2 & Hb2 & Hc2 & Hlinked2 & Hl2).
  { subst s2. destruct (barBelow s1 b) as [c|] eqn:Hc.
    - assert (c <> a) as Hca by (intros ->; apply Hlinked1 in Hc; congruence).
      assert (live s1 c) as Hlc by (apply Hlinked1 in Hc; by eapply barAbove_live).
      assert (live s1 a) as Hla1 by (by apply Hl1).
      destruct (connectBars_links s1 (Some c) (Some a)) as (Ha & Hb & Hl); [done..|].
      split_and!.
      + rewrite Ha. rewrite decide_False by congruence. simpl.
        rewrite Hba1. by rewrite decide_False.
      + intros z. rewrite Hb. simpl.
        apply Hlinked1 in Hc.
        repeat case_decide; simplify_eq; done.
      + intros c' [= <-]. rewrite Ha. by rewrite decide_True.
      + by apply connectBars_linked.
      + done.
    - split_and!; try done.
      intros z. repeat case_decide; simplify_eq; done.
  }
  assert (live s2 a) as Hla2 by (by apply Hl2, Hl1).
  assert (live s2 b) as Hlb2 by (by apply Hl2, Hl1).
  assert (barBelow s2 b = None) as Hbb2
    by (rewrite Hb2; rewrite decide_False by congruence; by rewrite decide_True).
  destruct (connectBars_links s2 (Some a) (Some b)) as (Ha & Hb & Hl); [done..|].
  rewrite Hs'. split_and!.
  - rewrite Ha. by rewrite decide_True.
  - rewrite Hb. by rewrite decide_True.
  - rewrite Hb. rewrite decide_False by congruence. simpl.
    rewrite Haa2. rewrite decide_False by done. rewrite Hb2, decide_True by done.
    exact Hbb1.
  - intros c Hc Hca. rewrite Ha. rewrite decide_False by congruence. simpl.
    rewrite Hbb2. rewrite decide_False by done. apply Hc2.
    rewrite Hbb1. by rewrite decide_False by congruence.
  - by apply connectBars_linked.
  - destruct Hacyclic as [rank Hrank].
    exists (fun x => if decide (x = a) then (2 * rank b + 1)%nat else (2 * rank x + 2)%nat).
    intros x y. rewrite Hb. simpl. rewrite Haa2, Hb2.
    pose proof (Hrank1 rank Hrank) as Hrank'.
    repeat case_decide; intros Hy; simplify_eq; saturate_links Hlinked1;
      try congruence;
      repeat match goal with
             | H : barBelow s1 _ = Some _ |- _ => apply Hrank' in H
             end;
      lia.
  - intros z. by rewrite Hl, Hl2, Hl1.
Qed.

Lemma spliceOut_splicedOut s a s' :
  linked s -> acyclic s ->
  (forall z, barBelow s' z
             = if decide (z = a) then None
               else if decide (barBelow s z = Some a) then barBelow s a
               else barBelow s z) ->
  (forall z, barAbove s' z
             = if decide (z = a) then None
               else if decide (barAbove s z = Some a) then barAbove s a
               else barAbove s z) ->
  splicedOut s a s'.
Proof.
  intros Hlinked Hacyclic Hb Ha.
  pose proof (acyclic_irrefl s a Hacyclic) as Hirr.
  assert (barAbove s a <> Some a) as Hirr' by (intros Hx; by apply Hlinked in Hx).
  unfold splicedOut. split_and!.
  - intros x y Hx Hy. split.
    + rewrite Ha. rewrite decide_False by congruence.
      rewrite decide_True by (by apply Hlinked). done.
    + rewrite Hb. rewrite decide_False by congruence.
      rewrite decide_True by (by apply Hlinked). done.
  - intros x Hx Hy. rewrite Ha. rewrite decide_False by congruence.
    rewrite decide_True by (by apply Hlinked). done.
  - intros y Hy Hx. rewrite Hb. rewrite decide_False by congruence.
    rewrite decide_True by (by apply Hlinked). done.
  - intros z Hz Hza. rewrite Hb. by rewrite !decide_False.
  - intros z Hz Hza. rewrite Ha. by rewrite !decide_False.
  - rewrite Hb. by rewrite decide_True.
  - rewrite Ha. by rewrite decide_True.
Qed.

Lemma moveBelow_none s a : moveBelow a None s = connectBars (barBelow s a) (barAbove s a) s.
Proof. done. Qed.

Lemma destroyBars_links s a :
  linked s -> acyclic s -> live s a ->
  (forall z, barBelow (destroyBars a s) z
             = if decide (z = a) then None
               else if decide (barBelow s z = Some a) then barBelow s a
               else barBelow s z)
  /\ (forall z, barAbove (destroyBars a s) z
                = if decide (z = a) then None
                  else if decide (barAbove s z = Some a) then barAbove s a
                  else barAbove s z)
  /\ (forall z, live (destroyBars a s) z <-> live s z /\ z <> a).
Proof.
  intros Hlinked Hacyclic Hlive.
  destruct (setBarsGroup_links s a None) as (Hb0 & Ha0 & Hl0).
  set (s0 := setBarsGroup a None s) in *.
  assert (linked s0) as Hlinked0 by (intros x y; by rewrite Ha0, Hb0).
  assert (acyclic s0) as Hacyclic0.
  { destruct Hacyclic as [rank Hrank]. exists rank. intros x y. rewrite Hb0. apply Hrank. }
  assert (live s0 a) as Hlive0 by (by apply Hl0).
  pose proof (acyclic_irrefl s a Hacyclic) as Hirr.
  assert (barAbove s a <> Some a) as Hirr' by (intros Hx; by apply Hlinked in Hx).
  destruct (spliceOut_links s0 a Hlinked0 Hacyclic0 Hlive0) as (Hb1 & Ha1 & Hl1 & _ & _).
  set (s1 := connectBars (barBelow s0 a) (barAbove s0 a) s0) in *.
  assert (destroyBars a s
          = withBars
              (fun m =>
                 (fun bar : QCPBars =>
                    assignBarAbove (forget a (mBarAbove bar))
                      (assignBarBelow (forget a (mBarBelow bar)) bar))
                   <$> delete a m) s1) as ->.
  { unfold destroyBars. fold s0.
    destruct (barBelow s0 a) eqn:Hx, (barAbove s0 a) eqn:Hy; simpl; done. }
  assert (forall z, barBelow s1 z <> Some a) as Hnb.
  { intros z. rewrite Hb1, !Hb0. repeat case_decide; congruence. }
  assert (forall z, barAbove s1 z <> Some a) as Hna.
  { intros z. rewrite Ha1, !Ha0. repeat case_decide; congruence. }
  split; [|split].
  - intros z. specialize (Hnb z). rewrite <- !Hb0.
    transitivity (if decide (z = a) then None else barBelow s1 z);
      [|rewrite Hb1; by case_decide].
    unfold barBelow in *; simpl. rewrite lookup_fmap, lookup_delete.
    repeat case_decide; simplify_eq; try done.
    destruct (plotBars s1 !! z) as [bar|]; simpl in *; [|done].
    unfold forget. by rewrite decide_False.
  - intros z. specialize (Hna z). rewrite <- !Ha0.
    transitivity (if decide (z = a) then None else barAbove s1 z);
      [|rewrite Ha1; by case_decide].
    unfold barAbove in *; simpl. rewrite lookup_fmap, lookup_delete.
    repeat case_decide; simplify_eq; try done.
    destruct (plotBars s1 !! z) as [bar|]; simpl in *; [|done].
    unfold forget. by rewrite decide_False.
  - intros z. rewrite <- Hl0, <- Hl1. unfold live; simpl.
    rewrite lookup_fmap, lookup_delete, fmap_is_Some.
    case_decide; subst; [|naive_solver].
    split; [by intros [? ?]|naive_solver].
Qed.

(** Consistent, acyclic links stay so through every stacking operation. *)
Lemma stacking_preserved s a (target : option addr) :
  linked s -> acyclic s -> live s a -> from_option (live s) True target ->
  (linked (moveAbove a target s) /\ acyclic (moveAbove a target s))
  /\ (linked (moveBelow a target s) /\ acyclic (moveBelow a target s))
  /\ (linked (destroyBars a s) /\ acyclic (destroyBars a s)).
Proof.
  intros Hlinked Hacyclic Hla Htarget.
  destruct (spliceOut_links s a Hlinked Hacyclic Hla) as (Hb1 & Ha1 & _ & Hlinked1 & Hrank1).
  assert (acyclic (connectBars (barBelow s a) (barAbove s a) s)) as Hacyclic1.
  { destruct Hacyclic as [rank Hrank]. exists rank. by apply Hrank1. }
  split; [|split].
  - destruct target as [b|]; [|done].
    destruct (decide (b = a)) as [->|Hne].
    { unfold moveAbove. by rewrite decide_True. }
    destruct (sameAxes s a b) eqn:Haxes.
    + by destruct (moveAbove_splice s a b) as (_ & _ & _ & _ & ? & ? & _).
    + unfold moveAbove. rewrite decide_False by congruence. simpl. by rewrite Haxes.
  - destruct target as [b|]; [|done].
    destruct (decide (b = a)) as [->|Hne].
    { unfold moveBelow. by rewrite decide_True. }
    destruct (sameAxes s a b) eqn:Haxes.
    + by destruct (moveBelow_splice s a b) as (_ & _ & _ & _ & ? & ? & _).
    + unfold moveBelow. rewrite decide_False by congruence. simpl. by rewrite Haxes.
  - destruct (destroyBars_links s a) as (Hb & Ha & _); [done..|].
    split.
    + intros x y. rewrite Ha, Hb, <- Ha1, <- Hb1. apply Hlinked1.
    + destruct Hacyclic1 as [rank Hrank]. exists rank.
      intros x y. rewrite Hb, <- Hb1. apply Hrank.
Qed.

(** ** Well-formedness from the object-wise conditions *)

Lemma linked_by_check s : map_Forall (linkedAt s) (plotBars s) -> linked s.
Proof.
  intros Hcheck x y. unfold barAbove, barBelow. split.
  - destruct (plotBars s !! x) as [bar|] eqn:Hx; simpl; [|done].
    intros Hy. destruct (Hcheck x bar Hx) as [[Hnone|Hsome] _]; [congruence|].
    rewrite Hy in Hsome. exact Hsome.
  - destruct (plotBars s !! y) as [bar|] eqn:Hy; simpl; [|done].
    intros Hx. destruct (Hcheck y bar Hy) as [_ [Hnone|Hsome]]; [congruence|].
    rewrite Hx in Hsome. exact Hsome.
Qed.

Lemma acyclic_by_check s rank : map_Forall (rankedAt rank) (plotBars s) -> acyclic s.
Proof.
  intros Hcheck. exists rank. intros x y. unfold barBelow.
  destruct (plotBars s !! x) as [bar|] eqn:Hx; simpl; [|done].
  intros Hy. specialize (Hcheck x bar Hx). unfold rankedAt in Hcheck.
  rewrite Hy in Hcheck. simpl in Hcheck. lia.
Qed.

(** C4: for distinct bars [a] and [b] on the same axes, [a.moveAbove(b)]
    puts [a] directly above [b], and the bar that was above [b] directly
    above [a]; [a.moveBelow(0)] and the destructor of [a] link the bars that
    were below and above [a] to each other and leave every other link as it
    was. *)
Theorem stack_moves (s : Plot) (a b : addr) :
  linked s -> acyclic s -> live s a -> live s b -> a <> b ->
  sameAxes s a b = true ->
  (barBelow (moveAbove a (Some b) s) a = Some b
   /\ barAbove (moveAbove a (Some b) s) b = Some a
   /\ (forall c, barAbove s b = Some c -> c <> a ->
         barAbove (moveAbove a (Some b) s) a = Some c
         /\ barBelow (moveAbove a (Some b) s) c = Some a))
  /\ splicedOut s a (moveBelow a None s)
  /\ splicedOut s a (destroyBars a s)
  /\ ~ live (destroyBars a s) a.
Proof.
  intros Hlinked Hacyclic Hla Hlb Hab Haxes.
  destruct (moveAbove_splice s a b) as (H1 & H2 & H3 & H4 & _); [done..|].
  split_and!; try done.
  - intros c Hc Hca. split; [|by apply H4].
    rewrite H3, decide_False by congruence. done.
  - destruct (spliceOut_links s a) as (Hb & Ha & _); [done..|].
    by apply spliceOut_splicedOut.
  - destruct (destroyBars_links s a) as (Hb & Ha & _); [done..|].
    by apply spliceOut_splicedOut.
  - destruct (destroyBars_links s a) as (_ & _ & Hl); [done..|].
    rewrite Hl. by intros [_ ?].
Qed.

(** C9: when the target uses another key axis or another value axis, both
    moves write the diagnostic and change nothing else, so every stacking
    link is as it was; a move relative to the bar itself changes nothing at
    all. *)
Theorem move_axis_mismatch (s : Plot) (a b : addr) :
  keyAxis s b <> keyAxis s a \/ valueAxis s b <> valueAxis s a ->
  moveBelow a (Some b) s = qDebug axisMismatch s
  /\ moveAbove a (Some b) s = qDebug axisMismatch s
  /\ plotBars (qDebug axisMismatch s) = plotBars s
  /\ debugOutput (qDebug axisMismatch s) = debugOutput s ++ [axisMismatch]
  /\ (forall z, barBelow (moveBelow a (Some b) s) z = barBelow s z
                /\ barAbove (moveBelow a (Some b) s) z = barAbove s z
                /\ barBelow (moveAbove a (Some b) s) z = barBelow s z
                /\ barAbove (moveAbove a (Some b) s) z = barAbove s z)
  /\ moveBelow a (Some a) s = s
  /\ moveAbove a (Some a) s = s.
Proof.
  intros Hmismatch.
  assert (a <> b) as Hab by (intros ->; by destruct Hmismatch).
  assert (sameAxes s a b = false) as Haxes.
  { unfold sameAxes. destruct Hmismatch.
    - by rewrite bool_decide_eq_false_2.
    - rewrite (bool_decide_eq_false_2 (valueAxis s b = valueAxis s a)) by done.
      by rewrite andb_false_r. }
  assert (moveBelow a (Some b) s = qDebug axisMismatch s) as Hbelow.
  { unfold moveBelow. rewrite decide_False by congruence. simpl. by rewrite Haxes. }
  assert (moveAbove a (Some b) s = qDebug axisMismatch s) as Habove.
  { unfold moveAbove. rewrite decide_False by congruence. simpl. by rewrite Haxes. }
  split_and!; try done.
  - intros z. by rewrite Hbelow, Habove.
  - unfold moveBelow. by rewrite decide_True.
  - unfold moveAbove. by rewrite decide_True.
Qed.

End StackingFacts.

Section StackingExamples.
Import Bars.

Lemma stackedPlot_linked : linked stackedPlot.
Proof. apply linked_by_check, (bool_decide_unpack _). by vm_compute. Qed.

Lemma stackedPlot_acyclic : acyclic stackedPlot.
Proof. apply (acyclic_by_check _ (fun x => x)), (bool_decide_unpack _). by vm_compute. Qed.

(** C4 on an instance: bars 3 moved above bars 1, on which bars 2 stand. *)
Lemma stack_moves_stackedPlot :
  (barBelow (moveAbove 3%nat (Some 1%nat) stackedPlot) 3%nat = Some 1%nat
   /\ barAbove (moveAbove 3%nat (Some 1%nat) stackedPlot) 1%nat = Some 3%nat
   /\ (forall c, barAbove stackedPlot 1%nat = Some c -> c <> 3%nat ->
         barAbove (moveAbove 3%nat (Some 1%nat) stackedPlot) 3%nat = Some c
         /\ barBelow (moveAbove 3%nat (Some 1%nat) stackedPlot) c = Some 3%nat))
  /\ splicedOut stackedPlot 3%nat (moveBelow 3%nat None stackedPlot)
  /\ splicedOut stackedPlot 3%nat (destroyBars 3%nat stackedPlot)
  /\ ~ live (destroyBars 3%nat stackedPlot) 3%nat.
Proof.
  apply (stack_moves stackedPlot 3%nat 1%nat).
  - exact stackedPlot_linked.
  - exact stackedPlot_acyclic.
  - vm_compute. eauto.
  - vm_compute. eauto.
  - discriminate.
  - vm_compute. reflexivity.
Defined.

(** C9 on an instance: bars 4 use key axis 102, bars 3 key axis 100. *)
Lemma move_axis_mismatch_stackedPlot :
  moveBelow 3%nat (Some 4%nat) stackedPlot = qDebug axisMismatch stackedPlot
  /\ moveAbove 3%nat (Some 4%nat) stackedPlot = qDebug axisMismatch stackedPlot
  /\ plotBars (qDebug axisMismatch stackedPlot) = plotBars stackedPlot
  /\ debugOutput (qDebug axisMismatch stackedPlot)
     = debugOutput stackedPlot ++ [axisMismatch]
  /\ (forall z, barBelow (moveBelow 3%nat (Some 4%nat) stackedPlot) z
                = barBelow stackedPlot z
                /\ barAbove (moveBelow 3%nat (Some 4%nat) stackedPlot) z
                   = barAbove stackedPlot z
                /\ barBelow (moveAbove 3%nat (Some 4%nat) stackedPlot) z
                   = barBelow stackedPlot z
                /\ barAbove (moveAbove 3%nat (Some 4%nat) stackedPlot) z
                   = barAbove stackedPlot z)
  /\ moveBelow 3%nat (Some 3%nat) stackedPlot = stackedPlot
  /\ moveAbove 3%nat (Some 3%nat) stackedPlot = stackedPlot.
Proof.
  apply (move_axis_mismatch stackedPlot 3%nat 4%nat).
  left. vm_compute. discriminate.
Defined.

End StackingExamples.

(* ===================================================================== *)
(** * Part VI: group membership                                          *)
(* ===================================================================== *)

Section MembershipFacts.
Import Bars.
Implicit Types (s : Plot) (b x : addr) (g h : addr) (l : list addr).

(** ** The list operations *)

Lemma indexOf_lookup x l i : indexOf x l = Some i -> l !! i = Some x.
Proof.
  revert i; induction l as [|y l IH]; intros i; simpl; [done|].
  case_decide; subst.
  - by intros [= <-].
  - destruct (indexOf x l) as [j|]; simpl; [|done].
    intros [= <-]. by apply IH.
Qed.

Lemma indexOf_elem_of x l : is_Some (indexOf x l) <-> x ∈ l.
Proof.
  induction l as [|y l IH]; simpl.
  - split; [by intros [? ?]|by intros ?%elem_of_nil].
  - case_decide; subst.
    + split; [intros _; by left|eauto].
    + rewrite fmap_is_Some, IH. rewrite elem_of_cons. naive_solver.
Qed.

Lemma contains_elem_of l x : contains l x = true <-> x ∈ l.
Proof. unfold contains. rewrite bool_decide_eq_true. apply indexOf_elem_of. Qed.

Lemma contains_not_elem_of l x : contains l x = false <-> x ∉ l.
Proof. rewrite <- contains_elem_of. by destruct (contains l x). Qed.

Lemma removeOne_notin x l : x ∉ l -> removeOne x l = l.
Proof.
  induction l as [|y l IH]; simpl; [done|].
  rewrite not_elem_of_cons. intros [Hne Hnotin].
  rewrite decide_False by done. by rewrite IH.
Qed.

Lemma removeOne_elem_of x y l :
  NoDup l -> y ∈ removeOne x l <-> y ∈ l /\ y <> x.
Proof.
  induction 1 as [|z l Hz Hnd IH]; simpl.
  - split; [by intros ?%elem_of_nil|by intros [?%elem_of_nil _]].
  - case_decide; subst.
    + rewrite elem_of_cons. split; [|naive_solver].
      intros Hy. split; [by right|]. by intros ->.
    + rewrite !elem_of_cons, IH. naive_solver.
Qed.

Lemma removeOne_NoDup x l : NoDup l -> NoDup (removeOne x l).
Proof.
  induction 1 as [|z l Hz Hnd IH]; simpl; [constructor|].
  case_decide; [done|]. constructor; [|done].
  rewrite removeOne_elem_of by done. naive_solver.
Qed.

Lemma move_Permutation from to l : move from to l ≡ₚ l.
Proof.
  unfold move, insertAt. destruct (l !! from) as [x|] eqn:Hx; [|done].
  rewrite <- Permutation_middle, take_drop. symmetry. by apply delete_Permutation.
Qed.

(** ** Reads after the membership operations *)

Lemma barsGroup_live s b g : barsGroup s b = Some g -> live s b.
Proof. unfold barsGroup, live. destruct (plotBars s !! b); [eauto|done]. Qed.

Lemma bars_alter s (f : list addr -> list addr) g h :
  f [] = [] ->
  bars (withGroups (alter (fun grp => assignBars (f (mBars grp)) grp) g) s) h
  = if decide (h = g) then f (bars s g) else bars s h.
Proof.
  intros Hf. unfold bars, withGroups; simpl. rewrite lookup_alter.
  destruct (decide (g = h)) as [->|Hne].
  - rewrite decide_True by done. by destruct (plotGroups s !! h).
  - by rewrite decide_False by congruence.
Qed.

Lemma bars_registerBars s g b h :
  liveGroup s g ->
  bars (registerBars g b s) h
  = if decide (h = g)
    then (if contains (bars s g) b then bars s g else bars s g ++ [b])
    else bars s h.
Proof.
  intros [grp Hgrp]. unfold bars, registerBars, withGroups; simpl. rewrite lookup_alter.
  destruct (decide (g = h)) as [->|Hne].
  - rewrite decide_True by done. rewrite Hgrp; simpl.
    by destruct (contains (mBars grp) b).
  - by rewrite decide_False by congruence.
Qed.

Lemma bars_unregisterBars s g b h :
  bars (unregisterBars g b s) h
  = if decide (h = g) then removeOne b (bars s g) else bars s h.
Proof. unfold unregisterBars. by rewrite (bars_alter s (removeOne b)). Qed.

Lemma grouped_intro s :
  (forall b g, barsGroup s b = Some g <-> b ∈ bars s g) ->
  (forall g, NoDup (bars s g)) ->
  grouped s.
Proof.
  intros Hiff Hnd. split_and!; [done| |done].
  intros b g1 g2 H1 H2. apply Hiff in H1, H2. congruence.
Qed.

(** The two sides after [setBarsGroup]. *)
Lemma setBarsGroup_members s b (g : option addr) :
  grouped s -> live s b -> from_option (liveGroup s) True g ->
  (forall x, barsGroup (setBarsGroup b g s) x
             = if decide (x = b) then g else barsGroup s x)
  /\ (forall h, bars (setBarsGroup b g s) h
                = removeOne b (bars s h) ++ (if decide (g = Some h) then [b] else []))
  /\ (forall h, liveGroup (setBarsGroup b g s) h <-> liveGroup s h).
Proof.
  intros (Hiff & Hone & Hnd) [bar Hbar] Hg.
  unfold setBarsGroup.
  set (s0 := match barsGroup s b with Some old => unregisterBars old b s | None => s end).
  assert (plotBars s0 = plotBars s) as Hbars0 by (subst s0; by destruct (barsGroup s b)).
  assert (forall h, bars s0 h = removeOne b (bars s h)) as Hs0.
  { intros h. subst s0. destruct (barsGroup s b) as [old|] eqn:Hold.
    - rewrite bars_unregisterBars. case_decide; subst; [done|].
      rewrite removeOne_notin; [done|].
      intros Hin. apply Hiff in Hin. congruence.
    - rewrite removeOne_notin; [done|].
      intros Hin. apply Hiff in Hin. congruence. }
  assert (forall h, liveGroup s0 h <-> liveGroup s h) as Hlive0.
  { intros h. subst s0. destruct (barsGroup s b) as [old|]; [|done].
    unfold liveGroup, unregisterBars, withGroups; simpl. rewrite lookup_alter.
    case_decide; subst; [|done]. by rewrite fmap_is_Some. }
  set (s1 := withBars (alter (assignBarsGroup g) b) s0).
  assert (forall x, barsGroup s1 x = if decide (x = b) then g else barsGroup s x) as Hs1.
  { intros x. subst s1. unfold barsGroup; simpl. rewrite Hbars0, lookup_alter.
    repeat case_decide; subst; try done. by rewrite Hbar. }
  destruct g as [new|]; simpl in Hg.
  - split_and!.
    + intros x. apply Hs1.
    + intros h. rewrite bars_registerBars by (by apply Hlive0).
      change (bars s1) with (bars s0). rewrite !Hs0.
      assert (contains (removeOne b (bars s new)) b = false) as ->.
      { apply contains_not_elem_of. rewrite removeOne_elem_of by done. naive_solver. }
      repeat case_decide; simplify_eq; try done. by rewrite app_nil_r.
    + intros h. rewrite <- Hlive0.
      unfold liveGroup, registerBars, withGroups; simpl. rewrite lookup_alter.
      case_decide; subst; [|done]. by rewrite fmap_is_Some.
  - split_and!.
    + intros x. apply Hs1.
    + intros h. change (bars s1) with (bars s0). by rewrite Hs0, app_nil_r.
    + intros h. by rewrite <- Hlive0.
Qed.

Lemma setBarsGroup_grouped s b (g : option addr) :
  grouped s -> live s b -> from_option (liveGroup s) True g ->
  grouped (setBarsGroup b g s).
Proof.
  intros Hgrouped Hlive Hg.
  destruct (setBarsGroup_members s b g) as (Hgroup & Hbars & _); [done..|].
  destruct Hgrouped as (Hiff & Hone & Hnd).
  apply grouped_intro.
  - intros x h. rewrite Hgroup, Hbars, elem_of_app, removeOne_elem_of by done.
    rewrite <- Hiff.
    repeat case_decide; simplify_eq;
      rewrite ?elem_of_nil, ?list_elem_of_singleton; naive_solver.
  - intros h. rewrite Hbars. apply NoDup_app. split_and!.
    + by apply removeOne_NoDup.
    + intros x. rewrite removeOne_elem_of by done.
      case_decide; rewrite ?elem_of_nil, ?list_elem_of_singleton; naive_solver.
    + case_decide; [apply NoDup_singleton|constructor].
Qed.

Lemma grouped_permute s s' :
  grouped s ->
  (forall x, barsGroup s' x = barsGroup s x) ->
  (forall h, bars s' h ≡ₚ bars s h) ->
  grouped s'.
Proof.
  intros (Hiff & _ & Hnd) Hgroup Hbars. apply grouped_intro.
  - intros x h. by rewrite Hgroup, Hbars.
  - intros h. by rewrite Hbars.
Qed.

Lemma clear_fold s l :
  grouped s -> Forall (live s) l ->
  grouped (foldl (fun s b => setBarsGroup b None s) s l)
  /\ (forall g, bars s g = l ->
        bars (foldl (fun s b => setBarsGroup b None s) s l) g = [])
  /\ (forall h, liveGroup (foldl (fun s b => setBarsGroup b None s) s l) h
                <-> liveGroup s h).
Proof.
  revert s; induction l as [|b l IH]; intros s Hgrouped Hlive; simpl; [done|].
  apply Forall_cons in Hlive as [Hb Hl].
  destruct (setBarsGroup_members s b None) as (_ & Hbars & Hlg); [done..|].
  destruct (IH (setBarsGroup b None s)) as (IH1 & IH2 & IH3).
  - by apply setBarsGroup_grouped.
  - eapply Forall_impl; [exact Hl|]. intros x. by apply setBarsGroup_links.
  - split_and!; [done| |].
    + intros g Hg. apply IH2. rewrite Hbars, Hg, app_nil_r. simpl.
      by rewrite decide_True.
    + intros h. by rewrite IH3, Hlg.
Qed.

Lemma members_live s g : grouped s -> Forall (live s) (bars s g).
Proof.
  intros (Hiff & _). apply Forall_forall. intros b Hb.
  apply Hiff in Hb. by eapply barsGroup_live.
Qed.

(** C6: every public operation on group membership keeps both sides in
    step: afterwards a bar refers to a group exactly when the member list
    of the group holds the bar, no bar is in two groups and no member list
    holds a bar twice. *)
Theorem membership_preserved (s : Plot) (op : GroupOp) :
  grouped s -> validGroupOp s op -> grouped (runGroupOp op s).
Proof.
  intros Hgrouped Hvalid.
  destruct op as [g b|g i b|g b|g|b g|g]; unfold runGroupOp, validGroupOp in *.
  - (* append *)
    destruct Hvalid as [Hg Hb]. unfold append. destruct b as [b|]; [|done].
    destruct (contains (bars s g) b); [done|].
    by apply setBarsGroup_grouped.
  - (* insert *)
    destruct Hvalid as [Hg Hb]. unfold insert. destruct b as [b|]; [|done].
    set (s1 := if negb (contains (bars s g) b) then setBarsGroup b (Some g) s else s).
    assert (grouped s1) as Hgrouped1.
    { subst s1. destruct (contains (bars s g) b); [done|].
      by apply setBarsGroup_grouped. }
    destruct (indexOf b (bars s1 g)) as [from|]; [|done].
    eapply grouped_permute; [exact Hgrouped1|done|].
    intros h. rewrite (bars_alter s1 (move from _)) by done.
    case_decide; subst; [apply move_Permutation|done].
  - (* remove *)
    destruct Hvalid as [Hg Hb]. unfold remove. destruct b as [b|]; [|done].
    destruct (contains (bars s g) b); [|done].
    by apply setBarsGroup_grouped.
  - (* clear *)
    by apply clear_fold, members_live.
  - (* setBarsGroup *)
    destruct Hvalid as [Hb Hg]. by apply setBarsGroup_grouped.
  - (* the destructor of the group *)
    destruct (clear_fold s (bars s g)) as (Hgrouped1 & Hempty & _);
      [done|by apply members_live|].
    specialize (Hempty g eq_refl). fold (clear g s) in Hgrouped1, Hempty.
    unfold destroyGroup. destruct Hgrouped1 as (Hiff & _ & Hnd).
    assert (forall h, bars (withGroups (delete g) (clear g s)) h
                      = if decide (h = g) then [] else bars (clear g s) h) as Hbars.
    { intros h. unfold bars at 1; simpl. rewrite lookup_delete.
      repeat case_decide; subst; done. }
    apply grouped_intro.
    + intros x h. rewrite Hbars. change (barsGroup (withGroups _ _)) with (barsGroup (clear g s)).
      rewrite Hiff. case_decide; subst; [by rewrite Hempty|done].
    + intros h. rewrite Hbars. case_decide; [constructor|done].
Qed.

Lemma grouped_by_check s :
  map_Forall (groupedAt s) (plotBars s) ->
  map_Forall (membersAt s) (plotGroups s) ->
  grouped s.
Proof.
  intros Hbars Hgroups. apply grouped_intro.
  - intros b g. split.
    + unfold barsGroup. destruct (plotBars s !! b) as [bar|] eqn:Hb; simpl; [|done].
      intros Hg. specialize (Hbars b bar Hb). unfold groupedAt in Hbars.
      by rewrite Hg in Hbars.
    + unfold bars at 1. destruct (plotGroups s !! g) as [grp|] eqn:Hg; simpl.
      * intros Hin. destruct (Hgroups g grp Hg) as [Hall _].
        by eapply Forall_forall in Hall.
      * by intros ?%elem_of_nil.
  - intros g. unfold bars. destruct (plotGroups s !! g) as [grp|] eqn:Hg; simpl.
    + by destruct (Hgroups g grp Hg).
    + constructor.
Qed.

End MembershipFacts.

Section MembershipExamples.
Import Bars.

Lemma groupPlot_grouped : grouped (groupPlot 100%nat).
Proof. apply grouped_by_check; apply (bool_decide_unpack _); by vm_compute. Qed.

(** C6 on an instance: the second member of the group of [groupPlot] is
    moved to the front. *)
Lemma membership_preserved_groupPlot :
  grouped (runGroupOp (opInsert 10%nat 0 (Some 2%nat)) (groupPlot 100%nat)).
Proof.
  apply membership_preserved.
  - exact groupPlot_grouped.
  - split; vm_compute; eauto.
Defined.

End MembershipExamples.

(* ===================================================================== *)
(** * Part VII: stacked values                                           *)
(* ===================================================================== *)

Section ValueFacts.
Import Bars.
Open Scope float_scope.
Implicit Types (s : Plot) (d : list QCPBarsData) (p q : QCPBarsData).

(** ** The loop of [getStackedBaseValue] *)

(** The tolerance of the loop is the tolerance of the specification. *)
Lemma stackEpsilon_tolerance key : stackEpsilon key = keyTolerance key.
Proof.
  unfold stackEpsilon, keyTolerance. destruct (key =? 0) eqn:Hkey; [done|].
  by rewrite qAbs_abs.
Qed.

Lemma stackStep_near key positive acc p :
  stackStep key (stackEpsilon key) positive acc p
  = if nearKey key p
    then (if positive then larger acc (value p) else smaller acc (value p))
    else acc.
Proof.
  unfold stackStep, nearKey. rewrite stackEpsilon_tolerance.
  destruct (_ && _); [|done].
  unfold larger, smaller. destruct positive; simpl; by rewrite ?orb_false_r.
Qed.

Lemma stack_fold_far key positive acc d :
  Forall (fun p => nearKey key p = false) d ->
  foldl (stackStep key (stackEpsilon key) positive) acc d = acc.
Proof.
  revert acc; induction d as [|p d IH]; intros acc Hfar; simpl; [done|].
  apply Forall_cons in Hfar as [Hp Hd].
  rewrite stackStep_near, Hp. by apply IH.
Qed.

Lemma firstNotBelow_before k d i p :
  (i < firstNotBelow k d)%nat -> d !! i = Some p -> (key p <? k) = true.
Proof.
  revert i; induction d as [|p0 d IH]; intros i; simpl; [lia|].
  destruct (key p0 <? k) eqn:Hk; [|lia].
  destruct i as [|i]; simpl.
  - by intros _ [= <-].
  - intros Hi. apply IH. lia.
Qed.

Lemma firstAbove_after k d i p :
  sortedByKey d -> (firstAbove k d < i)%nat -> d !! i = Some p -> (key p <? k) = false.
Proof.
  revert i; induction d as [|p0 d IH]; intros i; simpl; [done|].
  intros [Hall Hsorted]. destruct (k <? key p0) eqn:Hk.
  - destruct i as [|i]; [lia|]. simpl.
    intros _ Hp. apply list_elem_of_lookup_2 in Hp.
    eapply Forall_forall in Hall; [|exact Hp]. simpl in Hall.
    destruct (key p <? k) eqn:Hpk; [|done].
    by rewrite (ltb_trans _ _ _ Hpk Hk) in Hall.
  - destruct i as [|i]; [lia|]. simpl. intros Hi. apply IH; [done|lia].
Qed.

(** The points outside the run between the two range queries are not near
    the key, so the loop over the run is the loop over all points. *)
Lemma stack_fold_window key positive d (b e : nat) acc :
  (forall i p, d !! i = Some p -> (i < b \/ e <= i)%nat -> nearKey key p = false) ->
  foldl (stackStep key (stackEpsilon key) positive) acc (take (e - b) (drop b d))
  = foldl (stackStep key (stackEpsilon key) positive) acc d.
Proof.
  intros Hfar.
  transitivity
    (foldl (stackStep key (stackEpsilon key) positive) acc
       (take b d ++ take (e - b) (drop b d) ++ drop (e - b) (drop b d)));
    [|by rewrite !take_drop].
  rewrite !foldl_app.
  rewrite (stack_fold_far key positive acc (take b d)).
  - rewrite (stack_fold_far key positive _ (drop (e - b) (drop b d))); [done|].
    apply Forall_forall. intros p Hp.
    apply list_elem_of_lookup in Hp as [i Hi].
    rewrite !lookup_drop in Hi. apply (Hfar _ _ Hi). lia.
  - apply Forall_forall. intros p Hp.
    apply list_elem_of_lookup in Hp as [i Hi].
    apply lookup_take_Some in Hi as [Hi Hlt]. apply (Hfar _ _ Hi). lia.
Qed.

Lemma stackMax_all_points d key positive :
  sortedByKey d ->
  stackMax d key positive
  = foldl (stackStep key (stackEpsilon key) positive) 0 d.
Proof.
  intros Hsorted. unfold stackMax. apply stack_fold_window.
  intros i p Hi [Hbefore|Hafter]; unfold nearKey; rewrite <- stackEpsilon_tolerance;
    apply andb_false_iff.
  - left. apply ltb_asym.
    apply (firstNotBelow_before _ d i); [|done].
    unfold findBeginBelowKey in *; lia.
  - right. apply (firstAbove_after _ d i); [done| |done].
    apply lookup_lt_Some in Hi. unfold findEndAboveKey in *. lia.
Qed.

(** ** The largest and the smallest value on a side *)

Lemma larger_above x y : onOrAbove x -> (0 <? y) = true -> onOrAbove (larger x y).
Proof. unfold larger. intros Hx Hy. destruct (x <? y); [by right|done]. Qed.

Lemma smaller_below x y : onOrBelow x -> (y <? 0) = true -> onOrBelow (smaller x y).
Proof. unfold smaller. intros Hx Hy. destruct (y <? x); [by right|done]. Qed.

Lemma larger_off_side x y : onOrAbove x -> (0 <? y) = false -> larger x y = x.
Proof.
  unfold larger. intros [->|Hx] Hy; [by rewrite Hy|].
  destruct (x <? y) eqn:Hxy; [|done]. by rewrite (ltb_trans _ _ _ Hx Hxy) in Hy.
Qed.

Lemma smaller_off_side x y : onOrBelow x -> (y <? 0) = false -> smaller x y = x.
Proof.
  unfold smaller. intros [->|Hx] Hy; [by rewrite Hy|].
  destruct (y <? x) eqn:Hxy; [|done]. by rewrite (ltb_trans _ _ _ Hxy Hx) in Hy.
Qed.

Lemma onOrAbove_cases x y :
  onOrAbove x -> onOrAbove y -> (x <? y) = true \/ x = y \/ (y <? x) = true.
Proof.
  intros [->|Hx] [->|Hy]; eauto.
  destruct (x <? y) eqn:Hxy; [by left|]. destruct (y <? x) eqn:Hyx; [by right; right|].
  right; left. by apply ltb_positive_eq.
Qed.

Lemma onOrBelow_cases x y :
  onOrBelow x -> onOrBelow y -> (x <? y) = true \/ x = y \/ (y <? x) = true.
Proof.
  intros [->|Hx] [->|Hy]; eauto.
  destruct (x <? y) eqn:Hxy; [by left|]. destruct (y <? x) eqn:Hyx; [by right; right|].
  right; left. by apply ltb_negative_eq.
Qed.

(** Settles the comparisons in the goal from the comparisons at hand. *)
Ltac settle_order :=
  repeat match goal with
         | H : (?a <? ?b) = true |- _ =>
             lazymatch goal with
             | H' : (b <? a) = false |- _ => fail
             | _ => pose proof (ltb_asym _ _ H)
             end
         end;
  repeat match goal with
         | H1 : (?a <? ?b) = true, H2 : (?b <? ?c) = true |- _ =>
             lazymatch goal with
             | H : (a <? c) = true |- _ => fail
             | _ => pose proof (ltb_trans _ _ _ H1 H2)
             end
         end;
  repeat match goal with
         | H : (?a <? ?b) = _ |- context [?a <? ?b] => rewrite H
         | |- context [?a <? ?a] => rewrite (ltb_irrefl a)
         end;
  try done;
  try match goal with
      | H : (?a <? ?a) = true |- _ => by rewrite ltb_irrefl in H
      | H1 : (?a <? ?b) = true, H2 : (?a <? ?b) = false |- _ => congruence
      end.

Lemma larger_assoc x y z :
  onOrAbove x -> onOrAbove y -> onOrAbove z ->
  larger (larger x y) z = larger x (larger y z).
Proof.
  intros Hx Hy Hz. unfold larger.
  destruct (onOrAbove_cases x y Hx Hy) as [Hxy|[Exy|Hxy]],
           (onOrAbove_cases y z Hy Hz) as [Hyz|[Eyz|Hyz]],
           (onOrAbove_cases x z Hx Hz) as [Hxz|[Exz|Hxz]];
    subst; settle_order.
Qed.

Lemma smaller_assoc x y z :
  onOrBelow x -> onOrBelow y -> onOrBelow z ->
  smaller (smaller x y) z = smaller x (smaller y z).
Proof.
  intros Hx Hy Hz. unfold smaller.
  destruct (onOrBelow_cases x y Hx Hy) as [Hxy|[Exy|Hxy]],
           (onOrBelow_cases y z Hy Hz) as [Hyz|[Eyz|Hyz]],
           (onOrBelow_cases x z Hx Hz) as [Hxz|[Exz|Hxz]];
    subst; settle_order.
Qed.

Lemma larger_zero x : onOrAbove x -> larger x 0 = x /\ larger 0 x = x.
Proof.
  unfold larger. intros [->|Hx]; [done|]. by rewrite (ltb_asym _ _ Hx), Hx.
Qed.

Lemma smaller_zero x : onOrBelow x -> smaller x 0 = x /\ smaller 0 x = x.
Proof.
  unfold smaller. intros [->|Hx]; [done|]. by rewrite (ltb_asym _ _ Hx), Hx.
Qed.

Lemma contributionOf_cons near p d positive :
  contributionOf near (p :: d) positive
  = if near p && onSide positive p
    then (if positive then larger (value p) (contributionOf near d positive)
          else smaller (value p) (contributionOf near d positive))
    else contributionOf near d positive.
Proof.
  unfold contributionOf. cbn [List.filter].
  destruct (near p); [|done]. cbn [List.filter andb].
  by destruct (onSide positive p).
Qed.

Lemma contributionOf_sign near d :
  onOrAbove (contributionOf near d true) /\ onOrBelow (contributionOf near d false).
Proof.
  induction d as [|p d [IHa IHb]]; [by split; left|].
  rewrite !contributionOf_cons. unfold onSide.
  split; destruct (near p); cbn [andb]; try done.
  - destruct (0 <? value p) eqn:Hp; [|done].
    unfold larger. destruct (value p <? _); [done|by right].
  - destruct (value p <? 0) eqn:Hp; [|done].
    unfold smaller. destruct (_ <? value p); [done|by right].
Qed.

(** The running [max] of the loop against the largest value of the
    specification. *)
Lemma stack_fold_positive key d acc :
  onOrAbove acc ->
  foldl (stackStep key (stackEpsilon key) true) acc d
  = larger acc (stackContribution d key true).
Proof.
  unfold stackContribution.
  revert acc; induction d as [|p d IH]; intros acc Hacc.
  - symmetry. exact (proj1 (larger_zero acc Hacc)).
  - pose proof (proj1 (contributionOf_sign (nearKey key) d)) as Hrest.
    cbn [foldl]. rewrite stackStep_near, contributionOf_cons.
    destruct (nearKey key p); [|by apply IH].
    cbn [andb onSide]. destruct (0 <? value p) eqn:Hp.
    + rewrite IH by (by apply larger_above).
      apply larger_assoc; [done|by right|done].
    + rewrite larger_off_side by done. by apply IH.
Qed.

Lemma stack_fold_negative key d acc :
  onOrBelow acc ->
  foldl (stackStep key (stackEpsilon key) false) acc d
  = smaller acc (stackContribution d key false).
Proof.
  unfold stackContribution.
  revert acc; induction d as [|p d IH]; intros acc Hacc.
  - symmetry. exact (proj1 (smaller_zero acc Hacc)).
  - pose proof (proj2 (contributionOf_sign (nearKey key) d)) as Hrest.
    cbn [foldl]. rewrite stackStep_near, contributionOf_cons.
    destruct (nearKey key p); [|by apply IH].
    cbn [andb onSide]. destruct (value p <? 0) eqn:Hp.
    + rewrite IH by (by apply smaller_below).
      apply smaller_assoc; [done|by right|done].
    + rewrite smaller_off_side by done. by apply IH.
Qed.

(** What the loop of [getStackedBaseValue] finds in a sorted container is
    the specification's contribution. *)
Lemma stackMax_contribution d key positive :
  sortedByKey d -> stackMax d key positive = stackContribution d key positive.
Proof.
  intros Hsorted. rewrite stackMax_all_points by done.
  destruct (contributionOf_sign (nearKey key) d) as [Hpos Hneg].
  destruct positive.
  - rewrite stack_fold_positive by (by left). by apply larger_zero.
  - rewrite stack_fold_negative by (by left). by apply smaller_zero.
Qed.

(** ** [getStackedBaseValue] *)

Lemma stackHeight_barBelow s a n :
  stackHeight s a n ->
  match barBelow s a with
  | None => n = O
  | Some b => exists m, n = S m /\ stackHeight s b m
  end.
Proof.
  unfold barBelow. destruct 1 as [a bar Ha Hb|a bar b n Ha Hb Hn]; rewrite Ha; simpl;
    rewrite Hb; eauto.
Qed.

(** With enough fuel the recursion ends, and more fuel changes nothing. *)
Lemma getStackedBaseValue_fuel s a n key positive fuel fuel' :
  stackHeight s a n -> (n < fuel)%nat -> (n < fuel')%nat ->
  is_Some (getStackedBaseValue fuel s a key positive)
  /\ getStackedBaseValue fuel s a key positive
     = getStackedBaseValue fuel' s a key positive.
Proof.
  intros Hheight. revert fuel fuel'.
  induction Hheight as [a bar Ha Hb|a bar b n Ha Hb Hn IH]; intros fuel fuel' Hfuel Hfuel';
    (destruct fuel as [|fuel]; [lia|]); (destruct fuel' as [|fuel']; [lia|]);
    cbn [getStackedBaseValue]; rewrite Ha; simpl; rewrite Hb.
  - eauto.
  - assert (is_Some (plotBars s !! b)) as [below Hbelow]
      by (inversion Hn; eauto).
    rewrite Hbelow; simpl.
    destruct (IH fuel fuel' ltac:(lia) ltac:(lia)) as [[rest Hrest] Heq].
    rewrite <- Heq, Hrest. simpl. eauto.
Qed.

(** The walk to the bottom of the stack ends as well. *)
Lemma stackRoot_fuel s a n fuel :
  stackHeight s a n -> (n < fuel)%nat -> is_Some (stackRoot fuel s a).
Proof.
  intros Hheight. revert fuel.
  induction Hheight as [a bar Ha Hb|a bar b n Ha Hb Hn IH]; intros fuel Hfuel;
    (destruct fuel as [|fuel]; [lia|]);
    cbn [stackRoot]; unfold barBelow; rewrite Ha; simpl; rewrite Hb; [done|].
  apply IH. lia.
Qed.

(** C3 (as amended): along a chain of [barBelow] links that ends,
    [getStackedBaseValue] returns the own base value of a bar without a bar
    below, and otherwise the value it returns for the bar below plus that
    bar's contribution: among its points whose key lies strictly between
    the key less the tolerance and the key plus the tolerance, both as the
    doubles round them, and whose value is on the requested side, the
    largest value ([positive]) or the smallest, and 0 without such a
    point.  Bars with the point (1,2) stacked on bars with base value 0 and
    the point (1,3) get the base 3 at key 1. *)
Theorem getStackedBaseValue_stack (s : Plot) (this : addr) (n fuel : nat) (key : float)
  (positive : bool) :
  stackHeight s this n -> (n < fuel)%nat -> sortedData s ->
  (exists bar r,
     plotBars s !! this = Some bar
     /\ getStackedBaseValue fuel s this key positive = Some r
     /\ match mBarBelow bar with
        | None => r = mBaseValue bar
        | Some b =>
            exists below rest,
              plotBars s !! b = Some below
              /\ getStackedBaseValue fuel s b key positive = Some rest
              /\ r = stackContribution (mDataContainer below) key positive + rest
        end)
  /\ getStackedBaseValue 2 stackedPlot 2%nat 1 true = Some 3.
Proof.
  intros Hheight Hfuel Hsorted. split; [|by vm_compute].
  destruct (getStackedBaseValue_fuel s this n key positive fuel fuel Hheight Hfuel Hfuel)
    as [[r Hr] _].
  destruct fuel as [|fuel']; [lia|].
  inversion Hheight as [a bar Ha Hb|a bar b m Ha Hb Hm]; subst.
  - exists bar, r. split_and!; [done..|]. rewrite Hb.
    cbn [getStackedBaseValue] in Hr. rewrite Ha in Hr; simpl in Hr.
    rewrite Hb in Hr. congruence.
  - exists bar, r. split_and!; [done..|]. rewrite Hb.
    destruct (getStackedBaseValue_fuel s b m key positive (S fuel') fuel' Hm
                ltac:(lia) ltac:(lia)) as [[rest Hrest] Heq].
    assert (is_Some (plotBars s !! b)) as [below Hbelow] by (inversion Hm; eauto).
    exists below, rest. split_and!; [done..|].
    cbn [getStackedBaseValue] in Hr. rewrite Ha in Hr; simpl in Hr.
    rewrite Hb, Hbelow in Hr; simpl in Hr.
    rewrite <- Heq, Hrest in Hr. simpl in Hr. injection Hr as <-.
    rewrite (stackMax_contribution (mDataContainer below)); [reflexivity|].
    exact (Hsorted b below Hbelow).
Qed.

(** ** [getValueRange] *)

Lemma valueRangeStep_base inSignDomain current st (base : float) :
  snd (fst st) = true -> snd st = true ->
  (lower (fst (fst st)) <=? base) = true -> (base <=? upper (fst (fst st))) = true ->
  let st' := valueRangeStep inSignDomain current st in
  snd (fst st') = true /\ snd st' = true
  /\ (lower (fst (fst st')) <=? base) = true /\ (base <=? upper (fst (fst st'))) = true.
Proof.
  destruct st as [[[lo up] haveLower] haveUpper]; simpl.
  intros -> -> Hlo Hup. unfold valueRangeStep.
  destruct (inDomain inSignDomain current); [|done].
  simpl. rewrite !orb_false_r.
  destruct (current <? lo) eqn:Hl; simpl;
    destruct (_ <? current) eqn:Hu; simpl; split_and!; try done.
  all: eauto using ltb_leb, ltb_leb_trans, leb_ltb_trans.
Qed.

Lemma valueRangeLoop_base fuel s this n inSignDomain data st (base : float) :
  stackHeight s this n -> (n < fuel)%nat ->
  snd (fst st) = true -> snd st = true ->
  (lower (fst (fst st)) <=? base) = true -> (base <=? upper (fst (fst st))) = true ->
  exists st',
    valueRangeLoop fuel s this inSignDomain data st = Some st'
    /\ (lower (fst (fst st')) <=? base) = true /\ (base <=? upper (fst (fst st'))) = true.
Proof.
  intros Hheight Hfuel. revert st.
  induction data as [|it data IH]; intros st Hl Hu Hlo Hup; simpl; [eauto|].
  destruct (getStackedBaseValue_fuel s this n (key it) (0 <=? value it) fuel fuel
              Hheight Hfuel Hfuel) as [[r ->] _]. simpl.
  destruct (valueRangeStep_base inSignDomain (value it + r) st base Hl Hu Hlo Hup)
    as (Hl' & Hu' & Hlo' & Hup').
  by apply IH.
Qed.

(** The loop ends whatever the numbers are. *)
Lemma valueRangeLoop_ends fuel s this n inSignDomain data st :
  stackHeight s this n -> (n < fuel)%nat ->
  is_Some (valueRangeLoop fuel s this inSignDomain data st).
Proof.
  intros Hheight Hfuel. revert st.
  induction data as [|it data IH]; intros st; simpl; [eauto|].
  destruct (getStackedBaseValue_fuel s this n (key it) (0 <=? value it) fuel fuel
              Hheight Hfuel Hfuel) as [[r ->] _]. simpl.
  apply IH.
Qed.

(** C7 (as amended): [getValueRange] returns a range with [foundRange]
    true, whatever the sign domain, and when the base value of the bars is
    a number (not NaN) the range holds it; for base value 0 and the one
    point (1,5) the range over both signs holds 0 and 5. *)
Theorem getValueRange_holds_base (s : Plot) (this : addr) (n fuel : nat)
  (inSignDomain : SignDomain) :
  stackHeight s this n -> (n < fuel)%nat ->
  (exists bar range,
     plotBars s !! this = Some bar
     /\ getValueRange fuel s this inSignDomain = Some (range, true)
     /\ (is_nan (mBaseValue bar) = false ->
         (lower range <=? mBaseValue bar) = true
         /\ (mBaseValue bar <=? upper range) = true))
  /\ (exists range,
        getValueRange 1 stackedPlot 5%nat sdBoth = Some (range, true)
        /\ (lower range <=? 0) = true /\ (0 <=? upper range) = true
        /\ (lower range <=? 5) = true /\ (5 <=? upper range) = true).
Proof.
  intros Hheight Hfuel. split.
  - assert (is_Some (plotBars s !! this)) as [bar Hbar] by (inversion Hheight; eauto).
    destruct (valueRangeLoop_ends fuel s this n inSignDomain (mDataContainer bar)
                (mkRange (mBaseValue bar) (mBaseValue bar), true, true) Hheight Hfuel)
      as [st' Hloop].
    exists bar, (fst (fst st')). split; [done|]. split.
    + unfold getValueRange. rewrite Hbar; simpl. by rewrite Hloop.
    + intros Hnumber. apply negb_false_iff in Hnumber.
      destruct (valueRangeLoop_base fuel s this n inSignDomain (mDataContainer bar)
                  (mkRange (mBaseValue bar) (mBaseValue bar), true, true)
                  (mBaseValue bar) Hheight Hfuel eq_refl eq_refl
                  (leb_refl _ Hnumber) (leb_refl _ Hnumber))
        as (st'' & Hloop' & Hbase).
      rewrite Hloop in Hloop'. by injection Hloop' as <-.
  - exists (mkRange 0 5). by vm_compute.
Qed.

End ValueFacts.

Section ValueExamples.
Import Bars.
Open Scope float_scope.

Lemma stackedPlot_height : stackHeight stackedPlot 2%nat 1.
Proof.
  eapply stackHeight_step; [by vm_compute|done|].
  eapply stackHeight_base; [by vm_compute|done].
Qed.

(** C3 on an instance: the upper bars of [stackedPlot]. *)
Lemma getStackedBaseValue_stack_stackedPlot :
  (exists bar r,
     plotBars stackedPlot !! 2%nat = Some bar
     /\ getStackedBaseValue 2 stackedPlot 2%nat 1 true = Some r
     /\ match mBarBelow bar with
        | None => r = mBaseValue bar
        | Some b =>
            exists below rest,
              plotBars stackedPlot !! b = Some below
              /\ getStackedBaseValue 2 stackedPlot b 1 true = Some rest
              /\ r = stackContribution (mDataContainer below) 1 true + rest
        end)
  /\ getStackedBaseValue 2 stackedPlot 2%nat 1 true = Some 3.
Proof.
  apply (getStackedBaseValue_stack stackedPlot 2%nat 1 2 1 true).
  - exact stackedPlot_height.
  - lia.
  - apply (bool_decide_unpack _). by vm_compute.
Defined.

(** C3 as stated fails at the edge of the tolerance.  The lower bars hold
    the one point (k, 3), with k the double that 1 + 1e-6 rounds to.  The
    key k is away from the key 1 by less than the tolerance 1e-6, so the
    point is the one whose value the claim adds; but k is not below the
    bound 1 + 1e-6 as the code computes it, so the loop passes the point by
    and the upper bars get the base 0. *)
Lemma getStackedBaseValue_tolerance_edge :
  let edge := mkData 0x1.000010c6f7a0bp+0 3 in
  let s := setData 1%nat [edge] stackedPlot in
  withinTolerance 1 edge = true
  /\ contributionOf (withinTolerance 1) [edge] true = 3
  /\ getStackedBaseValue 2 s 1%nat 1 true = Some 0
  /\ getStackedBaseValue 2 s 2%nat 1 true = Some 0.
Proof. repeat split; by vm_compute. Qed.

(** C7 on an instance: the upper bars of [stackedPlot], positive values
    only. *)
Lemma getValueRange_holds_base_stackedPlot :
  (exists bar range,
     plotBars stackedPlot !! 2%nat = Some bar
     /\ getValueRange 2 stackedPlot 2%nat sdPositive = Some (range, true)
     /\ (is_nan (mBaseValue bar) = false ->
         (lower range <=? mBaseValue bar) = true
         /\ (mBaseValue bar <=? upper range) = true))
  /\ (exists range,
        getValueRange 1 stackedPlot 5%nat sdBoth = Some (range, true)
        /\ (lower range <=? 0) = true /\ (0 <=? upper range) = true
        /\ (lower range <=? 5) = true /\ (5 <=? upper range) = true).
Proof.
  apply (getValueRange_holds_base stackedPlot 2%nat 1 2 sdPositive).
  - exact stackedPlot_height.
  - lia.
Defined.

(** C7 as stated fails for a base value that is NaN: [setBaseValue]
    takes any double, the range starts as [NaN, NaN], no comparison with
    NaN moves a bound, and NaN is not at or below NaN. *)
Lemma getValueRange_nan_base :
  let s := setBaseValue 5%nat nan stackedPlot in
  mBaseValue <$> plotBars s !! 5%nat = Some nan
  /\ getValueRange 1 s 5%nat sdBoth = Some (mkRange nan nan, true)
  /\ (nan <=? nan) = false.
Proof. repeat split; by vm_compute. Qed.

End ValueExamples.

(* ===================================================================== *)
(** * Part VIII: offsets in a group                                      *)
(* ===================================================================== *)

Section OffsetFacts.
Import Bars.
Open Scope float_scope.
Implicit Types (s : Plot).

(** ** [keyPixelOffset] in a group of three *)

Lemma getPixelWidth_same s bar bar' key lu :
  mWidth bar = mWidth bar' -> mWidthType bar = mWidthType bar' ->
  mKeyAxis bar = mKeyAxis bar' ->
  getPixelWidth s bar key lu = getPixelWidth s bar' key lu.
Proof. unfold getPixelWidth. by intros -> -> ->. Qed.

(** Bar charts of the same width and width mode on one key axis are of
    equal width. *)
Lemma equalWidth_same_axis s keyCoord bar bar' :
  mWidth bar = mWidth bar' -> mWidthType bar = mWidthType bar' ->
  mKeyAxis bar = mKeyAxis bar' ->
  equalWidth s keyCoord bar bar'.
Proof.
  intros Hw Ht Hk. split_and!; [done..|]. intros lu. unfold pixelWidth.
  by rewrite (getPixelWidth_same s bar bar') by done.
Qed.

Lemma getPixelSpacing_defined s group bar key :
  spacingAxis s group bar -> is_Some (getPixelSpacing s group bar key).
Proof.
  unfold spacingAxis, getPixelSpacing.
  destruct (mSpacingType group); [eauto| |].
  - intros (a & ax & rect & -> & Hax & Hrect). simpl. rewrite Hax. simpl.
    rewrite Hrect. simpl. eauto.
  - intros (a & ax & -> & Hax). simpl. rewrite Hax. simpl. eauto.
Qed.

Lemma stackRoot_root s a bar fuel :
  plotBars s !! a = Some bar -> mBarBelow bar = None ->
  stackRoot (S fuel) s a = Some a.
Proof. intros Ha Hb. simpl. unfold barBelow. rewrite Ha; simpl. by rewrite Hb. Qed.

Lemma collectBaseBars_three s a1 a2 a3 fuel :
  NoDup [a1; a2; a3] ->
  stackRoot fuel s a1 = Some a1 -> stackRoot fuel s a2 = Some a2 ->
  stackRoot fuel s a3 = Some a3 ->
  collectBaseBars fuel s [a1; a2; a3] [] = Some [a1; a2; a3].
Proof.
  intros Hnd H1 H2 H3.
  apply NoDup_cons in Hnd as [Hn1 Hnd]. apply NoDup_cons in Hnd as [Hn2 _].
  cbn [collectBaseBars]. rewrite H1; simpl. rewrite H2; simpl.
  assert (contains [a1] a2 = false) as -> by (apply contains_not_elem_of; set_solver).
  simpl. rewrite H3; simpl.
  assert (contains [a1; a2] a3 = false) as -> by (apply contains_not_elem_of; set_solver).
  done.
Qed.

Lemma keyPixelOffset_unfold fuel s g bars keyCoord group baseBars thisBase index :
  plotGroups s !! g = Some group ->
  collectBaseBars fuel s (mBars group) [] = Some baseBars ->
  stackRoot fuel s bars = Some thisBase ->
  indexOf thisBase baseBars = Some index ->
  keyPixelOffset fuel s g bars keyCoord
  = let n := length baseBars in
    if (n mod 2 =? 1)%nat && (index =? (n - 1) / 2)%nat then Some 0
    else if Gradient.double_of_int (Z.of_nat index)
            <? Gradient.double_of_int (Z.of_nat n - 1) / 2.0
    then leftOffset s group baseBars keyCoord index
    else rightOffset s group baseBars keyCoord index.
Proof.
  intros Hg Hbase Hroot Hindex. unfold keyPixelOffset.
  rewrite Hg; simpl. rewrite Hbase; simpl. rewrite Hroot; simpl. by rewrite Hindex.
Qed.

(** C5 (as amended): in a group of exactly three bar charts that are stack
    roots of equal width (the same width in the same width mode, and the
    same number of pixels wide at the key), [keyPixelOffset] is 0 for the
    second member, and for the first and the third it returns two values
    that, unless they are NaN, have equal magnitude and opposite sign. *)
Theorem keyPixelOffset_three (s : Plot) (g a1 a2 a3 : addr) (group : QCPBarsGroup)
  (bar1 bar2 bar3 : QCPBars) (keyCoord : float) (fuel : nat) :
  plotGroups s !! g = Some group -> mBars group = [a1; a2; a3] ->
  NoDup [a1; a2; a3] ->
  plotBars s !! a1 = Some bar1 -> plotBars s !! a2 = Some bar2 ->
  plotBars s !! a3 = Some bar3 ->
  mBarBelow bar1 = None -> mBarBelow bar2 = None -> mBarBelow bar3 = None ->
  equalWidth s keyCoord bar1 bar2 -> equalWidth s keyCoord bar2 bar3 ->
  spacingAxis s group bar2 ->
  (0 < fuel)%nat ->
  keyPixelOffset fuel s g a2 keyCoord = Some 0
  /\ exists first third,
       keyPixelOffset fuel s g a1 keyCoord = Some first
       /\ keyPixelOffset fuel s g a3 keyCoord = Some third
       /\ (is_nan first = false \/ is_nan third = false -> opposite first third = true).
Proof.
  intros Hg Hmembers Hnd Hb1 Hb2 Hb3 Hr1 Hr2 Hr3 (_ & _ & Hw12) (_ & _ & Hw23)
    Hspacing Hfuel.
  destruct fuel as [|fuel]; [lia|].
  pose proof (stackRoot_root s a1 bar1 fuel Hb1 Hr1) as Hroot1.
  pose proof (stackRoot_root s a2 bar2 fuel Hb2 Hr2) as Hroot2.
  pose proof (stackRoot_root s a3 bar3 fuel Hb3 Hr3) as Hroot3.
  pose proof (collectBaseBars_three s a1 a2 a3 (S fuel) Hnd Hroot1 Hroot2 Hroot3) as Hbase.
  destruct (getPixelSpacing_defined s group bar2 keyCoord Hspacing)
    as [spacing Hsp].
  pose proof Hnd as Hnd'.
  apply NoDup_cons in Hnd' as [Hn1 Hnd']. apply NoDup_cons in Hnd' as [Hn2 _].
  assert (a1 <> a2 /\ a1 <> a3 /\ a2 <> a3) as (H12 & H13 & H23) by set_solver.
  assert (indexOf a1 [a1; a2; a3] = Some 0%nat) as Hi1
    by (simpl; by rewrite decide_True).
  assert (indexOf a2 [a1; a2; a3] = Some 1%nat) as Hi2
    by (simpl; rewrite decide_False by done; by rewrite decide_True).
  assert (indexOf a3 [a1; a2; a3] = Some 2%nat) as Hi3
    by (simpl; rewrite !decide_False by done; by rewrite decide_True).
  set (centre := getPixelWidth s bar2 keyCoord (0, 0)).
  pose proof (eq_trans (Hw12 centre) (Hw23 centre)) as Hwidth.
  rewrite <- Hmembers in Hbase at 1.
  split.
  - by rewrite (keyPixelOffset_unfold _ _ _ _ _ _ _ _ _ Hg Hbase Hroot2 Hi2).
  - exists (0 - pixelWidth s bar2 keyCoord (0, 0) * 0.5 - spacing
            - pixelWidth s bar1 keyCoord centre * 0.5),
           (0 + pixelWidth s bar2 keyCoord (0, 0) * 0.5 + spacing
            + pixelWidth s bar3 keyCoord centre * 0.5).
    split_and!.
    + rewrite (keyPixelOffset_unfold _ _ _ _ _ _ _ _ _ Hg Hbase Hroot1 Hi1).
      transitivity (leftOffset s group [a1; a2; a3] keyCoord 0); [done|].
      unfold leftOffset. simpl. rewrite Hb2; simpl. rewrite Hsp; simpl.
      rewrite Hb1; simpl. reflexivity.
    + rewrite (keyPixelOffset_unfold _ _ _ _ _ _ _ _ _ Hg Hbase Hroot3 Hi3).
      transitivity (rightOffset s group [a1; a2; a3] keyCoord 2); [done|].
      unfold rightOffset. simpl. rewrite Hb2; simpl. rewrite Hsp; simpl.
      rewrite Hb3; simpl. reflexivity.
    + apply mirror_opposite. rewrite Hwidth.
      do 2 apply mirror_sub_add. apply mirror_zero.
Qed.

End OffsetFacts.

Section OffsetExamples.
Import Bars.
Open Scope float_scope.

(** C5 on an instance: the three bar charts of [groupPlot] on key axis
    100. *)
Lemma keyPixelOffset_three_groupPlot :
  keyPixelOffset 1 (groupPlot 100%nat) 10%nat 2%nat 1 = Some 0
  /\ exists first third,
       keyPixelOffset 1 (groupPlot 100%nat) 10%nat 1%nat 1 = Some first
       /\ keyPixelOffset 1 (groupPlot 100%nat) 10%nat 3%nat 1 = Some third
       /\ (is_nan first = false \/ is_nan third = false -> opposite first third = true).
Proof.
  apply (keyPixelOffset_three (groupPlot 100%nat) 10%nat 1%nat 2%nat 3%nat
           (mkGroup stAbsolute 4 [1%nat; 2%nat; 3%nat])
           (barsOn 100%nat [mkData 1 3] wtAxisRectRatio (Some 10%nat) None None)
           (barsOn 100%nat [mkData 1 2] wtAxisRectRatio (Some 10%nat) None None)
           (barsOn 100%nat [mkData 1 5] wtAxisRectRatio (Some 10%nat) None None) 1 1).
  - by vm_compute.
  - reflexivity.
  - apply (bool_decide_unpack _). by vm_compute.
  - by vm_compute.
  - by vm_compute.
  - by vm_compute.
  - reflexivity.
  - reflexivity.
  - reflexivity.
  - by apply equalWidth_same_axis.
  - by apply equalWidth_same_axis.
  - exact I.
  - lia.
Defined.

(** C5 as stated fails for a spacing that is NaN: [setSpacing] takes any
    double, and with it the offsets of the first and the third of three
    stack roots of equal width are both NaN, which has no magnitude and no
    sign. *)
Lemma keyPixelOffset_nan_spacing :
  let s := setSpacing 10%nat nan (groupPlot 100%nat) in
  bars s 10%nat = [1%nat; 2%nat; 3%nat]
  /\ Forall (fun a => (fun bar => (mBarBelow bar, mWidth bar, mWidthType bar, mKeyAxis bar))
                        <$> plotBars s !! a
                      = Some (None, 0.5, wtAxisRectRatio, Some 100%nat))
       (bars s 10%nat)
  /\ keyPixelOffset 1 s 10%nat 1%nat 1 = Some nan
  /\ keyPixelOffset 1 s 10%nat 3%nat 1 = Some nan
  /\ opposite nan nan = false.
Proof. split_and!; try (by vm_compute). repeat constructor. Qed.

End OffsetExamples.

(* ===================================================================== *)
(** * Part IX: the colour gradient through its interface                 *)
(* ===================================================================== *)

Section GradientInterface.
Import Gradient.
Context `{QtMath}.
Open Scope Z_scope.

(** ** The level count along the calls *)

Lemma mLevelCount_setLevelCount n g :
  mLevelCount (fst (setLevelCount n g)) = Z.max 2 n.
Proof.
  unfold setLevelCount.
  destruct (n <? 2) eqn:Hn; cbn [fst].
  - apply Z.ltb_lt in Hn.
    destruct (2 =? mLevelCount g) eqn:He; cbn [negb mLevelCount];
      [apply Z.eqb_eq in He|]; lia.
  - apply Z.ltb_ge in Hn.
    destruct (n =? mLevelCount g) eqn:He; cbn [negb mLevelCount];
      [apply Z.eqb_eq in He|]; lia.
Qed.

Lemma mLevelCount_setColorInterpolation mode g :
  mLevelCount (setColorInterpolation mode g) = mLevelCount g.
Proof. unfold setColorInterpolation. by destruct (negb _). Qed.

Lemma mLevelCount_stops_fold (f : float -> float) stops g :
  mLevelCount
    (foldl (fun g '(position, c) => setColorStopAt (f position) c g) g stops)
  = mLevelCount g.
Proof.
  revert g; induction stops as [|[k c] stops IH]; intros g; simpl; [done|].
  by rewrite IH.
Qed.

Lemma mLevelCount_loadPreset preset g :
  mLevelCount (loadPreset preset g) = mLevelCount g.
Proof.
  unfold loadPreset. destruct (presetStops preset) as [mode stops].
  rewrite (mLevelCount_stops_fold (fun k => k)).
  by rewrite mLevelCount_setColorInterpolation.
Qed.

Lemma mLevelCount_inverted g : mLevelCount (inverted g) = mLevelCount g.
Proof.
  unfold inverted.
  by rewrite (mLevelCount_stops_fold (fun k => (1.0 - k)%float)).
Qed.

Lemma mLevelCount_updateColorBuffer g :
  mLevelCount (updateColorBuffer g) = mLevelCount g.
Proof. done. Qed.

Lemma mLevelCount_color g position range logarithmic :
  mLevelCount (snd (color g position range logarithmic)) = mLevelCount g.
Proof. rewrite color_reads; simpl. by destruct (mColorBufferInvalidated g). Qed.

Lemma colorize_gradient g data range scanLine n dataIndexFactor logarithmic :
  snd (fst (colorize g data range scanLine n dataIndexFactor logarithmic)) = g
  \/ snd (fst (colorize g data range scanLine n dataIndexFactor logarithmic))
     = snd (color g 0 range logarithmic).
Proof.
  unfold colorize. destruct data as [data|], scanLine as [line|]; simpl; auto.
Qed.

Lemma wellSized_construct preset : wellSized (construct preset).
Proof.
  split.
  - unfold construct. rewrite mLevelCount_loadPreset. simpl. lia.
  - exact (proj1 (bufferSized_mutators (construct preset) preset 0 [] 0%float Qt_black
                    ciRGB false)).
Qed.

Lemma bufferSized_snd_color g position range logarithmic :
  bufferSized g -> bufferSized (snd (color g position range logarithmic)).
Proof.
  intros Hg. rewrite color_reads; simpl.
  destruct (mColorBufferInvalidated g) eqn:Hinv; [|done].
  apply bufferSized_updateColorBuffer.
Qed.

Lemma wellSized_runGradientOp op g : wellSized g -> wellSized (runGradientOp op g).
Proof.
  intros [Hlevels Hsized].
  pose proof (bufferSized_mutators g gpGrayscale 0 [] 0%float Qt_black ciRGB false)
    as [_ Hmut].
  destruct op as [n|stops|position c|mode|enabled| |preset| |position range logarithmic
                 |data range scanLine n factor logarithmic]; cbn [runGradientOp].
  - split; [rewrite mLevelCount_setLevelCount; lia|].
    by apply (bufferSized_mutators g gpGrayscale n [] 0%float Qt_black ciRGB false).
  - split; [done|].
    by apply (bufferSized_mutators g gpGrayscale 0 stops 0%float Qt_black ciRGB false).
  - split; [done|].
    by apply (bufferSized_mutators g gpGrayscale 0 [] position c ciRGB false).
  - split; [by rewrite mLevelCount_setColorInterpolation|].
    by apply (bufferSized_mutators g gpGrayscale 0 [] 0%float Qt_black mode false).
  - split; [done|].
    by apply (bufferSized_mutators g gpGrayscale 0 [] 0%float Qt_black ciRGB enabled).
  - split; [done|]. by apply Hmut.
  - split; [by rewrite mLevelCount_loadPreset|].
    by apply (bufferSized_mutators g preset 0 [] 0%float Qt_black ciRGB false).
  - split; [by rewrite mLevelCount_inverted|]. by apply Hmut.
  - split; [by rewrite mLevelCount_color|]. by apply bufferSized_snd_color.
  - destruct (colorize_gradient g data range scanLine n factor logarithmic) as [->| ->].
    + by split.
    + split; [by rewrite mLevelCount_color|]. by apply bufferSized_snd_color.
Qed.

Lemma wellSized_color g position range logarithmic :
  wellSized g ->
  exists c, fst (color g position range logarithmic) = Some c.
Proof.
  intros [Hlevels Hsized].
  pose proof (bufferSized_color g position range logarithmic Hsized) as Hlen.
  pose proof (colorIndex_range g position range logarithmic ltac:(lia)) as Hindex.
  rewrite color_reads in *; simpl in *.
  destruct (at_in_bounds
              (mColorBuffer (if mColorBufferInvalidated g then updateColorBuffer g else g))
              (colorIndex g position range logarithmic)) as [c Hc]; [lia|].
  by exists c.
Qed.

(** X1.  Whatever public member functions are called on a constructed
    gradient, with whatever arguments, the gradient has at least two levels
    afterwards and [color] returns a colour: its read of the colour buffer
    is in bounds, and the buffer it leaves has one entry per level. *)
Theorem color_after_any_calls (preset : GradientPreset) (ops : list GradientOp)
  (position : float) (range : QCPRange) (logarithmic : bool) :
  let g := foldl (fun g op => runGradientOp op g) (construct preset) ops in
  2 <= mLevelCount g
  /\ (exists c, fst (color g position range logarithmic) = Some c)
  /\ length (mColorBuffer (snd (color g position range logarithmic)))
     = Z.to_nat (mLevelCount g).
Proof.
  intros g.
  assert (wellSized g) as Hg.
  { subst g. generalize (wellSized_construct preset).
    generalize (construct preset) as g0.
    induction ops as [|op ops IH]; intros g0 Hg0; simpl; [done|].
    apply IH. by apply wellSized_runGradientOp. }
  split_and!.
  - apply Hg.
  - by apply wellSized_color.
  - apply bufferSized_color, Hg.
Qed.

(** ** Gradients with fewer than two stops *)

Lemma at_replicate n (c : QRgb) index :
  0 <= index < Z.of_nat n -> at_ (replicate n c) index = Some c.
Proof.
  intros Hindex. unfold at_.
  destruct (Z.ltb_spec index 0) as [?|_]; [lia|].
  apply lookup_replicate_2. lia.
Qed.

Lemma updateColorBuffer_few_stops g :
  (length (mColorStops g) <= 1)%nat ->
  mColorBuffer (updateColorBuffer g)
  = replicate (Z.to_nat (mLevelCount g))
      (match mColorStops g with
       | [] => qRgb 0 0 0
       | stop :: _ => rgb (snd stop)
       end).
Proof.
  intros Hstops.
  pose proof (updateColorBuffer_length g) as Hlen. revert Hlen.
  unfold updateColorBuffer; cbn [mColorBuffer].
  destruct (mColorStops g) as [|stop [|stop' stops]]; simpl in *; [| |lia].
  - unfold fill. rewrite length_replicate. by intros ->.
  - unfold fill. rewrite length_replicate. by intros ->.
Qed.

(** X2.  A gradient without colour stops is black everywhere, and a
    gradient with one colour stop has the colour of that stop everywhere:
    after [clearColorStops], and after one [setColorStopAt] on it, [color]
    returns that colour for every position, range and mapping. *)
Theorem color_of_few_stops (g : QCPColorGradient) (position : float)
  (range : QCPRange) (logarithmic : bool) :
  0 < mLevelCount g ->
  fst (color (clearColorStops g) position range logarithmic) = Some (qRgb 0 0 0)
  /\ forall key c,
       fst (color (setColorStopAt key c (clearColorStops g)) position range logarithmic)
       = Some (rgb c).
Proof.
  intros Hlevels. split; [|intros key c]; rewrite color_reads; cbn [fst].
  - set (g' := clearColorStops g).
    change (mColorBufferInvalidated g') with true; cbv iota.
    rewrite updateColorBuffer_few_stops by (simpl; lia).
    pose proof (colorIndex_range g' position range logarithmic Hlevels).
    apply at_replicate. change (mLevelCount g') with (mLevelCount g) in *. lia.
  - set (g' := setColorStopAt key c (clearColorStops g)).
    change (mColorBufferInvalidated g') with true; cbv iota.
    rewrite updateColorBuffer_few_stops by (simpl; lia).
    pose proof (colorIndex_range g' position range logarithmic Hlevels).
    apply at_replicate. change (mLevelCount g') with (mLevelCount g) in *. lia.
Qed.

(** ** [colorize], entry by entry *)

Lemma colorize_line g data range line n dataIndexFactor logarithmic :
  let g' := if mColorBufferInvalidated g then updateColorBuffer g else g in
  colorize g (Some data) range (Some line) n dataIndexFactor logarithmic
  = (Some
       (forLoop (Z.to_nat n) 0
          (fun i line =>
             storeColor (mColorBuffer g') line i
               (colorizeIndex g' (data (dataIndexFactor * i)) range logarithmic))
          line),
     g', []).
Proof.
  intros g'. unfold colorize, colorizeIndex, wrapIndex, clampIndex. fold g'.
  by destruct logarithmic, (mPeriodic g').
Qed.

(** X3.  With the logarithmic mapping, [colorize] is [color] entry by
    entry: it stores at [scanLine[i]], for every [i] from 0 to [n - 1], the
    colour that [color] returns for [data[dataIndexFactor * i]], and leaves
    the gradient as [color] leaves it. *)
Theorem colorize_logarithmic_as_color (g : QCPColorGradient) (data : Z -> float)
  (range : QCPRange) (line : Z -> QRgb) (n dataIndexFactor : Z) :
  2 <= mLevelCount g -> bufferSized g ->
  exists line',
    colorize g (Some data) range (Some line) n dataIndexFactor true
    = (Some line', snd (color g (data 0) range true), [])
    /\ forall i, 0 <= i < n ->
         Some (line' i) = fst (color g (data (dataIndexFactor * i)) range true).
Proof.
  intros Hlevels Hsized. rewrite colorize_line. eexists; split.
  { rewrite color_reads. reflexivity. }
  intros i Hi. rewrite forLoop_storeColor, bool_decide_eq_true_2 by lia.
  rewrite color_reads; cbn [fst].
  set (g' := if mColorBufferInvalidated g then updateColorBuffer g else g).
  assert (colorizeIndex g' (data (dataIndexFactor * i)) range true
          = colorIndex g (data (dataIndexFactor * i)) range true) as ->
    by (subst g'; by destruct (mColorBufferInvalidated g)).
  pose proof (bufferSized_color g (data (dataIndexFactor * i)) range true Hsized) as Hlen.
  pose proof (colorIndex_range g (data (dataIndexFactor * i)) range true ltac:(lia)).
  rewrite color_reads in Hlen; cbn [snd] in Hlen; fold g' in Hlen.
  destruct (at_in_bounds (mColorBuffer g')
              (colorIndex g (data (dataIndexFactor * i)) range true)) as [c Hc]; [lia|].
  by rewrite Hc.
Qed.

(** X4.  [colorize] writes [scanLine[0]] to [scanLine[n - 1]] and nothing
    else: every other entry of the scan line keeps its value (all of them
    when [n] is not positive).  With a null [data] or a null [scanLine] it
    writes nothing, leaves the gradient as it is (the buffer is not rebuilt)
    and reports the null pointer. *)
Theorem colorize_writes_n_entries (g : QCPColorGradient) (data : Z -> float)
  (range : QCPRange) (scanLine : option (Z -> QRgb)) (line : Z -> QRgb)
  (n dataIndexFactor : Z) (logarithmic : bool) :
  colorize g None range scanLine n dataIndexFactor logarithmic
  = (scanLine, g, ["null pointer given as data"%string])
  /\ colorize g (Some data) range None n dataIndexFactor logarithmic
     = (None, g, ["null pointer given as scanLine"%string])
  /\ exists line',
       fst (fst (colorize g (Some data) range (Some line) n dataIndexFactor logarithmic))
       = Some line'
       /\ forall j, j < 0 \/ n <= j -> line' j = line j.
Proof.
  split_and!; [done|done|].
  rewrite colorize_line. eexists; split; [reflexivity|].
  intros j Hj. rewrite forLoop_storeColor, bool_decide_eq_false_2; [done|lia].
Qed.

(** ** [operator==] as a relation *)

Lemma QColor_eqb_refl c : QColor_eqb c c = true.
Proof. unfold QColor_eqb. by rewrite !Z.eqb_refl. Qed.

Lemma QColor_eqb_sym c d : QColor_eqb c d = QColor_eqb d c.
Proof.
  unfold QColor_eqb.
  by rewrite (Z.eqb_sym (red c)), (Z.eqb_sym (green c)), (Z.eqb_sym (blue c)).
Qed.

Lemma qmap_eqb_refl m : qmap_eqb m m = true.
Proof.
  induction m as [|[k v] m IH]; simpl; [done|].
  by rewrite ltb_irrefl, QColor_eqb_refl, IH.
Qed.

Lemma qmap_eqb_sym m1 m2 : qmap_eqb m1 m2 = qmap_eqb m2 m1.
Proof.
  revert m2; induction m1 as [|[k1 v1] m1 IH]; intros [|[k2 v2] m2]; simpl; try done.
  rewrite IH, (QColor_eqb_sym v1 v2).
  by destruct (k1 <? k2)%float, (k2 <? k1)%float.
Qed.

(** X5.  [operator==] is reflexive and symmetric: every gradient equals
    itself (also one with a NaN key among its stops, since the keys are
    compared by "neither is less than the other"), and [g == h] gives the
    answer of [h == g]. *)
Theorem operator_eq_reflexive_symmetric (g h : QCPColorGradient) :
  operator_eq g g = true /\ operator_eq g h = operator_eq h g.
Proof.
  unfold operator_eq. split.
  - rewrite Z.eqb_refl, qmap_eqb_refl.
    by destruct (mColorInterpolation g), (mPeriodic g).
  - rewrite (Z.eqb_sym (mLevelCount h)), (qmap_eqb_sym (mColorStops h)).
    f_equal. f_equal; [f_equal|].
    + by destruct (mColorInterpolation g), (mColorInterpolation h).
    + by destruct (mPeriodic g), (mPeriodic h).
Qed.

(** ** Presets and inversion *)

Lemma loadPreset_fields preset g :
  loadPreset preset g
  = mkGradient (mLevelCount g) (snd (presetStops preset)) (fst (presetStops preset))
      (mPeriodic g) (mColorBuffer g) true.
Proof.
  destruct g as [levels stops [] periodic buffer invalidated], preset; reflexivity.
Qed.

(** X6.  [loadPreset] replaces the colour stops and the interpolation of
    the gradient, whatever they were: afterwards the gradient has exactly
    the stops the preset lists, in the order listed (the keys are listed
    ascending, so the map merges and reorders none) and the interpolation of
    the preset; the level count and the periodicity are kept and the buffer
    is marked invalid.  So two gradients that agree on level count and
    periodicity are equal by [operator==] after loading the same preset. *)
Theorem loadPreset_replaces (preset : GradientPreset) (g h : QCPColorGradient) :
  mColorStops (loadPreset preset g) = snd (presetStops preset)
  /\ mColorInterpolation (loadPreset preset g) = fst (presetStops preset)
  /\ mLevelCount (loadPreset preset g) = mLevelCount g
  /\ mPeriodic (loadPreset preset g) = mPeriodic g
  /\ mColorBufferInvalidated (loadPreset preset g) = true
  /\ (mLevelCount g = mLevelCount h -> mPeriodic g = mPeriodic h ->
      operator_eq (loadPreset preset g) (loadPreset preset h) = true).
Proof.
  rewrite !loadPreset_fields. split_and!; try done.
  intros Hlevels Hperiodic. unfold operator_eq; cbn [mLevelCount mColorStops
    mColorInterpolation mPeriodic].
  rewrite Hlevels, Hperiodic, Z.eqb_refl, qmap_eqb_refl.
  by destruct (fst (presetStops preset)), (mPeriodic h).
Qed.

Lemma qmap_insert_front key value (m : QMap) :
  match m with
  | [] => True
  | (key', _) :: _ => (key <? key')%float = true
  end ->
  qmap_insert key value m = (key, value) :: m.
Proof.
  destruct m as [|[key' value'] m]; [done|]. intros Hlt; simpl.
  by rewrite (ltb_asym _ _ Hlt), Hlt.
Qed.

Lemma inverted_fold levels interpolation periodic buffer (acc stops : QMap) :
  match stops, acc with
  | (key, _) :: _, (key', _) :: _ => (1.0 - key <? key')%float = true
  | _, _ => True
  end ->
  mirrorsApart stops = true ->
  foldl (fun result '(key, value) => setColorStopAt (1.0 - key)%float value result)
    (mkGradient levels acc interpolation periodic buffer true) stops
  = mkGradient levels (mirroredStops stops ++ acc) interpolation periodic buffer true.
Proof.
  revert acc; induction stops as [|[key value] stops IH]; intros acc Hacc Hapart.
  - done.
  - cbn [foldl]. unfold setColorStopAt at 2; cbn [mLevelCount mColorStops
      mColorInterpolation mPeriodic mColorBuffer].
    rewrite qmap_insert_front by (by destruct acc as [|[??]?]).
    rewrite IH.
    + unfold mirroredStops. simpl. by rewrite <- app_assoc.
    + destruct stops as [|[key2 value2] stops]; [done|].
      simpl in Hapart. by apply andb_prop in Hapart as [? _].
    + destruct stops as [|[key2 value2] stops]; [done|].
      simpl in Hapart. by apply andb_prop in Hapart as [_ ?].
Qed.

(** X7.  [inverted] mirrors the gradient: the stop at key [k] becomes the
    stop at key [1.0 - k] with the same colour, so the colours come in the
    opposite order; the level count, the interpolation and the periodicity
    are kept, and the buffer of the result is marked invalid.  This holds
    when the mirrored keys stay apart; mirrored keys that round to the same
    double share one stop. *)
Theorem inverted_mirrors (g : QCPColorGradient) :
  mirrorsApart (mColorStops g) = true ->
  inverted g
  = mkGradient (mLevelCount g) (mirroredStops (mColorStops g))
      (mColorInterpolation g) (mPeriodic g) (mColorBuffer g) true.
Proof.
  intros Hapart. unfold inverted, clearColorStops.
  rewrite inverted_fold; [by rewrite app_nil_r| |done].
  by destruct (mColorStops g) as [|[??]?].
Qed.

End GradientInterface.

Section GradientInterfaceExamples.
Import Gradient.
Existing Instance unusedQt.
Open Scope Z_scope.

(** X2 on an instance: three levels of gray, position 0.5 of the range
    from 0 to 1. *)
Lemma color_of_few_stops_grayscale :
  fst (color (clearColorStops (grayscale 3)) 0.5 (mkRange 0 1) false)
  = Some (qRgb 0 0 0)
  /\ forall key c,
       fst (color (setColorStopAt key c (clearColorStops (grayscale 3))) 0.5
              (mkRange 0 1) false)
       = Some (rgb c).
Proof. apply (color_of_few_stops (grayscale 3)). by vm_compute. Defined.

(** X3 on an instance: three levels of gray with the buffer built. *)
Lemma colorize_logarithmic_as_color_grayscale :
  exists line',
    colorize (updateColorBuffer (grayscale 3)) (Some (fun _ => 2%float)) (mkRange 1 4)
      (Some (fun _ => 0)) 2 1 true
    = (Some line', snd (color (updateColorBuffer (grayscale 3)) 2 (mkRange 1 4) true), [])
    /\ forall i, 0 <= i < 2 ->
         Some (line' i)
         = fst (color (updateColorBuffer (grayscale 3)) 2 (mkRange 1 4) true).
Proof.
  apply (colorize_logarithmic_as_color (updateColorBuffer (grayscale 3))
           (fun _ => 2%float) (mkRange 1 4) (fun _ => 0) 2 1).
  - vm_compute. discriminate.
  - intros _. vm_compute. reflexivity.
Defined.

(** X7 on an instance: the preset [gpHot]. *)
Lemma inverted_mirrors_hot :
  inverted (construct gpHot)
  = mkGradient (mLevelCount (construct gpHot))
      (mirroredStops (mColorStops (construct gpHot)))
      (mColorInterpolation (construct gpHot)) (mPeriodic (construct gpHot))
      (mColorBuffer (construct gpHot)) true.
Proof. apply (inverted_mirrors (construct gpHot)). vm_compute. reflexivity. Defined.

End GradientInterfaceExamples.

(* ===================================================================== *)
(** * Part X: moves in a stack, link by link                             *)
(* ===================================================================== *)

Section StackMoves.
Import Bars.
Implicit Types (s : Plot) (a b l u x y z : addr) (v : option addr).

(** Adds to every link among the hypotheses the link in the opposite
    direction. *)
Ltac mirror_links Hlinked :=
  repeat match goal with
         | H : barBelow ?s ?p = Some ?q |- _ =>
             lazymatch goal with
             | _ : barAbove s q = Some p |- _ => fail
             | _ => pose proof (proj2 (Hlinked q p) H)
             end
         | H : barAbove ?s ?p = Some ?q |- _ =>
             lazymatch goal with
             | _ : barBelow s q = Some p |- _ => fail
             | _ => pose proof (proj1 (Hlinked p q) H)
             end
         end.

(** ** What a move leaves alone *)

Lemma relink_self (bar : QCPBars) : relink (mBarBelow bar) (mBarAbove bar) bar = bar.
Proof. by destruct bar. Qed.

Lemma relink_relink below above below' above' (bar : QCPBars) :
  relink below' above' (relink below above bar) = relink below' above' bar.
Proof. done. Qed.

Lemma sameButLinks_refl s : sameButLinks s s.
Proof.
  split_and!; try done. intros z. unfold barBelow, barAbove.
  destruct (plotBars s !! z) as [bar|]; simpl; [|done]. by rewrite relink_self.
Qed.

Lemma sameButLinks_trans s1 s2 s3 :
  sameButLinks s1 s2 -> sameButLinks s2 s3 -> sameButLinks s1 s3.
Proof.
  intros (Hg1 & Hx1 & Hd1 & Hb1) (Hg2 & Hx2 & Hd2 & Hb2).
  split_and!; try congruence.
  intros z. rewrite Hb2, Hb1. destruct (plotBars s1 !! z); simpl; [|done].
  by rewrite relink_relink.
Qed.

Lemma sameButLinks_setBelow s a v : sameButLinks s (setBelow a v s).
Proof.
  split_and!; try done. intros z. unfold barBelow, barAbove, setBelow; simpl.
  destruct (decide (z = a)) as [->|Hne].
  - rewrite lookup_alter_eq. destruct (plotBars s !! a) as [bar|]; simpl; [|done].
    by destruct bar.
  - rewrite lookup_alter_ne by done.
    destruct (plotBars s !! z) as [bar|]; simpl; [|done]. by rewrite relink_self.
Qed.

Lemma sameButLinks_setAbove s a v : sameButLinks s (setAbove a v s).
Proof.
  split_and!; try done. intros z. unfold barBelow, barAbove, setAbove; simpl.
  destruct (decide (z = a)) as [->|Hne].
  - rewrite lookup_alter_eq. destruct (plotBars s !! a) as [bar|]; simpl; [|done].
    by destruct bar.
  - rewrite lookup_alter_ne by done.
    destruct (plotBars s !! z) as [bar|]; simpl; [|done]. by rewrite relink_self.
Qed.

Lemma sameButLinks_disconnectAbove s l : sameButLinks s (disconnectAbove l s).
Proof.
  unfold disconnectAbove. destruct (barAbove s l); [|apply sameButLinks_refl].
  case_decide; [apply sameButLinks_setBelow|apply sameButLinks_refl].
Qed.

Lemma sameButLinks_disconnectBelow s u : sameButLinks s (disconnectBelow u s).
Proof.
  unfold disconnectBelow. destruct (barBelow s u); [|apply sameButLinks_refl].
  case_decide; [apply sameButLinks_setAbove|apply sameButLinks_refl].
Qed.

Lemma sameButLinks_connectBars s (lower upper : option addr) :
  sameButLinks s (connectBars lower upper s).
Proof.
  destruct lower as [l|], upper as [u|]; simpl.
  - eapply sameButLinks_trans; [apply sameButLinks_disconnectAbove|].
    eapply sameButLinks_trans; [apply sameButLinks_disconnectBelow|].
    eapply sameButLinks_trans; [apply sameButLinks_setAbove|].
    apply sameButLinks_setBelow.
  - eapply sameButLinks_trans; [apply sameButLinks_disconnectAbove|].
    apply sameButLinks_setAbove.
  - eapply sameButLinks_trans; [apply sameButLinks_disconnectBelow|].
    apply sameButLinks_setBelow.
  - apply sameButLinks_refl.
Qed.

(** Two plots that differ in links only and have the same links are the
    same plot. *)
Lemma sameButLinks_eq s s' :
  sameButLinks s s' ->
  (forall z, barBelow s' z = barBelow s z) ->
  (forall z, barAbove s' z = barAbove s z) ->
  s' = s.
Proof.
  intros (Hg & Hx & Hd & Hb) Hbelow Habove.
  destruct s as [bs gs xs ds], s' as [bs' gs' xs' ds']; simpl in *. subst.
  f_equal. apply map_eq. intros z. rewrite Hb, Hbelow, Habove.
  unfold barBelow, barAbove; simpl.
  destruct (bs !! z) as [bar|]; simpl; [|done]. by rewrite relink_self.
Qed.

(** ** Putting a bar that stands alone on or under another *)

Lemma moveAbove_unfold s a b :
  a <> b -> sameAxes s a b = true ->
  moveAbove a (Some b) s
  = let s1 := connectBars (barBelow s a) (barAbove s a) s in
    connectBars (Some b) (Some a)
      (match barAbove s1 b with
       | Some ba => connectBars (Some a) (Some ba) s1
       | None => s1
       end).
Proof.
  intros Hab Haxes. unfold moveAbove.
  rewrite decide_False by congruence. simpl. by rewrite Haxes.
Qed.

Lemma moveBelow_unfold s a b :
  a <> b -> sameAxes s a b = true ->
  moveBelow a (Some b) s
  = let s1 := connectBars (barBelow s a) (barAbove s a) s in
    connectBars (Some a) (Some b)
      (match barBelow s1 b with
       | Some bb => connectBars (Some bb) (Some a) s1
       | None => s1
       end).
Proof.
  intros Hab Haxes. unfold moveBelow.
  rewrite decide_False by congruence. simpl. by rewrite Haxes.
Qed.

Lemma insertAbove_links s1 a b :
  linked s1 -> live s1 a -> live s1 b -> a <> b ->
  barBelow s1 a = None -> barAbove s1 a = None ->
  let s' := connectBars (Some b) (Some a)
              (match barAbove s1 b with
               | Some ba => connectBars (Some a) (Some ba) s1
               | None => s1
               end) in
  (forall z, barAbove s' z
             = if decide (z = b) then Some a
               else if decide (z = a) then barAbove s1 b
               else barAbove s1 z)
  /\ (forall z, barBelow s' z
                = if decide (z = a) then Some b
                  else if decide (barAbove s1 b = Some z) then Some a
                  else barBelow s1 z).
Proof.
  intros Hlinked1 Hla Hlb Hab Hba1 Haa1 s'.
  set (s2 := match barAbove s1 b with
             | Some ba => connectBars (Some a) (Some ba) s1
             | None => s1
             end) in *.
  assert ((forall z, barAbove s2 z
                     = if decide (z = a) then barAbove s1 b
                       else if decide (z = b) then None
                       else barAbove s1 z)
          /\ (forall z, barBelow s2 z
                        = if decide (barAbove s1 b = Some z) then Some a
                          else barBelow s1 z)
          /\ linked s2
          /\ (forall z, live s2 z <-> live s1 z)) as (Ha2 & Hb2 & Hlinked2 & Hl2).
  { subst s2. destruct (barAbove s1 b) as [c|] eqn:Hc.
    - assert (c <> a) as Hca by (intros ->; apply Hlinked1 in Hc; congruence).
      assert (live s1 c) as Hlc by (apply Hlinked1 in Hc; by eapply barBelow_live).
      destruct (connectBars_links s1 (Some a) (Some c)) as (Ha & Hb & Hl); [done..|].
      pose proof (proj1 (Hlinked1 _ _) Hc) as Hcb.
      split_and!.
      + intros z. rewrite Ha. simpl. rewrite Hcb.
        repeat case_decide; simplify_eq; done.
      + intros z. rewrite Hb. simpl. rewrite Haa1.
        repeat case_decide; simplify_eq; done.
      + by apply connectBars_linked.
      + done.
    - split_and!; try done.
      intros z. repeat case_decide; simplify_eq; done. }
  assert (live s2 a) as Hla2 by (by apply Hl2).
  assert (live s2 b) as Hlb2 by (by apply Hl2).
  destruct (connectBars_links s2 (Some b) (Some a)) as (Ha & Hb & Hl); [done..|].
  split.
  - intros z. subst s'. rewrite Ha. simpl. rewrite !Hb2, !Ha2, Hba1.
    repeat case_decide; simplify_eq; try done.
    all: mirror_links Hlinked1; congruence.
  - intros z. subst s'. rewrite Hb. simpl. rewrite !Ha2, !Hb2.
    repeat case_decide; simplify_eq; done.
Qed.

Lemma insertBelow_links s1 a b :
  linked s1 -> live s1 a -> live s1 b -> a <> b ->
  barBelow s1 a = None -> barAbove s1 a = None ->
  let s' := connectBars (Some a) (Some b)
              (match barBelow s1 b with
               | Some bb => connectBars (Some bb) (Some a) s1
               | None => s1
               end) in
  (forall z, barBelow s' z
             = if decide (z = b) then Some a
               else if decide (z = a) then barBelow s1 b
               else barBelow s1 z)
  /\ (forall z, barAbove s' z
                = if decide (z = a) then Some b
                  else if decide (barBelow s1 b = Some z) then Some a
                  else barAbove s1 z).
Proof.
  intros Hlinked1 Hla Hlb Hab Hba1 Haa1 s'.
  set (s2 := match barBelow s1 b with
             | Some bb => connectBars (Some bb) (Some a) s1
             | None => s1
             end) in *.
  assert ((forall z, barBelow s2 z
                     = if decide (z = a) then barBelow s1 b
                       else if decide (z = b) then None
                       else barBelow s1 z)
          /\ (forall z, barAbove s2 z
                        = if decide (barBelow s1 b = Some z) then Some a
                          else barAbove s1 z)
          /\ linked s2
          /\ (forall z, live s2 z <-> live s1 z)) as (Hb2 & Ha2 & Hlinked2 & Hl2).
  { subst s2. destruct (barBelow s1 b) as [c|] eqn:Hc.
    - assert (c <> a) as Hca by (intros ->; apply Hlinked1 in Hc; congruence).
      assert (live s1 c) as Hlc by (apply Hlinked1 in Hc; by eapply barAbove_live).
      destruct (connectBars_links s1 (Some c) (Some a)) as (Ha & Hb & Hl); [done..|].
      pose proof (proj2 (Hlinked1 _ _) Hc) as Hcb.
      split_and!.
      + intros z. rewrite Hb. simpl. rewrite Hcb.
        repeat case_decide; simplify_eq; done.
      + intros z. rewrite Ha. simpl. rewrite Hba1.
        repeat case_decide; simplify_eq; done.
      + by apply connectBars_linked.
      + done.
    - split_and!; try done.
      intros z. repeat case_decide; simplify_eq; done. }
  assert (live s2 a) as Hla2 by (by apply Hl2).
  assert (live s2 b) as Hlb2 by (by apply Hl2).
  destruct (connectBars_links s2 (Some a) (Some b)) as (Ha & Hb & Hl); [done..|].
  split.
  - intros z. subst s'. rewrite Hb. simpl. rewrite !Ha2, !Hb2, Haa1.
    repeat case_decide; simplify_eq; try done.
    all: mirror_links Hlinked1; congruence.
  - intros z. subst s'. rewrite Ha. simpl. rewrite !Hb2, !Ha2.
    repeat case_decide; simplify_eq; done.
Qed.

(** X8.  [moveBelow(bars)] with a target on the same axes puts this bar
    directly below the target, between the target and the bar that was below
    it (at the bottom of the stack when there was none).  The bars that were
    below and above this bar are linked to each other.  Every other link and
    everything that is not a link (data, widths, groups, axes, debug output)
    is as it was, and the links stay mutually consistent and acyclic. *)
Theorem moveBelow_inserts (s : Plot) (a b : addr) :
  linked s -> acyclic s -> live s a -> live s b -> a <> b ->
  sameAxes s a b = true ->
  let s' := moveBelow a (Some b) s in
  barAbove s' a = Some b
  /\ barBelow s' b = Some a
  /\ (forall c, barBelow s b = Some c -> c <> a ->
        barBelow s' a = Some c /\ barAbove s' c = Some a)
  /\ (barBelow s b = None -> barBelow s' a = None)
  /\ (forall x y, barBelow s a = Some x -> barAbove s a = Some y -> y <> b ->
        barAbove s' x = Some y /\ barBelow s' y = Some x)
  /\ (forall z, z <> a -> z <> b -> barBelow s z <> Some a ->
        barBelow s' z = barBelow s z)
  /\ (forall z, z <> a -> barAbove s z <> Some a -> barAbove s z <> Some b ->
        barAbove s' z = barAbove s z)
  /\ sameButLinks s s'
  /\ linked s' /\ acyclic s' /\ (forall z, live s' z <-> live s z).
Proof.
  intros Hlinked Hacyclic Hla Hlb Hab Haxes s'.
  pose proof (acyclic_irrefl s a Hacyclic) as Hirr.
  destruct (spliceOut_links s a Hlinked Hacyclic Hla) as (Hb1 & Ha1 & Hl1 & Hlinked1 & _).
  destruct (moveBelow_splice s a b Hlinked Hacyclic Hla Hlb Hab Haxes)
    as (_ & _ & _ & _ & Hlinked' & Hacyclic' & Hlive').
  set (s1 := connectBars (barBelow s a) (barAbove s a) s) in *.
  destruct (insertBelow_links s1 a b) as (Hb & Ha).
  { done. } { by apply Hl1. } { by apply Hl1. } { done. }
  { by rewrite Hb1, decide_True. } { by rewrite Ha1, decide_True. }
  assert (s' = connectBars (Some a) (Some b)
                 (match barBelow s1 b with
                  | Some bb => connectBars (Some bb) (Some a) s1
                  | None => s1
                  end)) as Hs' by (subst s'; by rewrite moveBelow_unfold).
  rewrite <- Hs' in Hb, Ha.
  assert (sameButLinks s s') as Hsame.
  { rewrite Hs'. eapply sameButLinks_trans; [apply sameButLinks_connectBars|].
    fold s1. eapply sameButLinks_trans; [|apply sameButLinks_connectBars].
    destruct (barBelow s1 b);
      [apply sameButLinks_connectBars|apply sameButLinks_refl]. }
  split_and!; try done.
  - rewrite Ha. by rewrite decide_True.
  - rewrite Hb. by rewrite decide_True.
  - intros c Hc Hca. rewrite Hb, Ha, !Hb1.
    repeat case_decide; simplify_eq; try done; congruence.
  - intros Hnone. rewrite Hb, !Hb1.
    repeat case_decide; simplify_eq; try done; congruence.
  - intros x y Hx Hy Hyb. rewrite Ha, Hb, !Hb1, !Ha1.
    split; repeat case_decide; simplify_eq; try done;
      mirror_links Hlinked; congruence.
  - intros z Hza Hzb Hz. rewrite Hb, !Hb1.
    repeat case_decide; simplify_eq; done.
  - intros z Hza Hz Hz'. rewrite Ha, !Hb1, !Ha1.
    repeat case_decide; simplify_eq; try done;
      mirror_links Hlinked; congruence.
Qed.

(** X9.  Every move and the destruction of a bar keep the stacking links
    sound, whatever the target of the move (null, the bar itself, a bar on
    other axes, or a bar on the same axes): afterwards the two directions of
    the links agree, no chain of links is circular, and every link joins two
    bars of the plot; in particular no link leads to a destroyed bar. *)
Theorem stack_links_kept (s : Plot) (a : addr) (target : option addr) :
  linked s -> acyclic s -> live s a -> from_option (live s) True target ->
  Forall
    (fun s' =>
       linked s' /\ acyclic s'
       /\ (forall x y, barBelow s' x = Some y \/ barAbove s' x = Some y ->
             live s' x /\ live s' y))
    [moveAbove a target s; moveBelow a target s; destroyBars a s].
Proof.
  intros Hlinked Hacyclic Hla Htarget.
  assert (forall s', linked s' /\ acyclic s' ->
            linked s' /\ acyclic s'
            /\ (forall x y, barBelow s' x = Some y \/ barAbove s' x = Some y ->
                  live s' x /\ live s' y)) as Hlive.
  { intros s' [Hlinked' Hacyclic']. split_and!; [done|done|].
    intros x y [Hxy|Hxy].
    - split; [by eapply barBelow_live|].
      apply Hlinked' in Hxy. by eapply barAbove_live.
    - split; [by eapply barAbove_live|].
      apply Hlinked' in Hxy. by eapply barBelow_live. }
  destruct (stacking_preserved s a target) as (Habove & Hbelow & Hdestroy);
    [done..|].
  repeat apply Forall_cons; auto.
Qed.

Lemma moveAbove_none s a :
  moveAbove a None s = connectBars (barBelow s a) (barAbove s a) s.
Proof. done. Qed.

(** X10.  Putting a bar that stands alone on top of (or under) another bar
    and taking it out of the stack again gives back the plot as it was: the
    bars that the insertion separated are linked to each other again, and
    nothing else has changed. *)
Theorem move_in_and_out (s : Plot) (a b : addr) :
  linked s -> acyclic s -> live s a -> live s b -> a <> b ->
  sameAxes s a b = true ->
  barBelow s a = None -> barAbove s a = None ->
  moveAbove a None (moveAbove a (Some b) s) = s
  /\ moveBelow a None (moveBelow a (Some b) s) = s.
Proof.
  intros Hlinked Hacyclic Hla Hlb Hab Haxes Hbelow Habove.
  assert (connectBars (barBelow s a) (barAbove s a) s = s) as Hs1
    by (by rewrite Hbelow, Habove).
  split.
  - destruct (moveAbove_splice s a b Hlinked Hacyclic Hla Hlb Hab Haxes)
      as (_ & _ & _ & _ & Hlinked' & Hacyclic' & Hlive').
    destruct (insertAbove_links s a b) as (Ha & Hb); [done..|].
    assert (sameButLinks s (moveAbove a (Some b) s)) as Hsame.
    { rewrite moveAbove_unfold by done. cbv zeta.
      rewrite Hs1.
      eapply sameButLinks_trans; [|apply sameButLinks_connectBars].
      destruct (barAbove s b);
        [apply sameButLinks_connectBars|apply sameButLinks_refl]. }
    rewrite moveAbove_unfold in Hlinked', Hacyclic', Hlive', Hsame |- * by done.
    cbv zeta in *. rewrite Hs1 in *.
    set (s' := connectBars (Some b) (Some a) _) in *.
    destruct (spliceOut_links s' a Hlinked' Hacyclic') as (Hb2 & Ha2 & _);
      [by apply Hlive'|].
    rewrite moveAbove_none. apply sameButLinks_eq.
    + eapply sameButLinks_trans; [exact Hsame|apply sameButLinks_connectBars].
    + intros z. rewrite Hb2, !Hb.
      repeat case_decide; simplify_eq; try done;
        mirror_links Hlinked; congruence.
    + intros z. rewrite Ha2, !Ha.
      repeat case_decide; simplify_eq; try done;
        mirror_links Hlinked; congruence.
  - destruct (moveBelow_splice s a b Hlinked Hacyclic Hla Hlb Hab Haxes)
      as (_ & _ & _ & _ & Hlinked' & Hacyclic' & Hlive').
    destruct (insertBelow_links s a b) as (Hb & Ha); [done..|].
    assert (sameButLinks s (moveBelow a (Some b) s)) as Hsame.
    { rewrite moveBelow_unfold by done. cbv zeta.
      rewrite Hs1.
      eapply sameButLinks_trans; [|apply sameButLinks_connectBars].
      destruct (barBelow s b);
        [apply sameButLinks_connectBars|apply sameButLinks_refl]. }
    rewrite moveBelow_unfold in Hlinked', Hacyclic', Hlive', Hsame |- * by done.
    cbv zeta in *. rewrite Hs1 in *.
    set (s' := connectBars (Some a) (Some b) _) in *.
    destruct (spliceOut_links s' a Hlinked' Hacyclic') as (Hb2 & Ha2 & _);
      [by apply Hlive'|].
    rewrite moveBelow_none. apply sameButLinks_eq.
    + eapply sameButLinks_trans; [exact Hsame|apply sameButLinks_connectBars].
    + intros z. rewrite Hb2, !Hb.
      repeat case_decide; simplify_eq; try done;
        mirror_links Hlinked; congruence.
    + intros z. rewrite Ha2, !Ha.
      repeat case_decide; simplify_eq; try done;
        mirror_links Hlinked; congruence.
Qed.

End StackMoves.

Section StackMovesExamples.
Import Bars.

(** X8 on an instance: bars 3 moved below bars 2, which stand on bars 1. *)
Lemma moveBelow_inserts_stackedPlot :
  let s := stackedPlot in
  let s' := moveBelow 3%nat (Some 2%nat) s in
  barAbove s' 3%nat = Some 2%nat
  /\ barBelow s' 2%nat = Some 3%nat
  /\ (forall c, barBelow s 2%nat = Some c -> c <> 3%nat ->
        barBelow s' 3%nat = Some c /\ barAbove s' c = Some 3%nat)
  /\ (barBelow s 2%nat = None -> barBelow s' 3%nat = None)
  /\ (forall x y, barBelow s 3%nat = Some x -> barAbove s 3%nat = Some y -> y <> 2%nat ->
        barAbove s' x = Some y /\ barBelow s' y = Some x)
  /\ (forall z, z <> 3%nat -> z <> 2%nat -> barBelow s z <> Some 3%nat ->
        barBelow s' z = barBelow s z)
  /\ (forall z, z <> 3%nat -> barAbove s z <> Some 3%nat -> barAbove s z <> Some 2%nat ->
        barAbove s' z = barAbove s z)
  /\ sameButLinks s s'
  /\ linked s' /\ acyclic s' /\ (forall z, live s' z <-> live s z).
Proof.
  apply (moveBelow_inserts stackedPlot 3%nat 2%nat).
  - exact stackedPlot_linked.
  - exact stackedPlot_acyclic.
  - vm_compute. eauto.
  - vm_compute. eauto.
  - discriminate.
  - vm_compute. reflexivity.
Defined.

(** X9 on an instance: bars 2, which stand on bars 1, and the target
    bars 3. *)
Lemma stack_links_kept_stackedPlot :
  Forall
    (fun s' =>
       linked s' /\ acyclic s'
       /\ (forall x y, barBelow s' x = Some y \/ barAbove s' x = Some y ->
             live s' x /\ live s' y))
    [moveAbove 2%nat (Some 3%nat) stackedPlot;
     moveBelow 2%nat (Some 3%nat) stackedPlot;
     destroyBars 2%nat stackedPlot].
Proof.
  apply (stack_links_kept stackedPlot 2%nat (Some 3%nat)).
  - exact stackedPlot_linked.
  - exact stackedPlot_acyclic.
  - vm_compute. eauto.
  - vm_compute. eauto.
Defined.

(** X10 on an instance: bars 3 put on bars 1, between bars 1 and bars 2,
    and taken out again. *)
Lemma move_in_and_out_stackedPlot :
  moveAbove 3%nat None (moveAbove 3%nat (Some 1%nat) stackedPlot) = stackedPlot
  /\ moveBelow 3%nat None (moveBelow 3%nat (Some 1%nat) stackedPlot) = stackedPlot.
Proof.
  apply (move_in_and_out stackedPlot 3%nat 1%nat).
  - exact stackedPlot_linked.
  - exact stackedPlot_acyclic.
  - vm_compute. eauto.
  - vm_compute. eauto.
  - discriminate.
  - vm_compute. reflexivity.
  - vm_compute. reflexivity.
  - vm_compute. reflexivity.
Defined.

End StackMovesExamples.

(* ===================================================================== *)
(** * Part XI: stacked values and ranges                                 *)
(* ===================================================================== *)

Section StackedValues.
Import Bars.
Open Scope float_scope.
Implicit Types (s : Plot) (d : list QCPBarsData) (p q : QCPBarsData).

(** ** The sides of a stack *)

(** The running [max] of the loop stays on the side it is asked for. *)
Lemma stackMax_side d key :
  onOrAbove (stackMax d key true) /\ onOrBelow (stackMax d key false).
Proof.
  unfold stackMax. split.
  - rewrite stack_fold_positive by (by left).
    destruct (contributionOf_sign (nearKey key)
                (take (findEndAboveKey d (key + stackEpsilon key)
                       - findBeginBelowKey d (key - stackEpsilon key))
                   (drop (findBeginBelowKey d (key - stackEpsilon key)) d)))
      as [[Hzero|Hpos] _]; unfold stackContribution.
    + rewrite Hzero. by left.
    + apply larger_above; [by left|done].
  - rewrite stack_fold_negative by (by left).
    destruct (contributionOf_sign (nearKey key)
                (take (findEndAboveKey d (key + stackEpsilon key)
                       - findBeginBelowKey d (key - stackEpsilon key))
                   (drop (findBeginBelowKey d (key - stackEpsilon key)) d)))
      as [_ [Hzero|Hneg]]; unfold stackContribution.
    + rewrite Hzero. by left.
    + apply smaller_below; [by left|done].
Qed.

(** A value on the positive side added to a base that is not below a
    bound gives a base that is not below it, and likewise downwards. *)
Lemma add_above max rest bound :
  onOrAbove max -> (rest <? bound) = false -> (max + rest <? bound) = false.
Proof.
  intros [->|Hmax] Hrest; [by rewrite (proj1 (add_zero_ltb rest bound))|].
  destruct (max + rest <? bound) eqn:Hsum; [|done].
  destruct (ltb_number _ _ Hsum) as [Hnumber _].
  pose proof (add_number _ _ Hnumber) as Hrest_number.
  pose proof (leb_total _ _ Hnumber Hrest_number (proj1 (add_side max rest) Hmax)) as Hle.
  by rewrite (leb_ltb_trans _ _ _ Hle Hsum) in Hrest.
Qed.

Lemma add_below max rest bound :
  onOrBelow max -> (bound <? rest) = false -> (bound <? max + rest) = false.
Proof.
  intros [->|Hmax] Hrest; [by rewrite (proj2 (add_zero_ltb rest bound))|].
  destruct (bound <? max + rest) eqn:Hsum; [|done].
  destruct (ltb_number _ _ Hsum) as [_ Hnumber].
  pose proof (add_number _ _ Hnumber) as Hrest_number.
  pose proof (leb_total _ _ Hrest_number Hnumber (proj2 (add_side max rest) Hmax)) as Hle.
  by rewrite (ltb_leb_trans _ _ _ Hsum Hle) in Hrest.
Qed.

(** X11. In a stack that ends, the stacked base value on the positive
    side is never below, and the one on the negative side never above, the
    base value of the bars at the bottom of the stack: positive bars are
    stacked upwards from there and negative bars downwards.  The sums are
    those of the doubles, rounded at every series of the stack. *)
Theorem getStackedBaseValue_sides (s : Plot) (this : addr) (n fuel : nat) (key : float) :
  stackHeight s this n -> (n < fuel)%nat ->
  exists root rootBars below above,
    stackRoot fuel s this = Some root
    /\ plotBars s !! root = Some rootBars
    /\ mBarBelow rootBars = None
    /\ getStackedBaseValue fuel s this key false = Some below
    /\ getStackedBaseValue fuel s this key true = Some above
    /\ (mBaseValue rootBars <? below) = false
    /\ (above <? mBaseValue rootBars) = false.
Proof.
  intros Hheight. revert fuel.
  induction Hheight as [a bar Ha Hb|a bar b n Ha Hb Hn IH]; intros fuel Hfuel;
    (destruct fuel as [|fuel]; [lia|]);
    cbn [getStackedBaseValue stackRoot]; unfold barBelow; rewrite Ha; simpl; rewrite Hb.
  - exists a, bar, (mBaseValue bar), (mBaseValue bar).
    split_and!; try done; apply ltb_irrefl.
  - assert (is_Some (plotBars s !! b)) as [lowerBars Hlower]
      by (inversion Hn; eauto).
    rewrite Hlower; simpl.
    destruct (IH fuel ltac:(lia))
      as (root & rootBars & below & above & Hroot & Hbars & Hbottom & -> & -> & Hdown & Hup).
    destruct (stackMax_side (mDataContainer lowerBars) key) as [Hpositive Hnegative].
    exists root, rootBars. eexists _, _. simpl. split_and!; try done.
    + by apply add_below.
    + by apply add_above.
Qed.

(** ** What the value range covers *)

Lemma valueRangeStep_current inSignDomain current st :
  snd (fst st) = true -> snd st = true ->
  (lower (fst (fst st)) <=? upper (fst (fst st))) = true ->
  is_nan current = false -> inDomain inSignDomain current = true ->
  let st' := valueRangeStep inSignDomain current st in
  (lower (fst (fst st')) <=? current) = true
  /\ (current <=? upper (fst (fst st'))) = true.
Proof.
  destruct st as [[[lo up] haveLower] haveUpper]; simpl.
  intros -> -> Horder Hnumber%negb_false_iff Hdomain. unfold valueRangeStep.
  rewrite Hdomain. simpl. rewrite !orb_false_r.
  destruct (leb_number _ _ Horder) as [Hlo Hup].
  destruct (current <? lo) eqn:Hl; simpl;
    destruct (_ <? current) eqn:Hu; simpl; split; auto using leb_refl, leb_total.
Qed.

Lemma valueRangeLoop_covers fuel s this n inSignDomain data st :
  stackHeight s this n -> (n < fuel)%nat ->
  snd (fst st) = true -> snd st = true ->
  (lower (fst (fst st)) <=? upper (fst (fst st))) = true ->
  exists st',
    valueRangeLoop fuel s this inSignDomain data st = Some st'
    /\ (lower (fst (fst st')) <=? upper (fst (fst st'))) = true
    /\ forall p, p ∈ data ->
         exists base,
           getStackedBaseValue fuel s this (key p) (0 <=? value p) = Some base
           /\ (is_nan (value p + base) = false ->
               inDomain inSignDomain (value p + base) = true ->
               (lower (fst (fst st')) <=? value p + base) = true
               /\ (value p + base <=? upper (fst (fst st'))) = true).
Proof.
  intros Hheight Hfuel. revert st.
  induction data as [|it data IH]; intros st Hl Hu Horder; simpl.
  { exists st. split_and!; [done|done|]. intros p Hp. by apply elem_of_nil in Hp. }
  destruct (getStackedBaseValue_fuel s this n (key it) (0 <=? value it) fuel fuel
              Hheight Hfuel Hfuel) as [[r Hr] _].
  rewrite Hr. simpl.
  set (st1 := valueRangeStep inSignDomain (value it + r) st).
  destruct (leb_number _ _ Horder) as [Hlo Hup].
  destruct (valueRangeStep_base inSignDomain (value it + r) st (lower (fst (fst st)))
              Hl Hu (leb_refl _ Hlo) Horder) as (Hl1 & Hu1 & Hlo1 & _).
  destruct (valueRangeStep_base inSignDomain (value it + r) st (upper (fst (fst st)))
              Hl Hu Horder (leb_refl _ Hup)) as (_ & _ & _ & Hup1).
  fold st1 in Hl1, Hu1, Hlo1, Hup1.
  pose proof (leb_trans _ _ _ Hlo1 (leb_trans _ _ _ Horder Hup1)) as Horder1.
  destruct (IH st1 Hl1 Hu1 Horder1) as (st' & Hloop & Horder' & Hcovers).
  exists st'. split_and!; [done|done|].
  intros p [->|Hp]%elem_of_cons; [|by apply Hcovers].
  exists r. split; [done|]. intros Hnumber Hdomain.
  destruct (valueRangeStep_current inSignDomain (value it + r) st Hl Hu Horder
              Hnumber Hdomain) as [Hbelow Habove]. fold st1 in Hbelow, Habove.
  destruct (valueRangeLoop_base fuel s this n inSignDomain data st1 (value it + r)
              Hheight Hfuel Hl1 Hu1 Hbelow Habove) as (st'' & Hloop' & Hwithin).
  by simplify_eq.
Qed.

(** X12.  The value range covers the bars: for bars in a stack that ends
    and with a base value that is a number, the range [getValueRange]
    returns has its lower bound at or below its upper bound and holds
    [value + getStackedBaseValue(key, value >= 0)], the far end of the bar
    as the code adds it up, for every data point whose far end is a number
    in the sign domain asked for (with [sdBoth], for every data point whose
    far end is a number). *)
Theorem getValueRange_covers (s : Plot) (this : addr) (n fuel : nat)
  (inSignDomain : SignDomain) :
  stackHeight s this n -> (n < fuel)%nat ->
  exists bar range,
    plotBars s !! this = Some bar
    /\ getValueRange fuel s this inSignDomain = Some (range, true)
    /\ forall p, p ∈ mDataContainer bar ->
         exists base,
           getStackedBaseValue fuel s this (key p) (0 <=? value p) = Some base
           /\ (is_nan (mBaseValue bar) = false ->
               (lower range <=? upper range) = true
               /\ (is_nan (value p + base) = false ->
                   inDomain inSignDomain (value p + base) = true ->
                   (lower range <=? value p + base) = true
                   /\ (value p + base <=? upper range) = true)).
Proof.
  intros Hheight Hfuel.
  assert (is_Some (plotBars s !! this)) as [bar Hbar] by (inversion Hheight; eauto).
  destruct (valueRangeLoop_ends fuel s this n inSignDomain (mDataContainer bar)
              (mkRange (mBaseValue bar) (mBaseValue bar), true, true) Hheight Hfuel)
    as [st' Hloop].
  exists bar, (fst (fst st')). split; [done|]. split.
  { unfold getValueRange. rewrite Hbar; simpl. by rewrite Hloop. }
  intros p Hp.
  destruct (getStackedBaseValue_fuel s this n (key p) (0 <=? value p) fuel fuel
              Hheight Hfuel Hfuel) as [[base Hbase] _].
  exists base. split; [done|]. intros Hnumber%negb_false_iff.
  destruct (valueRangeLoop_covers fuel s this n inSignDomain (mDataContainer bar)
              (mkRange (mBaseValue bar) (mBaseValue bar), true, true) Hheight Hfuel
              eq_refl eq_refl (leb_refl _ Hnumber))
    as (st'' & Hloop' & Horder & Hcovers).
  rewrite Hloop in Hloop'. injection Hloop' as <-.
  split; [done|].
  destruct (Hcovers p Hp) as (base' & Hbase' & Hwithin).
  rewrite Hbase in Hbase'. by injection Hbase' as <-.
Qed.

(** ** The base value in a stack *)

Lemma setBaseValue_lookup s a v z :
  plotBars (setBaseValue a v s) !! z
  = (fun bar =>
       if decide (z = a)
       then mkBars (mKeyAxis bar) (mValueAxis bar) (mDataContainer bar) (mWidth bar)
              (mWidthType bar) (mBarsGroup bar) v (mBarBelow bar) (mBarAbove bar)
       else bar) <$> plotBars s !! z.
Proof.
  unfold setBaseValue; simpl. destruct (decide (z = a)) as [->|Hne].
  - rewrite lookup_alter_eq. by destruct (plotBars s !! a).
  - rewrite lookup_alter_ne by done. by destruct (plotBars s !! z).
Qed.

Lemma getStackedBaseValue_setBaseValue_above s a v fuel this key positive :
  is_Some (barBelow s a) ->
  getStackedBaseValue fuel (setBaseValue a v s) this key positive
  = getStackedBaseValue fuel s this key positive.
Proof.
  intros [c Hc]. revert this.
  induction fuel as [|fuel IH]; intros this; cbn [getStackedBaseValue]; [done|].
  rewrite setBaseValue_lookup.
  destruct (plotBars s !! this) as [bar|] eqn:Hbar; simpl; [|done].
  assert (mBarBelow (if decide (this = a)
                     then mkBars (mKeyAxis bar) (mValueAxis bar) (mDataContainer bar)
                            (mWidth bar) (mWidthType bar) (mBarsGroup bar) v
                            (mBarBelow bar) (mBarAbove bar)
                     else bar) = mBarBelow bar) as -> by (by case_decide).
  destruct (mBarBelow bar) as [b|] eqn:Hb.
  - change (alter _ a (plotBars s) !! b) with (plotBars (setBaseValue a v s) !! b).
    rewrite setBaseValue_lookup, IH.
    destruct (plotBars s !! b) as [lowerBars|]; simpl; [|done].
    by case_decide.
  - case_decide; [|done]. subst this.
    unfold barBelow in Hc. rewrite Hbar in Hc. simpl in Hc. congruence.
Qed.

Lemma getStackedBaseValue_setBaseValue_other s a v fuel this key positive :
  is_Some (stackRoot fuel s this) -> stackRoot fuel s this <> Some a ->
  getStackedBaseValue fuel (setBaseValue a v s) this key positive
  = getStackedBaseValue fuel s this key positive.
Proof.
  revert this.
  induction fuel as [|fuel IH]; intros this Hroot Hother; cbn [getStackedBaseValue];
    [done|].
  rewrite setBaseValue_lookup. revert Hroot Hother. cbn [stackRoot]. unfold barBelow.
  destruct (plotBars s !! this) as [bar|] eqn:Hbar; simpl; [|done].
  assert (mBarBelow (if decide (this = a)
                     then mkBars (mKeyAxis bar) (mValueAxis bar) (mDataContainer bar)
                            (mWidth bar) (mWidthType bar) (mBarsGroup bar) v
                            (mBarBelow bar) (mBarAbove bar)
                     else bar) = mBarBelow bar) as -> by (by case_decide).
  destruct (mBarBelow bar) as [b|] eqn:Hb.
  - intros Hroot Hother.
    change (alter _ a (plotBars s) !! b) with (plotBars (setBaseValue a v s) !! b).
    rewrite setBaseValue_lookup, IH by done.
    destruct (plotBars s !! b) as [lowerBars|]; simpl; [|done].
    by case_decide.
  - intros _ Hother. case_decide; [congruence|done].
Qed.

(** X13.  Only the base value of the bottom-most bars of a stack has a
    meaning.  [setBaseValue] on bars that stand on other bars changes no
    stacked base value of the plot.  [setBaseValue] on bars at the bottom of
    a stack makes the new value the stacked base value of these bars and
    leaves the stacked base values in the other stacks as they are. *)
Theorem setBaseValue_in_stack (s : Plot) (a : addr) (rootBars : QCPBars) (v : float)
  (n fuel : nat) (this : addr) (key : float) (positive : bool) :
  plotBars s !! a = Some rootBars ->
  stackHeight s this n -> (n < fuel)%nat ->
  exists r r',
    getStackedBaseValue fuel s this key positive = Some r
    /\ getStackedBaseValue fuel (setBaseValue a v s) this key positive = Some r'
    /\ match mBarBelow rootBars with
       | Some _ => r' = r
       | None => (this = a -> r' = v) /\ (stackRoot fuel s this <> Some a -> r' = r)
       end.
Proof.
  intros Hroot Hheight Hfuel.
  destruct (getStackedBaseValue_fuel s this n key positive fuel fuel Hheight Hfuel Hfuel)
    as [[r Hr] _].
  destruct (mBarBelow rootBars) as [c|] eqn:Hc.
  - exists r, r. split_and!; [done| |done].
    rewrite getStackedBaseValue_setBaseValue_above; [done|].
    unfold barBelow. rewrite Hroot. simpl. eauto.
  - destruct (decide (stackRoot fuel s this = Some a)) as [Hthis|Hother].
    + destruct (decide (this = a)) as [->|Hne].
      * exists r, v. split_and!; [done| |done|done].
        destruct fuel as [|fuel]; [lia|]. cbn [getStackedBaseValue].
        rewrite setBaseValue_lookup, Hroot. simpl. rewrite decide_True by done.
        simpl. by rewrite Hc.
      * assert (stackHeight (setBaseValue a v s) this n) as Hheight'.
        { clear Hr Hthis Hne Hfuel.
          induction Hheight as [x bar Hx Hb|x bar b n Hx Hb Hn IH].
          - eapply stackHeight_base.
            + rewrite setBaseValue_lookup, Hx. simpl. reflexivity.
            + by case_decide.
          - eapply stackHeight_step; [| |exact IH].
            + rewrite setBaseValue_lookup, Hx. simpl. reflexivity.
            + by case_decide. }
        destruct (getStackedBaseValue_fuel _ this n key positive fuel fuel Hheight'
                    Hfuel Hfuel) as [[r' Hr'] _].
        exists r, r'. split_and!; done.
    + exists r, r. split_and!; [done| | |done].
      2:{ intros ->. destruct Hother. destruct fuel as [|fuel]; [lia|].
          cbn [stackRoot]. unfold barBelow. rewrite Hroot. simpl. by rewrite Hc. }
      rewrite getStackedBaseValue_setBaseValue_other; [done| |done].
      clear Hr Hother. revert fuel Hfuel.
      induction Hheight as [x bar Hx Hb|x bar b n Hx Hb Hn IH]; intros fuel Hfuel;
        (destruct fuel as [|fuel]; [lia|]);
        cbn [stackRoot]; unfold barBelow; rewrite Hx; simpl; rewrite Hb; [done|].
      apply IH. lia.
Qed.

End StackedValues.

Section StackedValuesExamples.
Import Bars.
Open Scope float_scope.

(** X11 on an instance: bars 2 on bars 1 in [stackedPlot], at key 1. *)
Lemma getStackedBaseValue_sides_stackedPlot :
  exists root rootBars below above,
    stackRoot 2 stackedPlot 2%nat = Some root
    /\ plotBars stackedPlot !! root = Some rootBars
    /\ mBarBelow rootBars = None
    /\ getStackedBaseValue 2 stackedPlot 2%nat 1 false = Some below
    /\ getStackedBaseValue 2 stackedPlot 2%nat 1 true = Some above
    /\ (mBaseValue rootBars <? below) = false
    /\ (above <? mBaseValue rootBars) = false.
Proof.
  apply (getStackedBaseValue_sides stackedPlot 2%nat 1 2 1).
  - exact stackedPlot_height.
  - lia.
Defined.

(** X12 on an instance: bars 2 on bars 1 in [stackedPlot], both signs. *)
Lemma getValueRange_covers_stackedPlot :
  exists bar range,
    plotBars stackedPlot !! 2%nat = Some bar
    /\ getValueRange 2 stackedPlot 2%nat sdBoth = Some (range, true)
    /\ forall p, p ∈ mDataContainer bar ->
         exists base,
           getStackedBaseValue 2 stackedPlot 2%nat (key p) (0 <=? value p) = Some base
           /\ (is_nan (mBaseValue bar) = false ->
               (lower range <=? upper range) = true
               /\ (is_nan (value p + base) = false ->
                   inDomain sdBoth (value p + base) = true ->
                   (lower range <=? value p + base) = true
                   /\ (value p + base <=? upper range) = true)).
Proof.
  apply (getValueRange_covers stackedPlot 2%nat 1 2 sdBoth).
  - exact stackedPlot_height.
  - lia.
Defined.

(** X13 on an instance: the base value of bars 1, the bottom of the stack
    of bars 2, set to 10. *)
Lemma setBaseValue_in_stack_stackedPlot :
  exists r r',
    getStackedBaseValue 2 stackedPlot 1%nat 1 true = Some r
    /\ getStackedBaseValue 2 (setBaseValue 1%nat 10 stackedPlot) 1%nat 1 true = Some r'
    /\ ((1%nat = 1%nat -> r' = 10)
        /\ (stackRoot 2 stackedPlot 1%nat <> Some 1%nat -> r' = r)).
Proof.
  apply (setBaseValue_in_stack stackedPlot 1%nat
           (barsOn 100%nat [mkData 1 3] wtPlotCoords None None (Some 2%nat)) 10 0 2
           1%nat 1 true).
  - by vm_compute.
  - eapply stackHeight_base; [by vm_compute|done].
  - lia.
Defined.

End StackedValuesExamples.

(* ===================================================================== *)
(** * Part XII: the members of a group, call by call                     *)
(* ===================================================================== *)

Section GroupCalls.
Import Bars.
Implicit Types (s : Plot) (b x : addr) (g h : addr) (l : list addr).

(** ** Lists *)

Lemma removeOne_app_last b l : b ∉ l -> removeOne b (l ++ [b]) = l.
Proof.
  induction l as [|y l IH]; intros Hb; simpl.
  - by rewrite decide_True.
  - apply not_elem_of_cons in Hb as [Hne Hb].
    rewrite decide_False by done. by rewrite IH.
Qed.

Lemma indexOf_delete b l from : indexOf b l = Some from -> delete from l = removeOne b l.
Proof.
  revert from; induction l as [|y l IH]; intros from; simpl; [done|].
  case_decide; [by intros [= <-]|].
  destruct (indexOf b l) as [i|]; simpl; [|done].
  intros [= <-]. simpl. by rewrite (IH i).
Qed.

Lemma indexOf_lt b l from : indexOf b l = Some from -> (from < length l)%nat.
Proof. intros Hfrom%indexOf_lookup. by eapply lookup_lt_Some. Qed.

Lemma insertAt_lookup (i : nat) b l : (i <= length l)%nat -> insertAt i b l !! i = Some b.
Proof.
  intros Hi. unfold insertAt.
  rewrite lookup_app_r by (rewrite length_take; lia).
  rewrite length_take. by replace (i - i `min` length l)%nat with 0%nat by lia.
Qed.

Lemma removeOne_length b l : b ∈ l -> S (length (removeOne b l)) = length l.
Proof.
  induction l as [|y l IH]; intros Hb; simpl; [by apply elem_of_nil in Hb|].
  case_decide; [done|].
  apply elem_of_cons in Hb as [->|Hb]; [done|]. simpl. by rewrite IH.
Qed.

Lemma qBound_range (i n : Z) : (1 <= n)%Z -> (0 <= qBound 0 i (n - 1) <= n - 1)%Z.
Proof. unfold qBound. lia. Qed.

(** ** One bar from group to group *)

(** X14.  [setBarsGroup] moves a bar between groups and leaves everything
    else in place: the bar refers to the new group (or to none), the member
    list of every other group is what it was without the bar, and the member
    list of the new group is what it was without the bar, followed by the
    bar.  So the other members keep their order, and bars that are set to
    the group they are in already move to the end of its list. *)
Theorem setBarsGroup_moves_bar (s : Plot) (b : addr) (g : option addr) :
  grouped s -> live s b -> from_option (liveGroup s) True g ->
  let s' := setBarsGroup b g s in
  barsGroup s' b = g
  /\ (forall x, x <> b -> barsGroup s' x = barsGroup s x)
  /\ (forall h, g = Some h -> bars s' h = removeOne b (bars s h) ++ [b])
  /\ (forall h, g <> Some h -> bars s' h = removeOne b (bars s h))
  /\ (forall h, barsGroup s b <> Some h -> g <> Some h -> bars s' h = bars s h)
  /\ (forall h x, x <> b -> x ∈ bars s' h <-> x ∈ bars s h).
Proof.
  intros Hgrouped Hlive Hg s'.
  destruct (setBarsGroup_members s b g) as (Hgroup & Hbars & _); [done..|].
  destruct Hgrouped as (Hiff & _ & Hnd).
  split_and!.
  - subst s'. by rewrite Hgroup, decide_True.
  - intros x Hx. subst s'. by rewrite Hgroup, decide_False.
  - intros h ->. subst s'. by rewrite Hbars, decide_True.
  - intros h Hh. subst s'. by rewrite Hbars, decide_False, app_nil_r.
  - intros h Hold Hh. subst s'. rewrite Hbars, decide_False, app_nil_r by done.
    apply removeOne_notin. by rewrite <- Hiff.
  - intros h x Hx. subst s'. rewrite Hbars, elem_of_app, removeOne_elem_of by done.
    case_decide; rewrite ?elem_of_nil, ?list_elem_of_singleton; naive_solver.
Qed.

(** ** Into a group and out again *)

(** X15.  Appending bars that are in no group to a group and removing
    them again gives back the plot as it was: the member list, the group
    pointer of the bars and everything else. *)
Theorem append_remove (s : Plot) (g b : addr) :
  grouped s -> liveGroup s g -> live s b -> barsGroup s b = None ->
  b ∈ bars (append g (Some b) s) g
  /\ barsGroup (append g (Some b) s) b = Some g
  /\ remove g (Some b) (append g (Some b) s) = s.
Proof.
  intros Hgrouped [group Hgroup] [bar Hbar] Hnone.
  assert (mBarsGroup bar = None) as Hbg
    by (unfold barsGroup in Hnone; by rewrite Hbar in Hnone).
  assert (b ∉ bars s g) as Hnotin.
  { intros Hin. apply Hgrouped in Hin. congruence. }
  assert (b ∉ mBars group) as Hnotin'
    by (unfold bars in Hnotin; by rewrite Hgroup in Hnotin).
  assert (append g (Some b) s
          = mkPlot (<[b := assignBarsGroup (Some g) bar]> (plotBars s))
              (<[g := assignBars (mBars group ++ [b]) group]> (plotGroups s))
              (plotAxes s) (debugOutput s)) as Happend.
  { unfold append.
    rewrite (proj2 (contains_not_elem_of _ _) Hnotin). simpl.
    unfold setBarsGroup. rewrite Hnone.
    unfold registerBars, withGroups, withBars; simpl. f_equal.
    - apply map_eq. intros z. destruct (decide (z = b)) as [->|Hne].
      + by rewrite lookup_alter_eq, lookup_insert_eq, Hbar.
      + by rewrite lookup_alter_ne, lookup_insert_ne.
    - apply map_eq. intros z. destruct (decide (z = g)) as [->|Hne].
      + rewrite lookup_alter_eq, lookup_insert_eq, Hgroup. simpl.
        by rewrite (proj2 (contains_not_elem_of _ _) Hnotin').
      + by rewrite lookup_alter_ne, lookup_insert_ne. }
  rewrite Happend. split_and!.
  - unfold bars; simpl. rewrite lookup_insert_eq. simpl. set_solver.
  - unfold barsGroup; simpl. by rewrite lookup_insert_eq.
  - unfold remove.
    assert (contains
              (bars
                 (mkPlot (<[b := assignBarsGroup (Some g) bar]> (plotBars s))
                    (<[g := assignBars (mBars group ++ [b]) group]> (plotGroups s))
                    (plotAxes s) (debugOutput s)) g) b = true) as ->.
    { apply contains_elem_of. unfold bars; simpl. rewrite lookup_insert_eq. simpl.
      set_solver. }
    unfold setBarsGroup, barsGroup; simpl. rewrite lookup_insert_eq; simpl.
    unfold unregisterBars, withGroups, withBars; simpl.
    destruct s as [bs gs xs ds]; simpl in *. f_equal.
    + apply map_eq. intros z. destruct (decide (z = b)) as [->|Hne].
      * rewrite lookup_alter_eq, lookup_insert_eq, Hbar. simpl.
        destruct bar; simpl in *. by subst.
      * by rewrite lookup_alter_ne, lookup_insert_ne.
    + apply map_eq. intros z. destruct (decide (z = g)) as [->|Hne].
      * rewrite lookup_alter_eq, lookup_insert_eq, Hgroup. simpl.
        rewrite removeOne_app_last by done. by destruct group.
      * by rewrite lookup_alter_ne, lookup_insert_ne.
Qed.

(** ** A bar at an index *)

Lemma insertAt_length (i : nat) b l : length (insertAt i b l) = S (length l).
Proof.
  unfold insertAt. rewrite length_app. simpl. rewrite length_take, length_drop. lia.
Qed.

(** X16.  [insert(i, bars)] puts the bars at index [i] of the member list,
    with [i] clamped to the list: the list afterwards is the former list
    without the bars, with the bars put in at [qBound(0, i, size - 1)], so
    [bars(index)] at that index returns the bars, and the other members keep
    their order.  The bars belong to the group afterwards and have left the
    list of any other group. *)
Theorem insert_at_index (s : Plot) (g b : addr) (i : Z) :
  grouped s -> liveGroup s g -> live s b ->
  let s' := insert g i (Some b) s in
  let index := qBound 0 i (Z.of_nat (length (bars s' g)) - 1) in
  bars s' g = insertAt (Z.to_nat index) b (removeOne b (bars s g))
  /\ length (bars s' g) = S (length (removeOne b (bars s g)))
  /\ barsAt g index s' = (Some b, s')
  /\ barsGroup s' b = Some g
  /\ (forall h, h <> g -> bars s' h = removeOne b (bars s h)).
Proof.
  intros Hgrouped Hg Hb s'.
  set (s1 := if negb (contains (bars s g) b) then setBarsGroup b (Some g) s else s).
  assert (b ∈ bars s1 g
          /\ removeOne b (bars s1 g) = removeOne b (bars s g)
          /\ barsGroup s1 b = Some g
          /\ (forall h, h <> g -> bars s1 h = removeOne b (bars s h)))
    as (Hin1 & Hrest1 & Hgroup1 & Hother1).
  { subst s1. destruct (contains (bars s g) b) eqn:Hc; simpl.
    - apply contains_elem_of in Hc. split_and!; try done.
      + by apply Hgrouped.
      + intros h Hh. rewrite removeOne_notin; [done|].
        intros Hin. destruct Hgrouped as (_ & Hone & _).
        by specialize (Hone b g h Hc Hin).
    - apply contains_not_elem_of in Hc.
      destruct (setBarsGroup_members s b (Some g)) as (Hgroup & Hbars & Hlive); [done..|].
      split_and!.
      + rewrite Hbars, decide_True by done. set_solver.
      + rewrite Hbars, decide_True by done.
        rewrite (removeOne_notin b (bars s g)) by done.
        by apply removeOne_app_last.
      + by rewrite Hgroup, decide_True.
      + intros h Hh. rewrite Hbars, decide_False by congruence. by rewrite app_nil_r. }
  destruct (proj2 (indexOf_elem_of b (bars s1 g)) Hin1) as [from Hfrom].
  set (to := qBound 0 i (Z.of_nat (length (bars s1 g)) - 1)).
  assert (s' = withGroups
                 (alter (fun grp => assignBars (move from (Z.to_nat to) (mBars grp)) grp) g)
                 s1) as Hs'.
  { subst s' s1 to. unfold insert. by rewrite Hfrom. }
  assert (forall h, bars s' h
                    = if decide (h = g) then move from (Z.to_nat to) (bars s1 g)
                      else bars s1 h) as Hbars'.
  { intros h. rewrite Hs'. by rewrite (bars_alter s1 (move from (Z.to_nat to))). }
  assert (move from (Z.to_nat to) (bars s1 g)
          = insertAt (Z.to_nat to) b (removeOne b (bars s g))) as Hmove.
  { unfold move. rewrite (indexOf_lookup _ _ _ Hfrom).
    by rewrite (indexOf_delete _ _ _ Hfrom), Hrest1. }
  pose proof (removeOne_length b (bars s1 g) Hin1) as Hlen1.
  rewrite Hrest1 in Hlen1.
  assert (length (bars s' g) = length (bars s1 g)) as Hlen'.
  { rewrite Hbars', decide_True by done. rewrite Hmove, insertAt_length. lia. }
  intros index. assert (index = to) as -> by (subst index to; by rewrite Hlen').
  pose proof (qBound_range i (Z.of_nat (length (bars s1 g))) ltac:(lia)) as Hto.
  fold to in Hto.
  split_and!.
  - by rewrite Hbars', decide_True.
  - lia.
  - unfold barsAt. rewrite Hlen'.
    destruct (Z.leb_spec 0 to) as [_|?]; [|lia].
    destruct (Z.ltb_spec to (Z.of_nat (length (bars s1 g)))) as [_|?]; [|lia].
    simpl. f_equal. rewrite Hbars', decide_True, Hmove by done.
    apply insertAt_lookup. lia.
  - rewrite Hs'. done.
  - intros h Hh. rewrite Hbars', decide_False by done. by apply Hother1.
Qed.

(** ** A group emptied *)

Lemma clear_fold_members s l :
  grouped s -> Forall (live s) l ->
  let s' := foldl (fun s b => setBarsGroup b None s) s l in
  (forall x, barsGroup s' x = if decide (x ∈ l) then None else barsGroup s x)
  /\ (forall h, (forall x, x ∈ l -> x ∉ bars s h) -> bars s' h = bars s h)
  /\ (forall h, liveGroup s' h <-> liveGroup s h)
  /\ (forall x, live s' x <-> live s x).
Proof.
  revert s; induction l as [|b l IH]; intros s Hgrouped Hlive; simpl.
  { split_and!; done. }
  apply Forall_cons in Hlive as [Hb Hl].
  destruct (setBarsGroup_members s b None) as (Hgroup & Hbars & Hlg); [done..|].
  destruct (setBarsGroup_links s b None) as (_ & _ & Hlb).
  destruct (IH (setBarsGroup b None s)) as (IH1 & IH2 & IH3 & IH4).
  - by apply setBarsGroup_grouped.
  - eapply Forall_impl; [exact Hl|]. intros x. by apply Hlb.
  - split_and!.
    + intros x. rewrite IH1, Hgroup.
      repeat case_decide; try done; set_solver.
    + intros h Hh. rewrite IH2.
      * rewrite Hbars, decide_False, app_nil_r by done.
        apply removeOne_notin. apply Hh. set_solver.
      * intros x Hx. rewrite Hbars, decide_False, app_nil_r by done.
        intros Hin. destruct Hgrouped as (_ & _ & Hnd).
        apply removeOne_elem_of in Hin as [Hin _]; [|done].
        revert Hin. apply Hh. set_solver.
    + intros h. by rewrite IH3, Hlg.
    + intros x. by rewrite IH4, Hlb.
Qed.

(** X17.  [clear] empties the group and only the group: its member list
    is empty afterwards, its former members refer to no group, every other
    bar refers to the group it referred to and every other member list is
    the same.  After the destructor of the group, which clears it first, the
    group is gone and no bar refers to it. *)
Theorem clear_empties_group (s : Plot) (g : addr) :
  grouped s -> liveGroup s g ->
  bars (clear g s) g = []
  /\ (forall b, b ∈ bars s g -> barsGroup (clear g s) b = None)
  /\ (forall b, b ∉ bars s g -> barsGroup (clear g s) b = barsGroup s b)
  /\ (forall h, h <> g -> bars (clear g s) h = bars s h)
  /\ liveGroup (clear g s) g
  /\ ~ liveGroup (destroyGroup g s) g
  /\ plotBars (destroyGroup g s) = plotBars (clear g s)
  /\ (forall b, barsGroup (destroyGroup g s) b <> Some g).
Proof.
  intros Hgrouped Hg.
  pose proof (members_live s g Hgrouped) as Hlive.
  destruct (clear_fold s (bars s g) Hgrouped Hlive) as (_ & Hempty & _).
  destruct (clear_fold_members s (bars s g) Hgrouped Hlive) as (Hgroup & Hbars & Hlg & _).
  fold (clear g s) in Hempty, Hgroup, Hbars, Hlg.
  assert (forall b, barsGroup (clear g s) b <> Some g) as Hnone.
  { intros b. rewrite Hgroup. case_decide as Hin; [done|].
    intros Hb. by apply Hgrouped in Hb. }
  split_and!.
  - by apply Hempty.
  - intros b Hb. by rewrite Hgroup, decide_True.
  - intros b Hb. by rewrite Hgroup, decide_False.
  - intros h Hh. apply Hbars. intros x Hx Hx'.
    destruct Hgrouped as (_ & Hone & _). by specialize (Hone x g h Hx Hx').
  - by apply Hlg.
  - unfold liveGroup, destroyGroup, withGroups; simpl.
    rewrite lookup_delete_eq. by intros [? ?].
  - done.
  - intros b. apply Hnone.
Qed.

End GroupCalls.

Section GroupCallsExamples.
Import Bars.

(** X14 on an instance: bars 2 of group 10 set to group 10 again. *)
Lemma setBarsGroup_moves_bar_groupPlot :
  let s := groupPlot 100%nat in
  let s' := setBarsGroup 2%nat (Some 10%nat) s in
  barsGroup s' 2%nat = Some 10%nat
  /\ (forall x, x <> 2%nat -> barsGroup s' x = barsGroup s x)
  /\ (forall h, Some 10%nat = Some h -> bars s' h = removeOne 2%nat (bars s h) ++ [2%nat])
  /\ (forall h, Some 10%nat <> Some h -> bars s' h = removeOne 2%nat (bars s h))
  /\ (forall h, barsGroup s 2%nat <> Some h -> Some 10%nat <> Some h ->
        bars s' h = bars s h)
  /\ (forall h x, x <> 2%nat -> x ∈ bars s' h <-> x ∈ bars s h).
Proof.
  apply (setBarsGroup_moves_bar (groupPlot 100%nat) 2%nat (Some 10%nat)).
  - exact groupPlot_grouped.
  - vm_compute. eauto.
  - vm_compute. eauto.
Defined.

(** X16 on an instance: bars 3 of group 10 put at the front. *)
Lemma insert_at_index_groupPlot :
  let s := groupPlot 100%nat in
  let s' := insert 10%nat 0 (Some 3%nat) s in
  let index := qBound 0 0 (Z.of_nat (length (bars s' 10%nat)) - 1) in
  bars s' 10%nat = insertAt (Z.to_nat index) 3%nat (removeOne 3%nat (bars s 10%nat))
  /\ length (bars s' 10%nat) = S (length (removeOne 3%nat (bars s 10%nat)))
  /\ barsAt 10%nat index s' = (Some 3%nat, s')
  /\ barsGroup s' 3%nat = Some 10%nat
  /\ (forall h, h <> 10%nat -> bars s' h = removeOne 3%nat (bars s h)).
Proof.
  apply (insert_at_index (groupPlot 100%nat) 10%nat 3%nat 0).
  - exact groupPlot_grouped.
  - vm_compute. eauto.
  - vm_compute. eauto.
Defined.

(** X17 on an instance: group 10 of [groupPlot]. *)
Lemma clear_empties_group_groupPlot :
  let s := groupPlot 100%nat in
  bars (clear 10%nat s) 10%nat = []
  /\ (forall b, b ∈ bars s 10%nat -> barsGroup (clear 10%nat s) b = None)
  /\ (forall b, b ∉ bars s 10%nat -> barsGroup (clear 10%nat s) b = barsGroup s b)
  /\ (forall h, h <> 10%nat -> bars (clear 10%nat s) h = bars s h)
  /\ liveGroup (clear 10%nat s) 10%nat
  /\ ~ liveGroup (destroyGroup 10%nat s) 10%nat
  /\ plotBars (destroyGroup 10%nat s) = plotBars (clear 10%nat s)
  /\ (forall b, barsGroup (destroyGroup 10%nat s) b <> Some 10%nat).
Proof.
  apply (clear_empties_group (groupPlot 100%nat) 10%nat).
  - exact groupPlot_grouped.
  - vm_compute. eauto.
Defined.

Lemma stackedPlot_grouped : grouped stackedPlot.
Proof. apply grouped_by_check; apply (bool_decide_unpack _); by vm_compute. Qed.

(** X15 on an instance: bars 3 of [stackedPlot] into its group 10 and out
    again. *)
Lemma append_remove_stackedPlot :
  3%nat ∈ bars (append 10%nat (Some 3%nat) stackedPlot) 10%nat
  /\ barsGroup (append 10%nat (Some 3%nat) stackedPlot) 3%nat = Some 10%nat
  /\ remove 10%nat (Some 3%nat) (append 10%nat (Some 3%nat) stackedPlot) = stackedPlot.
Proof.
  apply (append_remove stackedPlot 10%nat 3%nat).
  - exact stackedPlot_grouped.
  - vm_compute. eauto.
  - vm_compute. eauto.
  - vm_compute. reflexivity.
Defined.

End GroupCallsExamples.

(* ===================================================================== *)
(** * Part XIII: stacks in groups and bar polygons                       *)
(* ===================================================================== *)

Section BarLayout.
Import Bars.
Open Scope float_scope.
Implicit Types (s : Plot).

(** ** The offset in a group *)

Lemma stackRoot_bottom s a root fuel :
  stackRoot fuel s a = Some root -> barBelow s root = None.
Proof.
  revert a; induction fuel as [|fuel IH]; intros a; [done|].
  cbn [stackRoot]. destruct (barBelow s a) as [b|] eqn:Hb; [apply IH|].
  by intros [= <-].
Qed.

Lemma collectBaseBars_ends s members baseBars fuel :
  Forall (fun b => exists m, stackHeight s b m /\ (m < fuel)%nat) members ->
  is_Some (collectBaseBars fuel s members baseBars).
Proof.
  revert baseBars; induction members as [|b members IH]; intros baseBars Hall;
    [by eexists|].
  apply Forall_cons in Hall as [(m & Hm & Hfuel) Hall].
  cbn [collectBaseBars].
  destruct (stackRoot_fuel s b m fuel Hm Hfuel) as [root ->]. simpl. by apply IH.
Qed.

(** X21.  A stack in a group is shifted as one.  [keyPixelOffset] places
    the bottom-most bars of the stacks of the members: in a group whose
    members stand in stacks that end, the walk from given bars down their
    stack arrives at bars without bars below, the bottoms of the members'
    stacks are collected, and the offset of the given bars is the offset of
    the bars at the bottom of their stack. *)
Theorem keyPixelOffset_of_stack (s : Plot) (g a : addr) (group : QCPBarsGroup)
  (n fuel : nat) (keyCoord : float) :
  plotGroups s !! g = Some group ->
  Forall (fun b => exists m, stackHeight s b m /\ (m < fuel)%nat) (mBars group) ->
  stackHeight s a n -> (n < fuel)%nat ->
  exists root baseBars,
    stackRoot fuel s a = Some root
    /\ barBelow s root = None
    /\ collectBaseBars fuel s (mBars group) [] = Some baseBars
    /\ keyPixelOffset fuel s g a keyCoord = keyPixelOffset fuel s g root keyCoord.
Proof.
  intros Hgroup Hmembers Hheight Hfuel.
  destruct (stackRoot_fuel s a n fuel Hheight Hfuel) as [root Hroot].
  destruct (collectBaseBars_ends s (mBars group) [] fuel Hmembers) as [baseBars Hbase].
  pose proof (stackRoot_bottom s a root fuel Hroot) as Hbottom.
  exists root, baseBars. split_and!; [done..|].
  unfold keyPixelOffset. rewrite Hgroup; simpl. rewrite Hbase; simpl. rewrite Hroot.
  destruct fuel as [|fuel]; [lia|]. cbn [stackRoot]. by rewrite Hbottom.
Qed.

(** ** The polygons of stacked bars *)



End BarLayout.

Section BarLayoutExamples.
Import Bars.
Open Scope float_scope.

Lemma stackInGroupPlot_heights :
  stackHeight stackInGroupPlot 1%nat 0 /\ stackHeight stackInGroupPlot 2%nat 0
  /\ stackHeight stackInGroupPlot 3%nat 0 /\ stackHeight stackInGroupPlot 4%nat 1.
Proof.
  assert (forall a, a ∈ [1%nat; 2%nat; 3%nat] -> stackHeight stackInGroupPlot a 0)
    as Hroots.
  { intros a Ha. repeat (apply elem_of_cons in Ha as [->|Ha]);
      [eapply stackHeight_base; [by vm_compute|done]..|by apply elem_of_nil in Ha]. }
  split_and!; [apply Hroots; set_solver..|].
  eapply stackHeight_step; [by vm_compute|done|apply Hroots; set_solver].
Qed.

(** In [stackInGroupPlot] bars 4 stand on bars 1, the first of three
    bottoms, 54 pixels to the left. *)
Lemma stackInGroupPlot_offset :
  bars stackInGroupPlot 10%nat = [1%nat; 2%nat; 3%nat; 4%nat]
  /\ barBelow stackInGroupPlot 4%nat = Some 1%nat
  /\ keyPixelOffset 2 stackInGroupPlot 10%nat 4%nat 1 = Some (-54).
Proof. split_and!; by vm_compute. Qed.

(** X21 on an instance: bars 4 of [stackInGroupPlot]. *)
Lemma keyPixelOffset_of_stack_stackInGroupPlot :
  exists root baseBars,
    stackRoot 2 stackInGroupPlot 4%nat = Some root
    /\ barBelow stackInGroupPlot root = None
    /\ collectBaseBars 2 stackInGroupPlot [1%nat; 2%nat; 3%nat; 4%nat] []
       = Some baseBars
    /\ keyPixelOffset 2 stackInGroupPlot 10%nat 4%nat 1
       = keyPixelOffset 2 stackInGroupPlot 10%nat root 1.
Proof.
  destruct stackInGroupPlot_heights as (H1 & H2 & H3 & H4).
  apply (keyPixelOffset_of_stack stackInGroupPlot 10%nat 4%nat
           (mkGroup stAbsolute 4 [1%nat; 2%nat; 3%nat; 4%nat]) 1 2 1).
  - by vm_compute.
  - repeat constructor; eexists; (split; [eassumption|lia]).
  - exact H4.
  - lia.
Defined.


End BarLayoutExamples.

(* ===================================================================== *)
(** * Part XIV: the plots the interface builds                           *)
(* ===================================================================== *)

Section ReachablePlots.
Import Bars.
Implicit Types (s : Plot) (a b x y z : addr) (g h : addr).

(** ** Conditions that depend on links or on membership only *)

Lemma linked_same s s' :
  (forall z, barBelow s' z = barBelow s z) ->
  (forall z, barAbove s' z = barAbove s z) ->
  linked s -> linked s'.
Proof. intros Hb Ha Hlinked x y. rewrite Hb, Ha. apply Hlinked. Qed.

Lemma acyclic_same s s' :
  (forall z, barBelow s' z = barBelow s z) -> acyclic s -> acyclic s'.
Proof.
  intros Hb [rank Hrank]. exists rank. intros x y. rewrite Hb. apply Hrank.
Qed.

Lemma grouped_same s s' :
  (forall x, barsGroup s' x = barsGroup s x) ->
  (forall h, bars s' h = bars s h) ->
  grouped s -> grouped s'.
Proof.
  intros Hgroup Hbars Hgrouped. eapply grouped_permute; [exact Hgrouped|done|].
  intros h. by rewrite Hbars.
Qed.

(** A change of one bar that keeps its links and its group. *)
Lemma alter_bars_frame s a (f : QCPBars -> QCPBars) :
  (forall bar, mBarBelow (f bar) = mBarBelow bar) ->
  (forall bar, mBarAbove (f bar) = mBarAbove bar) ->
  (forall bar, mBarsGroup (f bar) = mBarsGroup bar) ->
  let s' := withBars (alter f a) s in
  (forall z, barBelow s' z = barBelow s z)
  /\ (forall z, barAbove s' z = barAbove s z)
  /\ (forall z, barsGroup s' z = barsGroup s z)
  /\ (forall h, bars s' h = bars s h).
Proof.
  intros Hb Ha Hg s'. subst s'. unfold barBelow, barAbove, barsGroup, withBars; simpl.
  split_and!; try done; intros z;
    (destruct (decide (z = a)) as [->|Hne];
     [rewrite lookup_alter_eq; destruct (plotBars s !! a); simpl; congruence
     |by rewrite lookup_alter_ne]).
Qed.

(** A change of one group that keeps its members. *)
Lemma alter_group_frame s g (f : QCPBarsGroup -> QCPBarsGroup) :
  (forall group, mBars (f group) = mBars group) ->
  forall h, bars (withGroups (alter f g) s) h = bars s h.
Proof.
  intros Hf h. unfold bars, withGroups; simpl.
  destruct (decide (h = g)) as [->|Hne]; [|by rewrite lookup_alter_ne].
  rewrite lookup_alter_eq. destruct (plotGroups s !! g); simpl; [|done].
  apply Hf.
Qed.

(** ** The calls on a group leave the links alone *)

Lemma clear_fold_links s (l : list addr) :
  let s' := foldl (fun s b => setBarsGroup b None s) s l in
  (forall z, barBelow s' z = barBelow s z)
  /\ (forall z, barAbove s' z = barAbove s z)
  /\ (forall z, live s' z <-> live s z).
Proof.
  revert s; induction l as [|b l IH]; intros s; simpl; [done|].
  destruct (setBarsGroup_links s b None) as (Hb & Ha & Hl).
  destruct (IH (setBarsGroup b None s)) as (IHb & IHa & IHl).
  split_and!; intros z.
  - by rewrite IHb, Hb.
  - by rewrite IHa, Ha.
  - by rewrite IHl, Hl.
Qed.

Lemma runGroupOp_links s (op : GroupOp) :
  (forall z, barBelow (runGroupOp op s) z = barBelow s z)
  /\ (forall z, barAbove (runGroupOp op s) z = barAbove s z)
  /\ (forall z, live (runGroupOp op s) z <-> live s z).
Proof.
  destruct op as [g b|g i b|g b|g|b g|g]; cbn [runGroupOp].
  - unfold append. destruct b as [b|]; [|done].
    destruct (negb _); [apply setBarsGroup_links|done].
  - unfold insert. destruct b as [b|]; [|done].
    set (s1 := if negb (contains (bars s g) b) then setBarsGroup b (Some g) s else s).
    assert ((forall z, barBelow s1 z = barBelow s z)
            /\ (forall z, barAbove s1 z = barAbove s z)
            /\ (forall z, live s1 z <-> live s z)) as Hs1
      by (subst s1; destruct (negb _); [apply setBarsGroup_links|done]).
    by destruct (indexOf b (bars s1 g)).
  - unfold remove. destruct b as [b|]; [|done].
    destruct (contains _ _); [apply setBarsGroup_links|done].
  - apply clear_fold_links.
  - apply setBarsGroup_links.
  - apply (clear_fold_links s (bars s g)).
Qed.

(** ** The moves leave the membership alone *)

Lemma sameButLinks_members s s' :
  sameButLinks s s' ->
  (forall x, barsGroup s' x = barsGroup s x)
  /\ (forall h, bars s' h = bars s h)
  /\ (forall x, live s' x <-> live s x).
Proof.
  intros (Hg & _ & _ & Hb). split_and!.
  - intros x. unfold barsGroup. rewrite Hb. by destruct (plotBars s !! x).
  - intros h. unfold bars. by rewrite Hg.
  - intros x. unfold live. rewrite Hb. by rewrite fmap_is_Some.
Qed.

Lemma moves_frame s a (target : option addr) :
  (sameButLinks s (moveAbove a target s) \/ moveAbove a target s = qDebug axisMismatch s)
  /\ (sameButLinks s (moveBelow a target s)
      \/ moveBelow a target s = qDebug axisMismatch s).
Proof.
  split.
  - unfold moveAbove. case_decide; [left; apply sameButLinks_refl|].
    destruct (from_option _ false target); [by right|left].
    eapply sameButLinks_trans; [apply sameButLinks_connectBars|].
    set (s1 := connectBars (barBelow s a) (barAbove s a) s).
    destruct target as [b|]; [|apply sameButLinks_refl].
    eapply sameButLinks_trans; [|apply sameButLinks_connectBars].
    destruct (barAbove s1 b); [apply sameButLinks_connectBars|apply sameButLinks_refl].
  - unfold moveBelow. case_decide; [left; apply sameButLinks_refl|].
    destruct (from_option _ false target); [by right|left].
    eapply sameButLinks_trans; [apply sameButLinks_connectBars|].
    set (s1 := connectBars (barBelow s a) (barAbove s a) s).
    destruct target as [b|]; [|apply sameButLinks_refl].
    eapply sameButLinks_trans; [|apply sameButLinks_connectBars].
    destruct (barBelow s1 b); [apply sameButLinks_connectBars|apply sameButLinks_refl].
Qed.

Lemma moves_members s a (target : option addr) s' :
  s' = moveAbove a target s \/ s' = moveBelow a target s ->
  (forall x, barsGroup s' x = barsGroup s x) /\ (forall h, bars s' h = bars s h).
Proof.
  destruct (moves_frame s a target) as [Habove Hbelow].
  intros [->| ->].
  - destruct Habove as [Hsame| ->]; [|done].
    by destruct (sameButLinks_members _ _ Hsame) as (? & ? & _).
  - destruct Hbelow as [Hsame| ->]; [|done].
    by destruct (sameButLinks_members _ _ Hsame) as (? & ? & _).
Qed.

(** ** Destruction and construction *)

Lemma destroyBars_grouped s a : grouped s -> live s a -> grouped (destroyBars a s).
Proof.
  intros Hgrouped Hlive. unfold destroyBars.
  set (s1 := setBarsGroup a None s).
  assert (grouped s1) as Hgrouped1 by (by apply setBarsGroup_grouped).
  assert (barsGroup s1 a = None) as Hnone.
  { destruct (setBarsGroup_members s a None) as (Hgroup & _); [done..|].
    subst s1. by rewrite Hgroup, decide_True. }
  set (s2 := if bool_decide (is_Some (barBelow s1 a)) || bool_decide (is_Some (barAbove s1 a))
             then connectBars (barBelow s1 a) (barAbove s1 a) s1 else s1).
  assert (sameButLinks s1 s2) as Hsame
    by (subst s2; destruct (_ || _);
        [apply sameButLinks_connectBars|apply sameButLinks_refl]).
  destruct (sameButLinks_members _ _ Hsame) as (Hgroup2 & Hbars2 & _).
  eapply grouped_same; [| |exact Hgrouped1].
  - intros x. transitivity (barsGroup s2 x); [|apply Hgroup2].
    unfold barsGroup at 1, withBars; simpl.
    rewrite lookup_fmap. destruct (decide (x = a)) as [->|Hne].
    + rewrite lookup_delete_eq. simpl. symmetry. by rewrite Hgroup2.
    + rewrite lookup_delete_ne by done. unfold barsGroup.
      by destruct (plotBars s2 !! x).
  - intros h. by rewrite <- Hbars2.
Qed.

Lemma constructBars_frame s a (keyAxis valueAxis : option addr) :
  plotBars s !! a = None ->
  let s' := constructBars a keyAxis valueAxis s in
  (forall z, barBelow s' z = barBelow s z)
  /\ (forall z, barAbove s' z = barAbove s z)
  /\ (forall z, barsGroup s' z = barsGroup s z)
  /\ (forall h, bars s' h = bars s h).
Proof.
  intros Hfresh s'. subst s'.
  unfold constructBars, barBelow, barAbove, barsGroup, withBars; simpl.
  split_and!; try done; intros z;
    (destruct (decide (z = a)) as [->|Hne];
     [rewrite lookup_insert_eq, Hfresh; done|by rewrite lookup_insert_ne]).
Qed.

Lemma constructGroup_bars s g :
  plotGroups s !! g = None -> forall h, bars (constructGroup g s) h = bars s h.
Proof.
  intros Hfresh h. unfold constructGroup, bars, withGroups; simpl.
  destruct (decide (h = g)) as [->|Hne].
  - by rewrite lookup_insert_eq, Hfresh.
  - by rewrite lookup_insert_ne.
Qed.

(** ** Membership along the calls on a group *)

Lemma grouped_runGroupOp s (op : GroupOp) :
  grouped s -> validGroupOp s op -> grouped (runGroupOp op s).
Proof.
  intros Hgrouped Hvalid.
  destruct op as [g b|g i b|g b|g|b g|g]; unfold runGroupOp, validGroupOp in *.
  - destruct Hvalid as [Hg Hb]. unfold append. destruct b as [b|]; [|done].
    destruct (contains (bars s g) b); [done|].
    by apply setBarsGroup_grouped.
  - destruct Hvalid as [Hg Hb]. unfold insert. destruct b as [b|]; [|done].
    set (s1 := if negb (contains (bars s g) b) then setBarsGroup b (Some g) s else s).
    assert (grouped s1) as Hgrouped1.
    { subst s1. destruct (contains (bars s g) b); [done|].
      by apply setBarsGroup_grouped. }
    destruct (indexOf b (bars s1 g)) as [from|]; [|done].
    eapply grouped_permute; [exact Hgrouped1|done|].
    intros h. rewrite (bars_alter s1 (move from _)) by done.
    case_decide; subst; [apply move_Permutation|done].
  - destruct Hvalid as [Hg Hb]. unfold remove. destruct b as [b|]; [|done].
    destruct (contains (bars s g) b); [|done].
    by apply setBarsGroup_grouped.
  - by apply clear_fold, members_live.
  - destruct Hvalid as [Hb Hg]. by apply setBarsGroup_grouped.
  - destruct (clear_fold s (bars s g)) as (Hgrouped1 & Hempty & _);
      [done|by apply members_live|].
    specialize (Hempty g eq_refl). fold (clear g s) in Hgrouped1, Hempty.
    unfold destroyGroup. destruct Hgrouped1 as (Hiff & _ & Hnd).
    assert (forall h, bars (withGroups (delete g) (clear g s)) h
                      = if decide (h = g) then [] else bars (clear g s) h) as Hbars.
    { intros h. unfold bars at 1; simpl. rewrite lookup_delete.
      repeat case_decide; subst; done. }
    apply grouped_intro.
    + intros x h. rewrite Hbars.
      change (barsGroup (withGroups _ _)) with (barsGroup (clear g s)).
      rewrite Hiff. case_decide; subst; [by rewrite Hempty|done].
    + intros h. rewrite Hbars. case_decide; [constructor|done].
Qed.

(** ** Every call keeps the plot well formed *)

Lemma wellFormed_runPlotOp s (op : PlotOp) :
  grouped s /\ linked s /\ acyclic s ->
  validPlotOp s op ->
  grouped (runPlotOp op s) /\ linked (runPlotOp op s) /\ acyclic (runPlotOp op s).
Proof.
  intros (Hgrouped & Hlinked & Hacyclic) Hvalid.
  destruct op as [a keyAxis valueAxis|a|a target|a target|a data|a width|a widthType
                 |a baseValue|g|g spacingType|g spacing|op];
    cbn [runPlotOp validPlotOp] in *.
  - destruct (constructBars_frame s a keyAxis valueAxis Hvalid) as (Hb & Ha & Hg & Hl).
    split_and!; [by eapply grouped_same|by eapply linked_same|by eapply acyclic_same].
  - destruct (stacking_preserved s a None) as (_ & _ & Hl & Ha); [done..|].
    split_and!; [by apply destroyBars_grouped|done|done].
  - destruct Hvalid as [Hla Htarget].
    destruct (stacking_preserved s a target) as ((Hl & Ha) & _ & _); [done..|].
    destruct (moves_members s a target (moveAbove a target s)) as (Hg & Hb); [by left|].
    split_and!; [by eapply grouped_same|done|done].
  - destruct Hvalid as [Hla Htarget].
    destruct (stacking_preserved s a target) as (_ & (Hl & Ha) & _); [done..|].
    destruct (moves_members s a target (moveBelow a target s)) as (Hg & Hb); [by right|].
    split_and!; [by eapply grouped_same|done|done].
  - destruct (alter_bars_frame s a (fun bar =>
                mkBars (mKeyAxis bar) (mValueAxis bar) data (mWidth bar) (mWidthType bar)
                  (mBarsGroup bar) (mBaseValue bar) (mBarBelow bar) (mBarAbove bar)))
      as (Hb & Ha & Hg & Hl); [done..|].
    split_and!; [by eapply grouped_same|by eapply linked_same|by eapply acyclic_same].
  - destruct (alter_bars_frame s a (fun bar =>
                mkBars (mKeyAxis bar) (mValueAxis bar) (mDataContainer bar) width (mWidthType bar)
                  (mBarsGroup bar) (mBaseValue bar) (mBarBelow bar) (mBarAbove bar)))
      as (Hb & Ha & Hg & Hl); [done..|].
    split_and!; [by eapply grouped_same|by eapply linked_same|by eapply acyclic_same].
  - destruct (alter_bars_frame s a (fun bar =>
                mkBars (mKeyAxis bar) (mValueAxis bar) (mDataContainer bar) (mWidth bar) widthType
                  (mBarsGroup bar) (mBaseValue bar) (mBarBelow bar) (mBarAbove bar)))
      as (Hb & Ha & Hg & Hl); [done..|].
    split_and!; [by eapply grouped_same|by eapply linked_same|by eapply acyclic_same].
  - destruct (alter_bars_frame s a (fun bar =>
                mkBars (mKeyAxis bar) (mValueAxis bar) (mDataContainer bar) (mWidth bar)
                  (mWidthType bar) (mBarsGroup bar) baseValue (mBarBelow bar) (mBarAbove bar)))
      as (Hb & Ha & Hg & Hl); [done..|].
    split_and!; [by eapply grouped_same|by eapply linked_same|by eapply acyclic_same].
  - split_and!; [|done|done].
    eapply grouped_same; [|apply (constructGroup_bars s g Hvalid)|exact Hgrouped]. done.
  - split_and!; [|done|done].
    eapply grouped_same; [|apply alter_group_frame|exact Hgrouped]; done.
  - split_and!; [|done|done].
    eapply grouped_same; [|apply alter_group_frame|exact Hgrouped]; done.
  - destruct (runGroupOp_links s op) as (Hb & Ha & _).
    split_and!; [by apply grouped_runGroupOp|by eapply linked_same|by eapply acyclic_same].
Qed.

Lemma reachable_wellFormed s : reachable s -> grouped s /\ linked s /\ acyclic s.
Proof.
  induction 1 as [axes|s op Hreach IH Hvalid].
  - split_and!.
    + apply grouped_intro.
      * intros b g. unfold barsGroup, bars; simpl.
        rewrite !lookup_empty. simpl. by rewrite elem_of_nil.
      * intros g. unfold bars; simpl. rewrite lookup_empty. constructor.
    + intros x y. unfold barAbove, barBelow; simpl. by rewrite !lookup_empty.
    + exists (fun _ => O). intros x y. unfold barBelow; simpl. by rewrite lookup_empty.
  - by apply wellFormed_runPlotOp.
Qed.

(** X23.  Every plot that calls of the public interface build is well
    formed, whatever the calls and their arguments (constructors at unused
    addresses, the other calls on objects of the plot with pointers that are
    null or objects of the plot): the group pointers and the member lists
    agree, no bar is in two groups or twice in a list, the stacking links
    agree in both directions and are not circular, and no group pointer or
    link leads to an object that is not there. *)
Theorem reachable_plots_well_formed (s : Plot) :
  reachable s ->
  grouped s /\ linked s /\ acyclic s
  /\ (forall b g, barsGroup s b = Some g -> live s b /\ liveGroup s g)
  /\ (forall x y, barBelow s x = Some y \/ barAbove s x = Some y ->
        live s x /\ live s y).
Proof.
  intros Hreach.
  destruct (reachable_wellFormed s Hreach) as (Hgrouped & Hlinked & Hacyclic).
  split_and!; try done.
  - intros b g Hg. split; [by eapply barsGroup_live|].
    apply Hgrouped in Hg. unfold bars in Hg. unfold liveGroup.
    destruct (plotGroups s !! g); [done|]. by apply elem_of_nil in Hg.
  - intros x y [Hxy|Hxy].
    + split; [by eapply barBelow_live|].
      apply Hlinked in Hxy. by eapply barAbove_live.
    + split; [by eapply barAbove_live|].
      apply Hlinked in Hxy. by eapply barBelow_live.
Qed.

(** ** Stacks end *)

Lemma stackHeight_exists s a :
  linked s -> acyclic s -> live s a -> exists n, stackHeight s a n.
Proof.
  intros Hlinked [rank Hrank].
  assert (forall k a, rank a = k -> live s a -> exists n, stackHeight s a n) as Hall.
  { intros k. induction k as [k IH] using (well_founded_induction lt_wf).
    intros b Hk [bar Hbar]. destruct (mBarBelow bar) as [c|] eqn:Hc.
    - assert (barBelow s b = Some c) as Hbc by (unfold barBelow; by rewrite Hbar).
      destruct (IH (rank c)) with (a := c) as [n Hn].
      + apply Hrank in Hbc. lia.
      + done.
      + apply Hlinked in Hbc. by eapply barAbove_live.
      + exists (S n). by eapply stackHeight_step.
    - exists O. by eapply stackHeight_base. }
  by apply (Hall (rank a)).
Qed.

(** X24.  On every plot that calls of the public interface build, the
    walks along a stack end: for every bar of the plot there is a depth
    beyond which [getStackedBaseValue] returns a value, [getValueRange]
    returns a range with [foundRange] true, and the walk to the bottom of
    the stack (as in [keyPixelOffset]) arrives. *)
Theorem reachable_stacks_end (s : Plot) (a : addr) :
  reachable s -> live s a ->
  exists n,
    stackHeight s a n
    /\ forall fuel key positive inSignDomain, (n < fuel)%nat ->
         is_Some (getStackedBaseValue fuel s a key positive)
         /\ (exists range, getValueRange fuel s a inSignDomain = Some (range, true))
         /\ is_Some (stackRoot fuel s a).
Proof.
  intros Hreach Hlive.
  destruct (reachable_wellFormed s Hreach) as (_ & Hlinked & Hacyclic).
  destruct (stackHeight_exists s a Hlinked Hacyclic Hlive) as [n Hn].
  exists n. split; [done|]. intros fuel key positive inSignDomain Hfuel.
  split_and!.
  - by destruct (getStackedBaseValue_fuel s a n key positive fuel fuel Hn Hfuel Hfuel).
  - destruct Hlive as [bar Hbar].
    destruct (valueRangeLoop_ends fuel s a n inSignDomain (mDataContainer bar)
                (mkRange (mBaseValue bar) (mBaseValue bar), true, true) Hn Hfuel)
      as [st' Hloop].
    exists (fst (fst st')). unfold getValueRange. rewrite Hbar; simpl.
    by rewrite Hloop.
  - by eapply stackRoot_fuel.
Qed.

End ReachablePlots.

Section ReachablePlotsExamples.
Import Bars.

Lemma builtPlot_reachable : reachable builtPlot.
Proof.
  unfold builtPlot. cbn [foldl].
  repeat (apply reachable_step; [|vm_compute; eauto]).
  apply reachable_empty.
Qed.

(** X23 on an instance: [builtPlot]. *)
Lemma reachable_plots_well_formed_builtPlot :
  grouped builtPlot /\ linked builtPlot /\ acyclic builtPlot
  /\ (forall b g, barsGroup builtPlot b = Some g -> live builtPlot b /\ liveGroup builtPlot g)
  /\ (forall x y, barBelow builtPlot x = Some y \/ barAbove builtPlot x = Some y ->
        live builtPlot x /\ live builtPlot y).
Proof. apply (reachable_plots_well_formed builtPlot). exact builtPlot_reachable. Defined.

(** X24 on an instance: bars 2 of [builtPlot], which stand on bars 1. *)
Lemma reachable_stacks_end_builtPlot :
  exists n,
    stackHeight builtPlot 2%nat n
    /\ forall fuel key positive inSignDomain, (n < fuel)%nat ->
         is_Some (getStackedBaseValue fuel builtPlot 2%nat key positive)
         /\ (exists range,
               getValueRange fuel builtPlot 2%nat inSignDomain = Some (range, true))
         /\ is_Some (stackRoot fuel builtPlot 2%nat).
Proof.
  apply (reachable_stacks_end builtPlot 2%nat).
  - exact builtPlot_reachable.
  - vm_compute. eauto.
Defined.

End ReachablePlotsExamples.

(* ===================================================================== *)
(** * Part XV: calls in sequence                                         *)
(* ===================================================================== *)

Section CallsInSequence.
Import Bars.
Open Scope float_scope.
Implicit Types (s : Plot) (a b x y z : addr) (g h : addr).

(** ** A move, then a stacked value *)

(** X25.  After [moveAbove(bars)] the bars stand on the target also by
    their values: [getStackedBaseValue] of the moved bars is what it is for
    the target, plus what the target contributes at the key on the side
    asked for (its largest value on the positive side among its points
    whose key lies between the key less the tolerance and the key plus the
    tolerance as the doubles round them, its smallest on the negative side,
    0 without such a value), and the walk down the new stack ends. *)
Theorem moveAbove_stacks_values (s : Plot) (a b : addr) (key : float) (positive : bool) :
  linked s -> acyclic s -> live s a -> live s b -> a <> b ->
  sameAxes s a b = true -> sortedData s ->
  let s' := moveAbove a (Some b) s in
  exists n lowerBars,
    stackHeight s' a (S n)
    /\ plotBars s !! b = Some lowerBars
    /\ forall fuel, (S n < fuel)%nat ->
         exists r rest,
           getStackedBaseValue fuel s' b key positive = Some rest
           /\ getStackedBaseValue fuel s' a key positive = Some r
           /\ r = stackContribution (mDataContainer lowerBars) key positive + rest.
Proof.
  intros Hlinked Hacyclic Hla Hlb Hab Haxes Hsorted s'.
  destruct (moveAbove_splice s a b Hlinked Hacyclic Hla Hlb Hab Haxes)
    as (Hbelow' & _ & _ & _ & Hlinked' & Hacyclic' & Hlive').
  fold s' in Hbelow', Hlinked', Hacyclic', Hlive'.
  assert (sameButLinks s s') as Hsame.
  { subst s'. rewrite moveAbove_unfold by done. cbv zeta.
    eapply sameButLinks_trans; [apply sameButLinks_connectBars|].
    eapply sameButLinks_trans; [|apply sameButLinks_connectBars].
    destruct (barAbove _ b);
      [apply sameButLinks_connectBars|apply sameButLinks_refl]. }
  destruct Hlb as [lowerBars Hlower].
  destruct Hsame as (_ & _ & _ & Hbars).
  assert (exists lowerBars', plotBars s' !! b = Some lowerBars'
                             /\ mDataContainer lowerBars' = mDataContainer lowerBars)
    as (lowerBars' & Hlower' & Hdata).
  { rewrite Hbars, Hlower. simpl. eauto. }
  assert (live s' b) as Hlb' by (by exists lowerBars').
  destruct (stackHeight_exists s' b Hlinked' Hacyclic' Hlb') as [n Hn].
  assert (exists bar', plotBars s' !! a = Some bar' /\ mBarBelow bar' = Some b)
    as (bar' & Hbar' & Hbb).
  { unfold barBelow in Hbelow'. destruct (plotBars s' !! a) as [bar'|]; [|done].
    by exists bar'. }
  exists n, lowerBars. split_and!; [by eapply stackHeight_step|done|].
  intros fuel Hfuel. destruct fuel as [|fuel]; [lia|].
  destruct (getStackedBaseValue_fuel s' b n key positive (S fuel) fuel Hn
              ltac:(lia) ltac:(lia)) as [[rest Hrest] Heq].
  exists (stackMax (mDataContainer lowerBars') key positive + rest), rest.
  split_and!; [done| |].
  - cbn [getStackedBaseValue]. rewrite Hbar'; simpl. rewrite Hbb, Hlower'; simpl.
    by rewrite <- Heq, Hrest.
  - rewrite Hdata. rewrite (stackMax_contribution (mDataContainer lowerBars));
      [reflexivity|].
    exact (Hsorted b lowerBars Hlower).
Qed.

(** ** The end of a bar chart *)

(** X26.  The destructor of bars takes them out of their group: the bars
    are gone from the plot and from every member list, every member list is
    what it was without them, the other bars are still there and refer to
    the groups they referred to, and the group pointers and member lists
    still agree. *)
Theorem destroyBars_leaves_group (s : Plot) (a : addr) :
  grouped s -> live s a ->
  let s' := destroyBars a s in
  ~ live s' a
  /\ (forall h, bars s' h = removeOne a (bars s h))
  /\ (forall h, a ∉ bars s' h)
  /\ (forall x, x <> a -> barsGroup s' x = barsGroup s x)
  /\ (forall x, x <> a -> live s' x <-> live s x)
  /\ grouped s'.
Proof.
  intros Hgrouped Hlive s'.
  pose proof (destroyBars_grouped s a Hgrouped Hlive) as Hgrouped'.
  fold s' in Hgrouped'.
  destruct (setBarsGroup_members s a None Hgrouped Hlive I) as (Hgroup1 & Hbars1 & _).
  destruct (setBarsGroup_links s a None) as (_ & _ & Hlive1).
  set (s1 := setBarsGroup a None s) in *.
  set (s2 := if bool_decide (is_Some (barBelow s1 a)) || bool_decide (is_Some (barAbove s1 a))
             then connectBars (barBelow s1 a) (barAbove s1 a) s1 else s1).
  assert (sameButLinks s1 s2) as Hsame
    by (subst s2; destruct (_ || _);
        [apply sameButLinks_connectBars|apply sameButLinks_refl]).
  destruct (sameButLinks_members _ _ Hsame) as (Hgroup2 & Hbars2 & Hlive2).
  assert (forall x, plotBars s' !! x
                    = if decide (x = a) then None
                      else (fun bar => assignBarAbove (forget a (mBarAbove bar))
                                         (assignBarBelow (forget a (mBarBelow bar)) bar))
                             <$> plotBars s2 !! x) as Hlookup.
  { intros x. subst s'. unfold destroyBars. fold s1. fold s2. unfold withBars; simpl.
    rewrite lookup_fmap. case_decide; subst.
    - by rewrite lookup_delete_eq.
    - by rewrite lookup_delete_ne. }
  assert (forall h, bars s' h = removeOne a (bars s h)) as Hbars'.
  { intros h. change (bars s' h) with (bars s2 h).
    by rewrite Hbars2, Hbars1, app_nil_r. }
  assert (~ live s' a) as Hdead.
  { unfold live. rewrite Hlookup, decide_True by done. by intros [? ?]. }
  split_and!; try done.
  - intros h Hin. apply Hgrouped' in Hin.
    apply barsGroup_live in Hin. done.
  - intros x Hx. unfold barsGroup at 1. rewrite Hlookup, decide_False by done.
    transitivity (barsGroup s2 x).
    + unfold barsGroup. by destruct (plotBars s2 !! x).
    + by rewrite Hgroup2, Hgroup1, decide_False.
  - intros x Hx. unfold live at 1. rewrite Hlookup, decide_False by done.
    rewrite fmap_is_Some. change (is_Some (plotBars s2 !! x)) with (live s2 x).
    by rewrite Hlive2, Hlive1.
Qed.

End CallsInSequence.

Section CallsInSequenceExamples.
Import Bars.
Open Scope float_scope.

Lemma stackedPlot_sorted : sortedData stackedPlot.
Proof. apply (bool_decide_unpack _). by vm_compute. Qed.

(** X25 on an instance: bars 5 of [stackedPlot] moved above bars 2, which
    stand on bars 1. *)
Lemma moveAbove_stacks_values_stackedPlot :
  let s' := moveAbove 5%nat (Some 2%nat) stackedPlot in
  exists n lowerBars,
    stackHeight s' 5%nat (S n)
    /\ plotBars stackedPlot !! 2%nat = Some lowerBars
    /\ forall fuel, (S n < fuel)%nat ->
         exists r rest,
           getStackedBaseValue fuel s' 2%nat 1 true = Some rest
           /\ getStackedBaseValue fuel s' 5%nat 1 true = Some r
           /\ r = stackContribution (mDataContainer lowerBars) 1 true + rest.
Proof.
  apply (moveAbove_stacks_values stackedPlot 5%nat 2%nat 1 true).
  - exact stackedPlot_linked.
  - exact stackedPlot_acyclic.
  - vm_compute. eauto.
  - vm_compute. eauto.
  - discriminate.
  - vm_compute. reflexivity.
  - exact stackedPlot_sorted.
Defined.

(** X26 on an instance: bars 2 of the group of [groupPlot] destroyed. *)
Lemma destroyBars_leaves_group_groupPlot :
  let s := groupPlot 100%nat in
  let s' := destroyBars 2%nat s in
  ~ live s' 2%nat
  /\ (forall h, bars s' h = removeOne 2%nat (bars s h))
  /\ (forall h, 2%nat ∉ bars s' h)
  /\ (forall x, x <> 2%nat -> barsGroup s' x = barsGroup s x)
  /\ (forall x, x <> 2%nat -> live s' x <-> live s x)
  /\ grouped s'.
Proof.
  apply (destroyBars_leaves_group (groupPlot 100%nat) 2%nat).
  - exact groupPlot_grouped.
  - vm_compute. eauto.
Defined.

End CallsInSequenceExamples.
